(** * Hans: the Wegmans command state machine, the agent loop and the browser pool

    A shallow embedding of
      - [src/actions/wegmans/list.ts]      (the page-level list operations),
      - [src/actions/wegmans/browser.ts]   (WegmansBrowser.withPage),
      - [src/actions/wegmans/auth.ts]      (ensureAuthenticated),
      - [src/actions/wegmans/index.ts]     (WegmansAction and its pending selections),
      - [src/actions/registry.ts]          (ActionRegistry),
      - [src/db/sqlite.ts]                 (the grocery table of DB),
      - [src/llm/agent.ts]                 (HansAgent.handleMessage),
      - [src/llm/gemini.ts]                (GeminiService and its histories),
      - [src/browser/pool.ts]              (BrowserPool),
      - [src/whatsapp/messageHandler.ts]   (the 'message' listener),
    followed by the properties of the specification that concern them.

    JavaScript exceptions are explicit: a computation either returns a value
    or throws, and [try_catch] is the source's try/catch.  Everything the
    program cannot decide itself (what the site shows, whether a page
    operation fails, what the clock reads, what the language model answers)
    is an argument of the model, so every theorem holds for every behaviour of
    these collaborators. *)

From stdpp Require Import base option list strings gmap pretty.
From Stdlib Require Import ZArith Lia Ascii Sorted.

Local Open Scope string_scope.
Local Open Scope list_scope.

(** ** JavaScript values used by the code *)

(** What a [catch (error)] clause receives.  The handlers only look at
    [error instanceof Error ? error.message : 'Unknown error']. *)
Inductive js_error : Type :=
  | Error (message : string)
  | NotAnError.

Definition error_message (e : js_error) : string :=
  match e with
  | Error m => m
  | NotAnError => "Unknown error"
  end.

Inductive outcome (A : Type) : Type :=
  | Returned (a : A)
  | Thrown (e : js_error).
Arguments Returned {A} a.
Arguments Thrown {A} e.

(** SQLite's LOWER: the ASCII letters 'A'..'Z' are lowered, every other byte
    is left alone. *)
Definition lower_ascii (c : ascii) : ascii :=
  let n := nat_of_ascii c in
  if (65 <=? n)%nat && (n <=? 90)%nat then ascii_of_nat (n + 32) else c.

Fixpoint LOWER (s : string) : string :=
  match s with
  | EmptyString => EmptyString
  | String c r => String (lower_ascii c) (LOWER r)
  end.

(** [String.prototype.toLowerCase].  JavaScript lowers every cased letter by
    the case mapping of the Unicode tables; what is proved below of the
    functions that call it holds for any function in its place.  On a string
    of ASCII characters it is [LOWER], which is what the worked examples
    use. *)
Class JsString : Type := { toLowerCase : string -> string }.

(** [s.includes(sub)] *)
Fixpoint includes (s sub : string) : bool :=
  String.prefix sub s ||
  match s with
  | EmptyString => false
  | String _ r => includes r sub
  end.

(** Truthiness of an optional string ([undefined] and [''] are falsy). *)
Definition truthy (o : option string) : bool :=
  match o with
  | Some s => negb (String.eqb s EmptyString)
  | None => false
  end.

(** [a || fallback] on an optional string. *)
Definition or_else (o : option string) (fallback : string) : string :=
  match o with
  | Some s => if String.eqb s EmptyString then fallback else s
  | None => fallback
  end.

(** [lines.join('\n')] *)
Definition newline : string := String (ascii_of_nat 10) EmptyString.

Fixpoint join (sep : string) (l : list string) : string :=
  match l with
  | [] => EmptyString
  | [x] => x
  | x :: r => x +:+ sep +:+ join sep r
  end.

(** ** list.ts: data *)

Record ListItem : Type := mkListItem {
  li_name : string;
  li_price : option string;
  li_size : option string
}.

Record SearchResult : Type := mkSearchResult {
  sr_name : string;
  sr_price : option string;
  sr_size : option string;
  sr_index : nat
}.

(** What the callbacks of [page.$$eval] read from one matched DOM element:
    [xEl?.textContent?.trim()] for the name, price and size sub-elements
    ([None] is [undefined]). *)
Record Element : Type := mkElement {
  el_name : option string;
  el_price : option string;
  el_size : option string
}.

(** ** db/sqlite.ts: the grocery_items table

    The statements are taken to run: an error of SQLite itself (a closed or
    locked database, a full disk) is not part of the model. *)

Record GroceryItem : Type := mkGroceryItem {
  gi_id : Z;
  gi_name : string;
  gi_addedAt : Z;
  gi_synced : bool
}.

Record DB : Type := mkDB {
  grocery_items : list GroceryItem;   (* rows, in insertion order *)
  last_id : Z                         (* AUTOINCREMENT sequence *)
}.

Definition empty_db : DB := mkDB [] 0.

(** INSERT INTO grocery_items (name) VALUES (?) RETURNING ...; [t] is
    CURRENT_TIMESTAMP, the time in whole seconds. *)
Definition addGroceryItem (name : string) (t : Z) (d : DB) : GroceryItem * DB :=
  let row := mkGroceryItem (last_id d + 1) name t false in
  (row, mkDB (grocery_items d ++ [row]) (last_id d + 1)).

(** DELETE FROM grocery_items WHERE LOWER(name) = LOWER(?); returns
    [changes > 0]. *)
Definition same_name_ci (name : string) (row : GroceryItem) : bool :=
  String.eqb (LOWER (gi_name row)) (LOWER name).

Definition removeGroceryItem (name : string) (d : DB) : bool * DB :=
  let kept := List.filter (fun row => negb (same_name_ci name row)) (grocery_items d) in
  let changes := (length (grocery_items d) - length kept)%nat in
  ((0 <? changes)%nat, mkDB kept (last_id d)).

(** ORDER BY added_at DESC.  Rows with equal added_at (rows added within one
    second) come out in the order of their rowids, which is the order in
    which they were added: tests/unit/db.test.ts expects Milk, Eggs, Bread
    for three rows added in a row.  [insert_desc] puts a row before the first
    row that is older, so behind the rows of its own second. *)
Fixpoint insert_desc (x : GroceryItem) (l : list GroceryItem) : list GroceryItem :=
  match l with
  | [] => [x]
  | y :: r => if (gi_addedAt y <? gi_addedAt x)%Z then x :: y :: r
              else y :: insert_desc x r
  end.

Definition order_by_added_at_desc (l : list GroceryItem) : list GroceryItem :=
  foldl (fun sorted row => insert_desc row sorted) [] l.

(** SELECT ... FROM grocery_items ORDER BY added_at DESC *)
Definition getGroceryItems (d : DB) : list GroceryItem :=
  order_by_added_at_desc (grocery_items d).

(** DELETE FROM grocery_items; returns [changes]. *)
Definition clearGroceryItems (d : DB) : nat * DB :=
  (length (grocery_items d), mkDB [] (last_id d)).

(** ** index.ts: data *)

Inductive Source : Type := myItems | search.

Record PendingSelection : Type := mkPending {
  ps_query : string;
  ps_results : list SearchResult;
  ps_source : Source;
  ps_timestamp : Z
}.

Definition SELECTION_TIMEOUT : Z := 5 * 60 * 1000.

Inductive ResultData : Type :=
  | DataListItems (items : list ListItem)
  | DataGroceryItems (items : list GroceryItem).

Record ActionResult : Type := mkResult {
  success : bool;
  message : string;
  data : option ResultData
}.

(** The list.ts operations a handler runs against the page; [calls] of the
    world below records them in the order they are started. *)
Inductive remote_call : Type :=
  | CallGetListItems
  | CallSearchMyItems (query : string)
  | CallSearchProducts (query : string)
  | CallAddMyItemToList (query : string) (resultIndex : nat)
  | CallAddSearchResultToList (query : string) (resultIndex : nat)
  | CallRemoveItemFromList (itemName : string)
  | CallClearList.

(** The command [execute] was handed: which of its regular-expression tests
    on [context.message] succeeds first (they are tried in the order pick,
    add, search, remove, list, clear) together with the captured group
    [match[1]], when [context.match] is the array that the pattern of that
    command gives on the message; for pick the group is [\d+] and [parseInt]
    turns it into a natural number. *)
Inductive command : Type :=
  | Pick (selection : nat)
  | Add (item : string)
  | Search (item : string)
  | Remove (item : string)
  | ShowList
  | ClearListCmd
  | Unknown.

(** The tests of [execute] after which [match[1]] is read. *)
Inductive group_test : Type :=
  | pick_test            (* [/^(?:pick|select|choose)\s+\d+$/i] *)
  | add_test             (* [/^add\s+/i] *)
  | search_test          (* [/^search\s+/i] *)
  | remove_test.         (* [/^remove\s+/i] *)

(** What [execute] is handed.  ActionRegistry.execute passes the match of the
    pattern it found, so a command.  HansAgent.executeFunction passes
    [message.match(pattern) as RegExpMatchArray], which is null when the
    pattern does not match although the shorter test of [execute] passes:
    [`add ${item}`] passes [/^add\s+/i] for every item and matches
    [/^add\s+(.+)$/i] only when the item has a character and no line break
    (likewise for search and remove). *)
Inductive invocation : Type :=
  | WithMatch (c : command)
  | NullMatch (passed : group_test).

(** [match[1]] with [match] null *)
Definition TypeError_match_null : js_error :=
  Error "Cannot read properties of null (reading '1')".

(** ** Computations that may throw

    [M W A]: a computation over the mutable state [W] that returns an [A] or
    throws; the state changes made before a throw stay. *)

Definition M (W A : Type) : Type := W -> outcome A * W.

Definition ret {W A} (a : A) : M W A := fun w => (Returned a, w).

Definition throw {W A} (e : js_error) : M W A := fun w => (Thrown e, w).

Definition bind {W A B} (m : M W A) (k : A -> M W B) : M W B :=
  fun w =>
    match m w with
    | (Returned a, w') => k a w'
    | (Thrown e, w') => (Thrown e, w')
    end.

(** [try { body } catch (error) { handler }] *)
Definition try_catch {W A} (body : M W A) (handler : js_error -> M W A) : M W A :=
  fun w =>
    match body w with
    | (Returned a, w') => (Returned a, w')
    | (Thrown e, w') => handler e w'
    end.

Definition get_world {W} : M W W := fun w => (Returned w, w).

Definition modify {W} (f : W -> W) : M W unit := fun w => (Returned tt, f w).

Notation "x <~ m ; k" := (bind m (fun x => k))
  (at level 200, m at level 100, k at level 200, right associativity).
Notation "m ;; k" := (bind m (fun _ => k))
  (at level 100, k at level 200, right associativity).

Section Wegmans.

Context {js : JsString}.

(** ** The site and the browser behind [withPage]

    [E] is the state of everything outside the process: the remote site, the
    Playwright page and context, the clock.  Each field is one interaction
    and may change that state in any way. *)
Context {E : Type}.

Record Site : Type := mkSite {
  (** [Date.now()] *)
  now : E -> Z;
  (** [this.page && !this.page.isClosed()] *)
  page_ready : E -> bool;
  (** [browserPool.getContext('wegmans')] then [context.newPage()] *)
  new_page : E -> outcome unit * E;
  (** [ensureAuthenticated(page, credentials)]; auth.ts catches every error *)
  ensureAuthenticated : E -> bool * E;
  (** [browserPool.saveContextState('wegmans')] *)
  saveContextState : E -> outcome unit * E;
  (** [this.page.close()] in closePage *)
  close_page : E -> outcome unit * E;
  (** getListItems: navigateToList (which swallows its own errors) and
      [page.$$eval(SELECTORS.list.item, ...)]: the matched elements, or the
      error Playwright throws *)
  eval_list_items : E -> outcome (list Element) * E;
  (** searchMyItems: goto, the optional search box, then
      [page.$$eval(SELECTORS.myItems.item, ...)] *)
  eval_my_items : string -> E -> outcome (list Element) * E;
  (** searchProducts: goto, the no-results probe ([None] when the marker is
      on the page), waitForSelector, then
      [page.$$eval(SELECTORS.search.productCard, ...)] *)
  eval_product_cards : string -> E -> outcome (option (list Element)) * E;
  (** the remaining list.ts operations, each a single try/catch that
      returns a boolean *)
  run_addMyItemToList : string -> nat -> E -> bool * E;
  run_addSearchResultToList : string -> nat -> E -> bool * E;
  run_removeItemFromList : string -> E -> bool * E;
  run_clearList : E -> bool * E
}.

Variable S : Site.

(** ** The process state seen by WegmansAction *)

Record World : Type := mkWorld {
  pendingSelections : gmap string PendingSelection;
  db : DB;
  site : E;
  calls : list remote_call
}.

Definition set_pending (p : gmap string PendingSelection) (w : World) : World :=
  mkWorld p (db w) (site w) (calls w).
Definition set_db (d : DB) (w : World) : World :=
  mkWorld (pendingSelections w) d (site w) (calls w).
Definition set_site (e : E) (w : World) : World :=
  mkWorld (pendingSelections w) (db w) e (calls w).
Definition set_calls (c : list remote_call) (w : World) : World :=
  mkWorld (pendingSelections w) (db w) (site w) c.

(** An interaction with the outside that may throw. *)
Definition interact {A} (f : E -> outcome A * E) : M World A :=
  fun w => let (r, e) := f (site w) in (r, set_site e w).

(** An interaction that cannot throw. *)
Definition interact_total {A} (f : E -> A * E) : M World A :=
  fun w => let (a, e) := f (site w) in (Returned a, set_site e w).

Definition record (c : remote_call) : M World unit :=
  modify (fun w => set_calls (calls w ++ [c]) w).

(** ** list.ts *)

Definition list_item_of (el : Element) : ListItem :=
  mkListItem (or_else (el_name el) "Unknown item") (el_price el) (el_size el).

Definition getListItems : M World (list ListItem) :=
  record CallGetListItems ;;
  try_catch
    (elements <~ interact (eval_list_items S) ;
     ret (map list_item_of elements))
    (fun _ => ret []).

Definition my_item_of (idx : nat) (el : Element) : SearchResult :=
  mkSearchResult (or_else (el_name el) EmptyString) None None idx.

Definition name_matches (q : string) (item : SearchResult) : bool :=
  includes (toLowerCase (sr_name item)) (toLowerCase q).

Definition searchMyItems (query : string) : M World (list SearchResult) :=
  record (CallSearchMyItems query) ;;
  try_catch
    (elements <~ interact (eval_my_items S query) ;
     ret (take 5 (List.filter (name_matches query) (imap my_item_of elements))))
    (fun _ => ret []).

Definition product_of (idx : nat) (el : Element) : SearchResult :=
  mkSearchResult (or_else (el_name el) "Unknown product") (el_price el) (el_size el) idx.

Definition searchProducts (query : string) : M World (list SearchResult) :=
  record (CallSearchProducts query) ;;
  try_catch
    (cards <~ interact (eval_product_cards S query) ;
     match cards with
     | None => ret []
     | Some elements => ret (imap product_of (take 5 elements))
     end)
    (fun _ => ret []).

Definition addSearchResultToList (query : string) (resultIndex : nat) : M World bool :=
  record (CallAddSearchResultToList query resultIndex) ;;
  interact_total (run_addSearchResultToList S query resultIndex).

Definition addMyItemToList (query : string) (resultIndex : nat) : M World bool :=
  record (CallAddMyItemToList query resultIndex) ;;
  interact_total (run_addMyItemToList S query resultIndex).

Definition removeItemFromList (itemName : string) : M World bool :=
  record (CallRemoveItemFromList itemName) ;;
  interact_total (run_removeItemFromList S itemName).

Definition clearList : M World bool :=
  record CallClearList ;;
  interact_total (run_clearList S).

(** ** browser.ts: WegmansBrowser *)

Definition getPage : M World unit :=
  w <~ get_world ;
  if page_ready S (site w) then ret tt
  else
    interact (new_page S) ;;
    authenticated <~ interact_total (ensureAuthenticated S) ;
    if authenticated : bool then interact (saveContextState S)
    else throw (Error "Failed to authenticate with Wegmans").

Definition closePage : M World unit :=
  w <~ get_world ;
  if page_ready S (site w) then interact (close_page S) else ret tt.

Definition withPage {A} (operation : M World A) : M World A :=
  getPage ;;
  try_catch
    (result <~ operation ;
     interact (saveContextState S) ;;
     ret result)
    (fun error => closePage ;; throw error).


(** ** index.ts: WegmansAction *)

Definition dq : string := String (ascii_of_nat 34) EmptyString.

(** [`"${s}"`] *)
Definition quoted (s : string) : string := dq +:+ s +:+ dq.

(** [if (x) line += `${before}${x}${after}`] *)
Definition when_truthy (before : string) (o : option string) (after : string) : string :=
  if truthy o then before +:+ or_else o EmptyString +:+ after else EmptyString.

Definition failure (msg : string) : ActionResult := mkResult false msg None.
Definition succeeded (msg : string) : ActionResult := mkResult true msg None.

(** [now - selection.timestamp > SELECTION_TIMEOUT] *)
Definition expired (t : Z) (selection : PendingSelection) : bool :=
  (t - ps_timestamp selection >? SELECTION_TIMEOUT)%Z.

Definition cleanupPendingSelections : M World unit :=
  modify (fun w =>
    let t := now S (site w) in
    set_pending
      (filter (fun kv : string * PendingSelection => expired t kv.2 = false)
              (pendingSelections w)) w).

(** SQLite's CURRENT_TIMESTAMP: it has a resolution of one second, and is
    read off the clock that [Date.now()] reads in milliseconds. *)
Definition CURRENT_TIMESTAMP (w : World) : Z := (now S (site w) / 1000)%Z.

(** [db.addGroceryItem(name)]; the returned row is not used by the handlers *)
Definition db_addGroceryItem (name : string) : M World unit :=
  modify (fun w => set_db (addGroceryItem name (CURRENT_TIMESTAMP w) (db w)).2 w).

(** [pendingSelections.set('default', { query, results, source, timestamp: Date.now() })] *)
Definition store_pending (query : string) (results : list SearchResult) (source : Source)
  : M World unit :=
  modify (fun w =>
    set_pending
      (<["default" := mkPending query results source (now S (site w))]>
         (pendingSelections w)) w).

Definition delete_pending : M World unit :=
  modify (fun w => set_pending (delete "default" (pendingSelections w)) w).

(** The line of the past-purchases menu for the candidate at position [i] *)
Definition my_items_line (i : nat) (r : SearchResult) : string :=
  pretty (i + 1)%nat +:+ ". " +:+ sr_name r +:+ when_truthy " - " (sr_price r) EmptyString.

(** The line of the catalog menu for the candidate at position [i] *)
Definition search_line (i : nat) (r : SearchResult) : string :=
  pretty (i + 1)%nat +:+ ". " +:+ sr_name r
    +:+ when_truthy " (" (sr_size r) ")"
    +:+ when_truthy " - " (sr_price r) EmptyString.

Definition my_items_menu (results : list SearchResult) : string :=
  "Found in your past purchases:" +:+ newline +:+ newline
    +:+ join newline (imap my_items_line results)
    +:+ newline +:+ newline
    +:+ "Reply " +:+ quoted "pick <number>"
    +:+ " to select, or I'll search the full catalog if none match.".

Definition search_menu (item : string) (results : list SearchResult) : string :=
  "Found " +:+ pretty (length results) +:+ " items for " +:+ quoted item +:+ ":"
    +:+ newline +:+ newline
    +:+ join newline (imap search_line results)
    +:+ newline +:+ newline
    +:+ "Reply " +:+ quoted "pick <number>" +:+ " to add one.".

Definition not_found_message (item : string) : string :=
  "Couldn't find " +:+ quoted item +:+ " on Wegmans. Try a different search term.".

Definition search_failed_message (item : string) (error : js_error) : string :=
  "Failed to search for " +:+ quoted item +:+ ": " +:+ error_message error.

(** [r.name.toLowerCase() === item.toLowerCase()] *)
Definition is_exact_match (item : string) (r : SearchResult) : bool :=
  String.eqb (toLowerCase (sr_name r)) (toLowerCase item).

(** The part of handleAdd and handleSearch after the catalog search: both
    functions contain the same statements from [searchResults.length === 0]
    to the final return.  [None] of an inner block means that no [return]
    was reached in it and control goes on to the next statement. *)
Definition resolve_catalog_results (item : string) (searchResults : list SearchResult)
  : M World ActionResult :=
  if (length searchResults =? 0)%nat then ret (failure (not_found_message item))
  else
    returned <~
      (if (length searchResults =? 1)%nat then
         success <~ withPage (addSearchResultToList item 0) ;
         if success : bool then
           match searchResults !! 0%nat with
           | Some first =>
               db_addGroceryItem (sr_name first) ;;
               ret (Some (succeeded ("Added " +:+ quoted (sr_name first) +:+ " to your list")))
           | None => throw (Error "Cannot read properties of undefined (reading 'name')")
           end
         else ret None
       else ret None) ;
    match returned with
    | Some result => ret result
    | None =>
        store_pending item searchResults search ;;
        ret (succeeded (search_menu item searchResults))
    end.

Definition handleAdd (item : string) : M World ActionResult :=
  try_catch
    (myItemsResults <~ withPage (searchMyItems item) ;
     if (0 <? length myItemsResults)%nat then
       returned <~
         match List.find (is_exact_match item) myItemsResults with
         | Some exactMatch =>
             success <~ withPage (addMyItemToList item (sr_index exactMatch)) ;
             if success : bool then
               db_addGroceryItem (sr_name exactMatch) ;;
               ret (Some (succeeded ("Added " +:+ quoted (sr_name exactMatch)
                                       +:+ " from your past purchases")))
             else ret None
         | None => ret None
         end ;
       match returned with
       | Some result => ret result
       | None =>
           store_pending item myItemsResults myItems ;;
           ret (succeeded (my_items_menu myItemsResults))
       end
     else
       searchResults <~ withPage (searchProducts item) ;
       resolve_catalog_results item searchResults)
    (fun error => ret (failure (search_failed_message item error))).

Definition handleSearch (item : string) : M World ActionResult :=
  try_catch
    (searchResults <~ withPage (searchProducts item) ;
     resolve_catalog_results item searchResults)
    (fun error => ret (failure (search_failed_message item error))).

Definition no_pending_message : string :=
  "No pending selection. Use " +:+ quoted "add <item>" +:+ " to search first.".

Definition range_message (k : nat) : string :=
  "Please pick a number between 1 and " +:+ pretty k.

Definition handleSelection (selection : Z) : M World ActionResult :=
  w <~ get_world ;
  match pendingSelections w !! "default" with
  | None => ret (failure no_pending_message)
  | Some pending =>
      let index := (selection - 1)%Z in
      if (index <? 0)%Z || (Z.of_nat (length (ps_results pending)) <=? index)%Z
      then ret (failure (range_message (length (ps_results pending))))
      else
        match ps_results pending !! Z.to_nat index with
        | None => throw (Error "Cannot read properties of undefined (reading 'name')")
        | Some selectedItem =>
            try_catch
              (success <~
                 match ps_source pending with
                 | myItems => withPage (addMyItemToList (ps_query pending) (sr_index selectedItem))
                 | search => withPage (addSearchResultToList (ps_query pending) (sr_index selectedItem))
                 end ;
               delete_pending ;;
               if success : bool then
                 db_addGroceryItem (sr_name selectedItem) ;;
                 ret (succeeded ("Added " +:+ quoted (sr_name selectedItem) +:+ " to your list"))
               else
                 ret (failure ("Couldn't add " +:+ quoted (sr_name selectedItem)
                                 +:+ ". Please try again.")))
              (fun error =>
                 delete_pending ;;
                 ret (failure ("Failed to add item: " +:+ error_message error)))
        end
  end.

Definition handleRemove (item : string) : M World ActionResult :=
  try_catch
    (success <~ withPage (removeItemFromList item) ;
     if success : bool then
       modify (fun w => set_db (removeGroceryItem item (db w)).2 w) ;;
       ret (succeeded ("Removed " +:+ quoted item +:+ " from your list"))
     else
       ret (failure ("Couldn't find " +:+ quoted item +:+ " in your list")))
    (fun error =>
       ret (failure ("Failed to remove " +:+ quoted item +:+ ": " +:+ error_message error))).

Definition list_line (i : nat) (item : ListItem) : string :=
  pretty (i + 1)%nat +:+ ". " +:+ li_name item
    +:+ when_truthy " (" (li_size item) ")"
    +:+ when_truthy " - " (li_price item) EmptyString.

Definition cached_line (i : nat) (item : GroceryItem) : string :=
  pretty (i + 1)%nat +:+ ". " +:+ gi_name item.

Definition list_header (n : nat) : string :=
  "Your shopping list (" +:+ pretty n +:+ " items):" +:+ newline +:+ newline.

Definition handleList : M World ActionResult :=
  try_catch
    (items <~ withPage getListItems ;
     if (length items =? 0)%nat then ret (succeeded "Your shopping list is empty")
     else
       ret (mkResult true
              (list_header (length items) +:+ join newline (imap list_line items))
              (Some (DataListItems items))))
    (fun error =>
       w <~ get_world ;
       let cachedItems := getGroceryItems (db w) in
       if (0 <? length cachedItems)%nat then
         ret (mkResult true
                ("(Cached) " +:+ list_header (length cachedItems)
                   +:+ join newline (imap cached_line cachedItems))
                (Some (DataGroceryItems cachedItems)))
       else
         ret (failure ("Failed to get list: " +:+ error_message error))).

Definition handleClear : M World ActionResult :=
  try_catch
    (success <~ withPage clearList ;
     if success : bool then
       w <~ get_world ;
       let (count, cleared) := clearGroceryItems (db w) in
       modify (set_db cleared) ;;
       ret (succeeded ("Cleared your shopping list (" +:+ pretty count +:+ " items removed)"))
     else
       ret (failure "Failed to clear the list"))
    (fun error => ret (failure ("Failed to clear list: " +:+ error_message error))).

Definition execute (c : command) : M World ActionResult :=
  cleanupPendingSelections ;;
  match c with
  | Pick selection => handleSelection (Z.of_nat selection)
  | Add item => handleAdd item
  | Search item => handleSearch item
  | Remove item => handleRemove item
  | ShowList => handleList
  | ClearListCmd => handleClear
  | Unknown => ret (failure "Unknown Wegmans command")
  end.

(** [execute(context)] on whatever its callers hand it: with a null match,
    reading [match[1]] throws after the sweep and before any handler is
    called, outside every try block. *)
Definition execute_context (i : invocation) : M World ActionResult :=
  match i with
  | WithMatch c => execute c
  | NullMatch _ => cleanupPendingSelections ;; throw TypeError_match_null
  end.

(** ** Vocabulary for the properties below *)

(** Where a handler starts from: the world once [execute] has swept the
    expired selections. *)
Definition after_cleanup (w : World) : World := (cleanupPendingSelections w).2.

(** A step that leaves the pending selections and the local table alone. *)
Definition same_store (w w' : World) : Prop :=
  pendingSelections w' = pendingSelections w /\ db w' = db w.

(** A page step: the stores are kept and nothing is added to [calls]. *)
Definition quiet {A} (m : M World A) : Prop :=
  forall w, same_store w (m w).2 /\ calls (m w).2 = calls w.

(** A list.ts operation: it is recorded once, it keeps the stores, and it
    returns (each body is a single try/catch). *)
Definition page_operation {A} (c : remote_call) (op : M World A) : Prop :=
  forall w, exists a w',
    op w = (Returned a, w') /\ same_store w w' /\ calls w' = calls w ++ [c].

(** The remote operation a pick resolves to. *)
Definition resolution (pending : PendingSelection) (selectedItem : SearchResult)
  : M World bool :=
  match ps_source pending with
  | myItems => addMyItemToList (ps_query pending) (sr_index selectedItem)
  | search => addSearchResultToList (ps_query pending) (sr_index selectedItem)
  end.

Definition resolution_call (pending : PendingSelection) (selectedItem : SearchResult)
  : remote_call :=
  match ps_source pending with
  | myItems => CallAddMyItemToList (ps_query pending) (sr_index selectedItem)
  | search => CallAddSearchResultToList (ps_query pending) (sr_index selectedItem)
  end.

(** After the range check of handleSelection: the three ways a pick ends. *)
Definition after_resolution (selectedItem : SearchResult)
    (attempt : outcome bool * World) : outcome ActionResult * World :=
  match attempt with
  | (Returned true, w1) =>
      (Returned (succeeded ("Added " +:+ quoted (sr_name selectedItem) +:+ " to your list")),
       set_db (addGroceryItem (sr_name selectedItem) (CURRENT_TIMESTAMP w1) (db w1)).2
              (set_pending (delete "default" (pendingSelections w1)) w1))
  | (Returned false, w1) =>
      (Returned (failure ("Couldn't add " +:+ quoted (sr_name selectedItem)
                            +:+ ". Please try again.")),
       set_pending (delete "default" (pendingSelections w1)) w1)
  | (Thrown error, w1) =>
      (Returned (failure ("Failed to add item: " +:+ error_message error)),
       set_pending (delete "default" (pendingSelections w1)) w1)
  end.

(** *** The add protocol in the specification's words

    The states an invocation can end in: Resolved (remote add done, item
    persisted locally), Disambiguating (a PendingSelection stored under the
    session key, a menu returned) and Failed. *)

Definition Resolved (msg name : string) (w : World) : outcome ActionResult * World :=
  (Returned (succeeded msg),
   set_db (addGroceryItem name (CURRENT_TIMESTAMP w) (db w)).2 w).

Definition Disambiguating (item : string) (candidates : list SearchResult)
    (source : Source) (menu : string) (w : World) : outcome ActionResult * World :=
  (Returned (succeeded menu),
   set_pending
     (<["default" := mkPending item candidates source (now S (site w))]>
        (pendingSelections w)) w).

Definition Failed (msg : string) (w : World) : outcome ActionResult * World :=
  (Returned (failure msg), w).

(** Full catalog search: zero results fail, exactly one is added at once,
    more than one are offered; a single result whose remote add reports
    failure is offered as a one-line menu. *)
Definition catalog_protocol (item : string) (w : World) : outcome ActionResult * World :=
  match withPage (searchProducts item) w with
  | (Thrown error, w1) => Failed (search_failed_message item error) w1
  | (Returned [], w1) => Failed (not_found_message item) w1
  | (Returned [only], w1) =>
      match withPage (addSearchResultToList item 0) w1 with
      | (Returned true, w2) =>
          Resolved ("Added " +:+ quoted (sr_name only) +:+ " to your list") (sr_name only) w2
      | (Returned false, w2) =>
          Disambiguating item [only] search (search_menu item [only]) w2
      | (Thrown error, w2) => Failed (search_failed_message item error) w2
      end
  | (Returned many, w1) => Disambiguating item many search (search_menu item many) w1
  end.

(** Past purchases first: an exact match (ignoring case) is added at once;
    other matches, or an exact match whose remote add reports failure, are
    offered; no match at all goes on to the catalog. *)
Definition add_protocol (item : string) (w : World) : outcome ActionResult * World :=
  match withPage (searchMyItems item) w with
  | (Thrown error, w1) => Failed (search_failed_message item error) w1
  | (Returned [], w1) => catalog_protocol item w1
  | (Returned cache, w1) =>
      match List.find (is_exact_match item) cache with
      | Some exactMatch =>
          match withPage (addMyItemToList item (sr_index exactMatch)) w1 with
          | (Returned true, w2) =>
              Resolved ("Added " +:+ quoted (sr_name exactMatch) +:+ " from your past purchases")
                       (sr_name exactMatch) w2
          | (Returned false, w2) =>
              Disambiguating item cache myItems (my_items_menu cache) w2
          | (Thrown error, w2) => Failed (search_failed_message item error) w2
          end
      | None => Disambiguating item cache myItems (my_items_menu cache) w1
      end
  end.

(** The worlds the process can be in: [pendingSelections] starts as an empty
    Map and changes only through [execute]. *)
Inductive reachable : World -> Prop :=
  | reachable_start d e log : reachable (mkWorld ∅ d e log)
  | reachable_execute w c : reachable w -> reachable (execute c w).2.

(** Every stored menu has at most five candidates. *)
Definition short_menus (pending : gmap string PendingSelection) : Prop :=
  forall key p, pending !! key = Some p -> (length (ps_results p) <= 5)%nat.

(** Every entry sits under the one key the handlers use. *)
Definition one_key (pending : gmap string PendingSelection) : Prop :=
  forall key p, pending !! key = Some p -> key = "default".

(** What one invocation of command [c] can do to the pending selections it
    started with. *)
Inductive pending_effect (c : command) (before after : gmap string PendingSelection)
  : Prop :=
  | pending_kept : after = before -> pending_effect c before after
  | pending_consumed : after = delete "default" before -> pending_effect c before after
  | pending_replaced p :
      (length (ps_results p) <= 5)%nat ->
      c = Add (ps_query p) \/ c = Search (ps_query p) ->
      after = <["default" := p]> before -> pending_effect c before after.

(** What one invocation of command [c] can do to the local table. *)
Inductive table_effect (c : command) (before after : DB) : Prop :=
  | table_kept : after = before -> table_effect c before after
  | table_row_added name t :
      match c with Pick _ | Add _ | Search _ => True | _ => False end ->
      after = (addGroceryItem name t before).2 -> table_effect c before after
  | table_rows_removed item :
      c = Remove item ->
      after = (removeGroceryItem item before).2 -> table_effect c before after
  | table_cleared :
      c = ClearListCmd ->
      after = (clearGroceryItems before).2 -> table_effect c before after.

End Wegmans.

(** ** llm/gemini.ts and llm/agent.ts: the tool-calling loop *)

Section Agent.

(** [call.args] is only handed on to executeFunction. *)
Context {Args : Type}.

Record FunctionCall : Type := mkCall {
  fc_name : string;
  fc_args : Args
}.

Record LLMResponse : Type := mkResponse {
  text : option string;
  functionCalls : option (list FunctionCall)
}.

(** What the agent asks of the conversation service, with the answer it got. *)
Inductive service_call : Type :=
  | Chat (userId message : string) (answer : outcome LLMResponse)
  | AddFunctionResult (userId functionName result : string)
  | ContinueWithFunctionResults (userId : string) (answer : outcome LLMResponse).

(** [G] is the state of the conversation service (history and the model
    behind it), [T] the state the tools act on. *)
Context {G T : Type}.

Record GeminiService : Type := mkGemini {
  chat : string -> string -> G -> outcome LLMResponse * G;
  addFunctionResult : string -> string -> string -> G -> G;
  continueWithFunctionResults : string -> G -> outcome LLMResponse * G
}.

Variable gemini : GeminiService.

(** [HansAgent.executeFunction]: its body is one try/catch whose two branches
    both return a string, so it returns for every call. *)
Variable executeFunction : FunctionCall -> string -> T -> string * T.

Record AgentWorld : Type := mkAgentWorld {
  service : G;
  tools : T;
  service_calls : list service_call
}.

Definition ask_chat (userId message : string) : M AgentWorld LLMResponse :=
  fun w =>
    let (answer, g) := chat gemini userId message (service w) in
    (answer, mkAgentWorld g (tools w) (service_calls w ++ [Chat userId message answer])).

Definition ask_continue (userId : string) : M AgentWorld LLMResponse :=
  fun w =>
    let (answer, g) := continueWithFunctionResults gemini userId (service w) in
    (answer,
     mkAgentWorld g (tools w) (service_calls w ++ [ContinueWithFunctionResults userId answer])).

Definition run_tool (call : FunctionCall) (userId : string) : M AgentWorld string :=
  fun w =>
    let (result, t) := executeFunction call userId (tools w) in
    (Returned result, mkAgentWorld (service w) t (service_calls w)).

Definition tell_result (userId functionName result : string) : M AgentWorld unit :=
  modify (fun w =>
    mkAgentWorld (addFunctionResult gemini userId functionName result (service w))
                 (tools w)
                 (service_calls w ++ [AddFunctionResult userId functionName result])).

(** [for (const call of response.functionCalls) { ... }] *)
Fixpoint execute_calls (calls : list FunctionCall) (userId : string) : M AgentWorld unit :=
  match calls with
  | [] => ret tt
  | call :: more =>
      result <~ run_tool call userId ;
      tell_result userId (fc_name call) result ;;
      execute_calls more userId
  end.

Definition maxIterations : nat := 5.

(** [response.functionCalls && response.functionCalls.length > 0] *)
Definition requested_calls (response : LLMResponse) : list FunctionCall :=
  match functionCalls response with
  | Some calls => calls
  | None => []
  end.

(** The while loop of handleMessage, by the number
    [remaining = maxIterations - iterations] of rounds its guard
    [iterations < maxIterations] still allows. *)
Fixpoint function_call_loop (remaining : nat) (userId : string) (response : LLMResponse)
  : M AgentWorld LLMResponse :=
  match remaining with
  | O => ret response
  | Datatypes.S fewer =>
      match requested_calls response with
      | [] => ret response
      | calls =>
          execute_calls calls userId ;;
          next <~ ask_continue userId ;
          function_call_loop fewer userId next
      end
  end.

Definition api_key_message : string :=
  "I'm having trouble connecting to my brain. Please check the Gemini API key.".

Definition apology_message : string :=
  "Sorry, something went wrong. Please try again.".

(** The reply of the catch clause of handleMessage. *)
Definition fallback_reply (error : js_error) : string :=
  match error with
  | Error m => if includes m "API key" then api_key_message else apology_message
  | NotAnError => apology_message
  end.

(** [if (response.text) return response.text; return "Done!"] *)
Definition final_reply (response : LLMResponse) : string :=
  or_else (text response) "Done!".

Definition handleMessage (userId message : string) (w : AgentWorld) : string * AgentWorld :=
  match (response <~ ask_chat userId message ;
         function_call_loop maxIterations userId response) w with
  | (Returned response, w') => (final_reply response, w')
  | (Thrown error, w') => (fallback_reply error, w')
  end.

(** ** Vocabulary for the properties of the loop *)

Definition is_continuation (c : service_call) : bool :=
  match c with
  | ContinueWithFunctionResults _ _ => true
  | _ => false
  end.

Definition continuation_count (log : list service_call) : nat :=
  length (List.filter is_continuation log).

(** The answer of the last chat or continuation request in a log. *)
Fixpoint last_answer (log : list service_call) : option (outcome LLMResponse) :=
  match log with
  | [] => None
  | c :: more =>
      match last_answer more with
      | Some a => Some a
      | None =>
          match c with
          | Chat _ _ a => Some a
          | ContinueWithFunctionResults _ a => Some a
          | AddFunctionResult _ _ _ => None
          end
      end
  end.

(** *** The shape of a conversation *)

(** The results of one round, as they are reported to the service: one
    [addFunctionResult] per requested call, under the call's name. *)
Definition reports (userId : string) (requested : list FunctionCall)
    (results : list string) : list service_call :=
  zip_with (fun call result => AddFunctionResult userId (fc_name call) result)
           requested results.

(** The requests of the while loop, started with [response] and [n] rounds
    left: it stops when no round is left or no call is requested; otherwise
    it reports a result for each requested call, asks for a continuation, and
    goes on with the answer or stops if the request threw. *)
Inductive tool_rounds (userId : string) : nat -> LLMResponse -> list service_call -> Prop :=
  | rounds_over n response :
      n = O \/ requested_calls response = [] ->
      tool_rounds userId n response []
  | rounds_thrown n response results e :
      requested_calls response <> [] ->
      length results = length (requested_calls response) ->
      tool_rounds userId (Datatypes.S n) response
        (reports userId (requested_calls response) results
           ++ [ContinueWithFunctionResults userId (Thrown e)])
  | rounds_next n response results next rest :
      requested_calls response <> [] ->
      length results = length (requested_calls response) ->
      tool_rounds userId n next rest ->
      tool_rounds userId (Datatypes.S n) response
        (reports userId (requested_calls response) results
           ++ ContinueWithFunctionResults userId (Returned next) :: rest).

End Agent.

(** ** browser/pool.ts: BrowserPool.getBrowser

    JavaScript runs one piece of code at a time: an async function runs
    without interruption until its next [await], and resumes later, again
    without interruption.  getBrowser has one [await], so a call is two
    uninterrupted pieces: from its entry to [await this.initPromise], and
    from there to its end.  A schedule lists the pieces in the order the
    event loop runs them. *)

Section Pool.

Context {Browser : Type}.

(** [browser.isConnected()] *)
Variable isConnected : Browser -> bool.

(** The promise returned by initBrowser: pending until chromium.launch
    settles. *)
Inductive promise : Type :=
  | Pending
  | Settled (o : outcome Browser).

Record BrowserPool : Type := mkPool {
  browser : option Browser;
  initPromise : option nat;          (* the promise, by the launch it belongs to *)
  launched : list promise            (* one promise per chromium.launch so far *)
}.

(** What a caller of getBrowser holds once the first piece of its call has
    run. *)
Inductive caller : Type :=
  | HasBrowser (b : Browser)         (* [return this.browser] *)
  | Follows (p : nat)                (* [return this.initPromise] *)
  | Awaits (p : nat)                 (* suspended at [await this.initPromise] *)
  | Resumed (o : outcome Browser).   (* the second piece has run *)

(** [this.browser && this.browser.isConnected()] *)
Definition live_browser (pool : BrowserPool) : option Browser :=
  match browser pool with
  | Some b => if isConnected b then Some b else None
  | None => None
  end.

(** getBrowser from its entry to its first suspension or return. *)
Definition getBrowser_enter (pool : BrowserPool) : caller * BrowserPool :=
  match live_browser pool with
  | Some b => (HasBrowser b, pool)
  | None =>
      match initPromise pool with
      | Some p => (Follows p, pool)
      | None =>
          let p := length (launched pool) in
          (Awaits p, mkPool (browser pool) (Some p) (launched pool ++ [Pending]))
      end
  end.

(** getBrowser after [await this.initPromise] delivered [o]: the assignment
    and return of the try block, then the finally block. *)
Definition getBrowser_resume (o : outcome Browser) (pool : BrowserPool)
  : outcome Browser * BrowserPool :=
  match o with
  | Returned b => (Returned b, mkPool (Some b) None (launched pool))
  | Thrown e => (Thrown e, mkPool (browser pool) None (launched pool))
  end.

Inductive event : Type :=
  | Enter                               (* some caller invokes getBrowser *)
  | Launch_settles (p : nat) (o : outcome Browser)
  | Resume (c : nat).                   (* caller number [c] continues after its await *)

Record Loop : Type := mkLoop {
  pool : BrowserPool;
  callers : list caller                 (* in the order of their calls *)
}.

Definition step (ev : event) (l : Loop) : Loop :=
  match ev with
  | Enter =>
      let (c, pool') := getBrowser_enter (pool l) in
      mkLoop pool' (callers l ++ [c])
  | Launch_settles p o =>
      match launched (pool l) !! p with
      | Some Pending =>
          mkLoop (mkPool (browser (pool l)) (initPromise (pool l))
                         (<[p := Settled o]> (launched (pool l))))
                 (callers l)
      | _ => l
      end
  | Resume c =>
      match callers l !! c with
      | Some (Awaits p) =>
          match launched (pool l) !! p with
          | Some (Settled o) =>
              let (r, pool') := getBrowser_resume o (pool l) in
              mkLoop pool' (<[c := Resumed r]> (callers l))
          | _ => l
          end
      | _ => l
      end
  end.

Definition run (schedule : list event) (l : Loop) : Loop :=
  foldl (fun l ev => step ev l) l schedule.

(** What the promise returned to a caller resolves to, once it has. *)
Definition received (l : Loop) (c : caller) : option (outcome Browser) :=
  match c with
  | HasBrowser b => Some (Returned b)
  | Follows p =>
      match launched (pool l) !! p with
      | Some (Settled o) => Some o
      | _ => None
      end
  | Awaits _ => None
  | Resumed o => Some o
  end.

(** The number of chromium.launch calls made so far. *)
Definition launches (l : Loop) : nat := length (launched (pool l)).

(** No live session and no launch in flight. *)
Definition cold (l : Loop) : Prop :=
  live_browser (pool l) = None /\ initPromise (pool l) = None.

(** [n] calls arrive while the launch is in flight, the launch settles,
    [m] more arrive before the first caller is resumed, then it is resumed. *)
Definition cold_start_schedule (l : Loop) (n m : nat) (o : outcome Browser) : list event :=
  replicate (Datatypes.S n) Enter
  ++ [Launch_settles (launches l) o]
  ++ replicate m Enter
  ++ [Resume (length (callers l))].

End Pool.

(** ** browser.ts: the page field of WegmansBrowser

    A site whose state shows the object's own field: [this_page] is
    [WegmansBrowser.page], set by getPage ([this.page = await
    context.newPage()]) and reset by closePage ([this.page = null]).  What
    Playwright and the remote site do stays open: [O] is their state. *)

Section Session.

Context {O : Type}.

Record PageDriver : Type := mkDriver {
  (** [browserPool.getContext('wegmans')] then [context.newPage()]: the new
      page, or the error *)
  create_page : O -> outcome nat * O;
  (** [page.isClosed()] *)
  isClosed : nat -> O -> bool;
  (** [ensureAuthenticated(page, credentials)] *)
  authenticate : nat -> O -> bool * O;
  (** [page.close()] *)
  close : nat -> O -> outcome unit * O
}.

Variable driver : PageDriver.

(** The rest of the site: the clock, saveContextState and the list.ts
    interactions (its own page fields are not used). *)
Variable rest : @Site O.

Record Session : Type := mkSession {
  this_page : option nat;
  outside : O
}.

Definition on_outside {A} (f : O -> A * O) (s : Session) : A * Session :=
  let (a, o) := f (outside s) in (a, mkSession (this_page s) o).

Definition session_page_ready (s : Session) : bool :=
  match this_page s with
  | Some p => negb (isClosed driver p (outside s))
  | None => false
  end.

Definition session_new_page (s : Session) : outcome unit * Session :=
  match create_page driver (outside s) with
  | (Returned p, o) => (Returned tt, mkSession (Some p) o)
  | (Thrown e, o) => (Thrown e, mkSession (this_page s) o)
  end.

Definition session_ensureAuthenticated (s : Session) : bool * Session :=
  match this_page s with
  | Some p => on_outside (authenticate driver p) s
  | None => (false, s)
  end.

(** closePage: [await this.page.close(); this.page = null] *)
Definition session_close_page (s : Session) : outcome unit * Session :=
  match this_page s with
  | Some p =>
      match close driver p (outside s) with
      | (Returned _, o) => (Returned tt, mkSession None o)
      | (Thrown e, o) => (Thrown e, mkSession (Some p) o)
      end
  | None => (Returned tt, s)
  end.

Definition session_site : @Site Session :=
  mkSite
    (fun s => now rest (outside s))
    session_page_ready
    session_new_page
    session_ensureAuthenticated
    (on_outside (saveContextState rest))
    session_close_page
    (on_outside (eval_list_items rest))
    (fun q => on_outside (eval_my_items rest q))
    (fun q => on_outside (eval_product_cards rest q))
    (fun q i => on_outside (run_addMyItemToList rest q i))
    (fun q i => on_outside (run_addSearchResultToList rest q i))
    (fun q => on_outside (run_removeItemFromList rest q))
    (on_outside (run_clearList rest)).

End Session.

(** ** db/sqlite.ts: sequences of operations on the grocery_items table *)

(** The calls that change the grocery_items table. *)
Inductive db_op : Type :=
  | OpAdd (name : string) (t : Z)
  | OpRemove (name : string)
  | OpClear.

Definition db_step (d : DB) (op : db_op) : DB :=
  match op with
  | OpAdd name t => (addGroceryItem name t d).2
  | OpRemove name => (removeGroceryItem name d).2
  | OpClear => (clearGroceryItems d).2
  end.

(** The table after a run of operations on a new database. *)
Definition db_after (ops : list db_op) : DB := foldl db_step empty_db ops.

(** How getGroceryItems orders two rows: the later [added_at] first. *)
Definition not_older (a b : GroceryItem) : Prop := (gi_addedAt b <= gi_addedAt a)%Z.

(** The rows stamped with the second [t]. *)
Definition added_at (t : Z) (row : GroceryItem) : bool := (gi_addedAt row =? t)%Z.

Definition is_add (op : db_op) : bool :=
  match op with OpAdd _ _ => true | _ => false end.

(** The number of addGroceryItem calls in a run. *)
Definition adds (ops : list db_op) : nat := length (List.filter is_add ops).

(** The ids that the addGroceryItem calls of a run return, in the order of
    the calls; the run starts on the table [d]. *)
Fixpoint issued_ids (d : DB) (ops : list db_op) : list Z :=
  match ops with
  | [] => []
  | OpAdd name t :: more =>
      gi_id (addGroceryItem name t d).1 :: issued_ids (db_step d (OpAdd name t)) more
  | op :: more => issued_ids (db_step d op) more
  end.

(** ** list.ts: the operations that click

    Inside [Site] each of these is one interaction that returns a boolean.
    Here is what the functions do with the page.  What Playwright answers to
    each call is data of the model: the handles a query returns, and for each
    later call on a handle whether it returns or throws.  The functions are
    the source's sequences of calls; the list of clicks they made is returned
    with the boolean. *)

Module ListPage.

Section OnThePage.

Context {js : JsString}.

(** One element matched by [SELECTORS.list.item]. *)
Record ListRow : Type := mkRow {
  row_has_name : outcome bool;             (* [item.$(SELECTORS.list.itemName)] found one *)
  row_text : outcome (option string);      (* [nameEl.textContent()] *)
  row_has_remove : outcome bool;           (* [item.$(SELECTORS.list.removeButton)] found one *)
  row_click_remove : outcome unit;         (* [removeBtn.click()] *)
  row_wait : outcome unit                  (* [page.waitForTimeout(1000)] *)
}.

(** [name?.toLowerCase().includes(itemName.toLowerCase())] *)
Definition text_matches (itemName : string) (text : option string) : bool :=
  match text with
  | Some name => includes (toLowerCase name) (toLowerCase itemName)
  | None => false
  end.

(** The for loop of removeItemFromList from row number [idx] on: what the
    try block evaluates to, and the rows whose remove button was clicked. *)
Fixpoint remove_from (itemName : string) (idx : nat) (rows : list ListRow)
  : outcome bool * list nat :=
  match rows with
  | [] => (Returned false, [])
  | row :: more =>
      match row_has_name row with
      | Thrown e => (Thrown e, [])
      | Returned false => remove_from itemName (Datatypes.S idx) more
      | Returned true =>
          match row_text row with
          | Thrown e => (Thrown e, [])
          | Returned text =>
              if text_matches itemName text then
                match row_has_remove row with
                | Thrown e => (Thrown e, [])
                | Returned false => remove_from itemName (Datatypes.S idx) more
                | Returned true =>
                    match row_click_remove row with
                    | Thrown e => (Thrown e, [])
                    | Returned _ =>
                        match row_wait row with
                        | Thrown e => (Thrown e, [idx])
                        | Returned _ => (Returned true, [idx])
                        end
                    end
                end
              else remove_from itemName (Datatypes.S idx) more
          end
      end
  end.

(** [catch (error) { ...; return false }] *)
Definition caught (r : outcome bool) : bool :=
  match r with
  | Returned b => b
  | Thrown _ => false
  end.

(** removeItemFromList; [items] is what [page.$$(SELECTORS.list.item)]
    answers once navigateToList has run (navigateToList catches its own
    errors and its result is not looked at). *)
Definition removeItemFromList (items : outcome (list ListRow)) (itemName : string)
  : bool * list nat :=
  match items with
  | Thrown _ => (false, [])
  | Returned rows =>
      let (r, clicked) := remove_from itemName 0 rows in (caught r, clicked)
  end.

(** A row the loop stops at: it has a name element, its text contains the
    item name (ignoring case) and it has a remove button. *)
Definition removable (itemName : string) (row : ListRow) : Prop :=
  row_has_name row = Returned true /\
  (exists text, row_text row = Returned text /\ text_matches itemName text = true) /\
  row_has_remove row = Returned true.

(** A row the loop passes over. *)
Definition passed_over (itemName : string) (row : ListRow) : Prop :=
  row_has_name row = Returned false \/
  (row_has_name row = Returned true /\
   exists text, row_text row = Returned text /\
     (text_matches itemName text = false \/ row_has_remove row = Returned false)).

(** Where [page.$(addToListButton)] finds its element: the first match of
    the whole page in document order, which can sit inside any product card
    or outside of them. *)
Inductive place : Type :=
  | InCard (index : nat)
  | Elsewhere.

(** One element matched by [SELECTORS.search.productCard], as
    addSearchResultToList uses it.  The last three fields are what the page
    answers once this card has been clicked. *)
Record Card : Type := mkCard {
  card_has_add : outcome bool;             (* [targetCard.$(addToListButton)] found one *)
  card_click_add : outcome unit;           (* [addButton.click()] on the card *)
  card_open : outcome unit;                (* [targetCard.click()] *)
  card_open_wait : outcome unit;           (* [page.waitForTimeout(1500)] *)
  page_add : outcome (option place);       (* [page.$(addToListButton)], on the whole page *)
  page_click_add : outcome unit;           (* [addButton.click()] on that element *)
  card_wait : outcome unit                 (* [page.waitForTimeout(2000)] *)
}.

Inductive click : Type :=
  | AddOnCard (resultIndex : nat)          (* the button found inside the card *)
  | OpenCard (resultIndex : nat)
  | AddOnPage (found : place).             (* the button found on the whole page *)

(** The try block of addSearchResultToList after [page.$$] answered. *)
Definition add_card (resultIndex : nat) (cards : list Card) : outcome bool * list click :=
  match cards !! resultIndex with
  | None => (Returned false, [])            (* [resultIndex >= productCards.length] *)
  | Some card =>
      match card_has_add card with
      | Thrown e => (Thrown e, [])
      | Returned true =>
          match card_click_add card with
          | Thrown e => (Thrown e, [])
          | Returned _ =>
              match card_wait card with
              | Thrown e => (Thrown e, [AddOnCard resultIndex])
              | Returned _ => (Returned true, [AddOnCard resultIndex])
              end
          end
      | Returned false =>
          match card_open card with
          | Thrown e => (Thrown e, [])
          | Returned _ =>
              match card_open_wait card with
              | Thrown e => (Thrown e, [OpenCard resultIndex])
              | Returned _ =>
                  match page_add card with
                  | Thrown e => (Thrown e, [OpenCard resultIndex])
                  | Returned None => (Returned false, [OpenCard resultIndex])
                  | Returned (Some found) =>
                      match page_click_add card with
                      | Thrown e => (Thrown e, [OpenCard resultIndex])
                      | Returned _ =>
                          match card_wait card with
                          | Thrown e =>
                              (Thrown e, [OpenCard resultIndex; AddOnPage found])
                          | Returned _ =>
                              (Returned true,
                               [OpenCard resultIndex; AddOnPage found])
                          end
                      end
                  end
              end
          end
      end
  end.

(** addSearchResultToList; [cards] is what [page.$$(productCard)] answers
    after the goto and the waitForSelector (or the error one of them
    throws). *)
Definition addSearchResultToList (cards : outcome (list Card)) (resultIndex : nat)
  : bool * list click :=
  match cards with
  | Thrown _ => (false, [])
  | Returned l => let (r, clicked) := add_card resultIndex l in (caught r, clicked)
  end.

(** One element matched by [SELECTORS.myItems.item], as addMyItemToList uses
    it. *)
Record MyItem : Type := mkMyItem {
  item_has_add : outcome bool;             (* [targetItem.$(addToListButton)] found one *)
  item_click_add : outcome unit;           (* [addButton.click()] *)
  item_wait : outcome unit                 (* [page.waitForTimeout(1500)] *)
}.

Definition add_item (resultIndex : nat) (items : list MyItem) : outcome bool * list nat :=
  match items !! resultIndex with
  | None => (Returned false, [])            (* [resultIndex >= items.length] *)
  | Some item =>
      match item_has_add item with
      | Thrown e => (Thrown e, [])
      | Returned false => (Returned false, [])
      | Returned true =>
          match item_click_add item with
          | Thrown e => (Thrown e, [])
          | Returned _ =>
              match item_wait item with
              | Thrown e => (Thrown e, [resultIndex])
              | Returned _ => (Returned true, [resultIndex])
              end
          end
      end
  end.

(** addMyItemToList; [items] is what [page.$$(SELECTORS.myItems.item)]
    answers after the goto and the search within My Items. *)
Definition addMyItemToList (items : outcome (list MyItem)) (resultIndex : nat)
  : bool * list nat :=
  match items with
  | Thrown _ => (false, [])
  | Returned l => let (r, clicked) := add_item resultIndex l in (caught r, clicked)
  end.

(** What clearList finds on the page. *)
Record ClearPage : Type := mkClearPage {
  has_clear_all : outcome bool;            (* [page.$(clearAllButton)] found one *)
  click_clear_all : outcome unit;          (* [clearButton.click()] *)
  has_confirm : outcome bool;              (* [page.$('button:has-text("Confirm"), ...')] *)
  click_confirm : outcome unit;            (* [confirmButton.click()] *)
  clear_wait : outcome unit;               (* [page.waitForTimeout(2000)] *)
  (* [page.$$(removeButton)]; per button [btn.click()] and [waitForTimeout(500)] *)
  remove_buttons : outcome (list (outcome unit * outcome unit))
}.

Inductive clear_click : Type :=
  | ClearAll
  | Confirm
  | RemoveButton (i : nat).

(** [for (const btn of removeButtons) { await btn.click(); await page.waitForTimeout(500); }] *)
Fixpoint click_each (idx : nat) (buttons : list (outcome unit * outcome unit))
  : outcome unit * list clear_click :=
  match buttons with
  | [] => (Returned tt, [])
  | (clicked, waited) :: more =>
      match clicked with
      | Thrown e => (Thrown e, [])
      | Returned _ =>
          match waited with
          | Thrown e => (Thrown e, [RemoveButton idx])
          | Returned _ =>
              let (r, l) := click_each (Datatypes.S idx) more in (r, RemoveButton idx :: l)
          end
      end
  end.

Definition clear_steps (page : ClearPage) : outcome bool * list clear_click :=
  match has_clear_all page with
  | Thrown e => (Thrown e, [])
  | Returned true =>
      match click_clear_all page with
      | Thrown e => (Thrown e, [])
      | Returned _ =>
          match has_confirm page with
          | Thrown e => (Thrown e, [ClearAll])
          | Returned true =>
              match click_confirm page with
              | Thrown e => (Thrown e, [ClearAll])
              | Returned _ =>
                  match clear_wait page with
                  | Thrown e => (Thrown e, [ClearAll; Confirm])
                  | Returned _ => (Returned true, [ClearAll; Confirm])
                  end
              end
          | Returned false =>
              match clear_wait page with
              | Thrown e => (Thrown e, [ClearAll])
              | Returned _ => (Returned true, [ClearAll])
              end
          end
      end
  | Returned false =>
      match remove_buttons page with
      | Thrown e => (Thrown e, [])
      | Returned buttons =>
          match click_each 0 buttons with
          | (Thrown e, l) => (Thrown e, l)
          | (Returned _, l) => (Returned true, l)
          end
      end
  end.

(** clearList, once navigateToList has run. *)
Definition clearList (page : ClearPage) : bool * list clear_click :=
  let (r, clicked) := clear_steps page in (caught r, clicked).

End OnThePage.

End ListPage.

(** ** llm/gemini.ts: GeminiService and its conversation history *)

Section Gemini.

Context {Args : Type}.

(** A part of a turn, as chat and continueWithFunctionResults look at it. *)
Inductive Part : Type :=
  | TextPart (s : string)                          (* [{ text }] *)
  | FunctionCallPart (name : string) (args : Args) (* [{ functionCall: { name, args } }] *)
  | FunctionResponsePart (name result : string)    (* [{ functionResponse: { name, response: { result } } }] *)
  | OtherPart.                                     (* neither [functionCall] nor [text] *)

Inductive Role : Type := user | model | function.

Record Content : Type := mkContent {
  role : Role;
  parts : list Part
}.

(** What [chat.sendMessage] resolves to: [candidates[0]?.content?.parts]
    when all of it is there, and what [response.text()] does. *)
Record Response : Type := mkSdkResponse {
  candidate_parts : option (list Part);
  response_text : outcome string
}.

(** [X] is the state of the model behind the SDK; [sendMessage x history
    message] stands for [getGenerativeModel], [startChat({ history })] and
    [chat.sendMessage(message)], which the source always calls together.
    [startChat] is handed the array itself, not a copy, and the chat session
    of the SDK keeps it as its own history; so the answer has a second
    component: what that array holds when the call has settled. *)
Context {X : Type}.
Variable sendMessage :
  X -> list Content -> string -> outcome Response * list Content * X.

Record Gemini : Type := mkGeminiState {
  conversationHistory : gmap string (list Content);
  backend : X
}.

(** [this.conversationHistory.get(userId) || []] *)
Definition history_of (g : Gemini) (userId : string) : list Content :=
  default [] (conversationHistory g !! userId).

(** [if (history.length > 40) history = history.slice(-40)] *)
Definition last_40 (history : list Content) : list Content :=
  if (40 <? length history)%nat then drop (length history - 40) history else history.

(** The function calls among the parts, in order. *)
Fixpoint function_calls_of (l : list Part) : list (@FunctionCall Args) :=
  match l with
  | [] => []
  | FunctionCallPart name args :: more => mkCall name args :: function_calls_of more
  | _ :: more => function_calls_of more
  end.

(** The parts chat keeps for the history: function calls and non-empty
    texts. *)
Definition kept_part (p : Part) : bool :=
  match p with
  | FunctionCallPart _ _ => true
  | TextPart s => negb (String.eqb s EmptyString)
  | _ => false
  end.

(** [{ text: text || undefined, functionCalls: functionCalls.length > 0 ? functionCalls : undefined }] *)
Definition llm_response (t : string) (calls : list (@FunctionCall Args)) : @LLMResponse Args :=
  mkResponse (if String.eqb t EmptyString then None else Some t)
             (match calls with [] => None | _ => Some calls end).

(** Whether the array handed to [startChat] is the one the Map holds for the
    user: there is an entry, and it was not replaced by its [slice(-40)]
    (which chat does to a history of more than 40 entries, and
    continueWithFunctionResults never). *)
Definition stored_array_handed (g : Gemini) (userId : string) (slices : bool) : bool :=
  match conversationHistory g !! userId with
  | Some history => negb (slices && (40 <? length history)%nat)
  | None => false
  end.

(** The service when [sendMessage] has settled and nothing was stored since:
    what the SDK left in the array is in the Map if the array is the Map's. *)
Definition after_sendMessage (g : Gemini) (userId : string) (slices : bool)
    (array : list Content) (x : X) : Gemini :=
  mkGeminiState
    (if stored_array_handed g userId slices
     then <[userId := array]> (conversationHistory g)
     else conversationHistory g)
    x.

Definition gemini_chat (userId message : string) (g : Gemini)
  : outcome (@LLMResponse Args) * Gemini :=
  let history := last_40 (history_of g userId) in
  match sendMessage (backend g) history message with
  | (Thrown e, array, x) => (Thrown e, after_sendMessage g userId true array x)
  | (Returned response, array, x) =>
      let history := array ++ [mkContent user [TextPart message]] in
      let response_parts := default [] (candidate_parts response) in
      let responseParts := List.filter kept_part response_parts in
      let history :=
        match responseParts with
        | [] => history
        | _ => history ++ [mkContent model responseParts]
        end in
      let g' := mkGeminiState (<[userId := history]> (conversationHistory g)) x in
      match response_text response with
      | Thrown e => (Thrown e, g')
      | Returned t => (Returned (llm_response t (function_calls_of response_parts)), g')
      end
  end.

Definition gemini_addFunctionResult (userId functionName result : string) (g : Gemini)
  : Gemini :=
  mkGeminiState
    (<[userId := history_of g userId
                 ++ [mkContent function [FunctionResponsePart functionName result]]]>
       (conversationHistory g))
    (backend g).

Definition gemini_continueWithFunctionResults (userId : string) (g : Gemini)
  : outcome (@LLMResponse Args) * Gemini :=
  let history := history_of g userId in
  match sendMessage (backend g) history EmptyString with
  | (Thrown e, array, x) => (Thrown e, after_sendMessage g userId false array x)
  | (Returned response, array, x) =>
      match response_text response with
      | Thrown e => (Thrown e, after_sendMessage g userId false array x)
      | Returned t =>
          match candidate_parts response with
          | Some l =>
              (Returned (llm_response t (function_calls_of l)),
               mkGeminiState
                 (<[userId := array ++ [mkContent model l]]> (conversationHistory g)) x)
          | None =>
              (Returned (llm_response t []), after_sendMessage g userId false array x)
          end
      end
  end.

(** What the chat session of the SDK does to the array it was handed, as far
    as the properties below need it: it only pushes, and at most [k]
    entries. *)
Definition sdk_pushes_at_most (k : nat) : Prop :=
  forall x history message o array x',
    sendMessage x history message = (o, array, x') ->
    exists pushed, array = history ++ pushed /\ (length pushed <= k)%nat.

(** It pushes the user's turn first when the request succeeds. *)
Definition sdk_records_the_user_turn : Prop :=
  forall x history message response array x',
    sendMessage x history message = (Returned response, array, x') ->
    exists more, array = history ++ mkContent user [TextPart message] :: more.

(** It leaves the array alone when the request fails. *)
Definition sdk_keeps_array_on_failure : Prop :=
  forall x history message e array x',
    sendMessage x history message = (Thrown e, array, x') -> array = history.

Definition gemini_clearHistory (userId : string) (g : Gemini) : Gemini :=
  mkGeminiState (delete userId (conversationHistory g)) (backend g).

(** The service as HansAgent uses it. *)
Definition gemini_service : @GeminiService Args Gemini :=
  mkGemini gemini_chat gemini_addFunctionResult gemini_continueWithFunctionResults.

End Gemini.

(** ** browser/pool.ts: contexts

    getContext, saveContextState, closeContext and close, each run to its end
    with no other caller and no 'disconnected' event in between (so
    [initPromise] is null when getBrowser is entered, and the Map changes
    only where the method itself writes it).  [P] is the state of Playwright
    and of the files under [statePath]. *)

Section Contexts.

Context {Browser BrowserContext P : Type}.

(** [browser.isConnected()] *)
Variable isConnected : Browser -> bool.

Record Playwright : Type := mkPlaywright {
  (** initBrowser: [chromium.launch(...)] and [browser.on('disconnected', ...)] *)
  launch : P -> outcome Browser * P;
  (** [browser.newContext({ storageState?, viewport, userAgent })] *)
  newContext : Browser -> option string -> P -> outcome BrowserContext * P;
  (** [context.storageState({ path })] *)
  storageState : BrowserContext -> string -> P -> outcome unit * P;
  (** [context.close()] *)
  context_close : BrowserContext -> P -> outcome unit * P;
  (** [browser.close()] *)
  browser_close : Browser -> P -> outcome unit * P
}.

Variable pw : Playwright.

(** What the pool did, in order. *)
Inductive pool_event : Type :=
  | Launched
  | ContextCreated (name : string) (fromSavedState : bool)
  | StateSaved (name : string)
  | ContextClosed (name : string)
  | BrowserClosed.

(** The fields of BrowserPool; [contexts] is the Map, in insertion order. *)
Record PoolObject : Type := mkPoolObject {
  pool_browser : option Browser;
  contexts : list (string * BrowserContext);
  statePath : string;
  playwright : P;
  happened : list pool_event
}.

Definition with_playwright (p : P) (o : PoolObject) : PoolObject :=
  mkPoolObject (pool_browser o) (contexts o) (statePath o) p (happened o).

Definition call_playwright {A} (f : P -> outcome A * P) : M PoolObject A :=
  fun o => let (r, p) := f (playwright o) in (r, with_playwright p o).

Definition note (ev : pool_event) : M PoolObject unit :=
  modify (fun o =>
    mkPoolObject (pool_browser o) (contexts o) (statePath o) (playwright o)
                 (happened o ++ [ev])).

(** [this.contexts.get(name)] *)
Fixpoint contexts_get (name : string) (l : list (string * BrowserContext))
  : option BrowserContext :=
  match l with
  | [] => None
  | (key, c) :: more => if String.eqb key name then Some c else contexts_get name more
  end.

(** [this.contexts.set(name, context)]: a present key keeps its place. *)
Fixpoint contexts_set (name : string) (c : BrowserContext)
    (l : list (string * BrowserContext)) : list (string * BrowserContext) :=
  match l with
  | [] => [(name, c)]
  | (key, c') :: more =>
      if String.eqb key name then (key, c) :: more
      else (key, c') :: contexts_set name c more
  end.

(** [this.contexts.delete(name)] *)
Definition contexts_delete (name : string) (l : list (string * BrowserContext))
  : list (string * BrowserContext) :=
  List.filter (fun kc => negb (String.eqb kc.1 name)) l.

Definition set_contexts (l : list (string * BrowserContext)) (o : PoolObject) : PoolObject :=
  mkPoolObject (pool_browser o) l (statePath o) (playwright o) (happened o).

Definition set_pool_browser (b : option Browser) (o : PoolObject) : PoolObject :=
  mkPoolObject b (contexts o) (statePath o) (playwright o) (happened o).

(** getBrowser with no launch in flight: the connected browser, or a launch
    whose result is stored in [this.browser]. *)
Definition getBrowser : M PoolObject Browser :=
  o <~ get_world ;
  match live_browser isConnected (mkPool (pool_browser o) None []) with
  | Some b => ret b
  | None =>
      b <~ call_playwright (launch pw) ;
      note Launched ;;
      modify (set_pool_browser (Some b)) ;;
      ret b
  end.

(** [`${this.config.statePath}/${name}`] *)
Definition storagePath (o : PoolObject) (name : string) : string :=
  statePath o +:+ "/" +:+ name.

Definition getContext (name : string) : M PoolObject BrowserContext :=
  o <~ get_world ;
  match contexts_get name (contexts o) with
  | Some existing => ret existing
  | None =>
      b <~ getBrowser ;
      context <~
        try_catch
          (c <~ call_playwright (newContext pw b (Some (storagePath o name))) ;
           note (ContextCreated name true) ;;
           ret c)
          (fun _ =>
             c <~ call_playwright (newContext pw b None) ;
             note (ContextCreated name false) ;;
             ret c) ;
      modify (fun o => set_contexts (contexts_set name context (contexts o)) o) ;;
      ret context
  end.

Definition saveContextState_of (name : string) : M PoolObject unit :=
  o <~ get_world ;
  match contexts_get name (contexts o) with
  | None => ret tt
  | Some context =>
      call_playwright (storageState pw context (storagePath o name)) ;;
      note (StateSaved name)
  end.

Definition closeContext (name : string) : M PoolObject unit :=
  o <~ get_world ;
  match contexts_get name (contexts o) with
  | Some context =>
      saveContextState_of name ;;
      call_playwright (context_close pw context) ;;
      note (ContextClosed name) ;;
      modify (fun o => set_contexts (contexts_delete name (contexts o)) o)
  | None => ret tt
  end.

(** [for (const name of this.contexts.keys()) await this.saveContextState(name)] *)
Fixpoint save_each (names : list string) : M PoolObject unit :=
  match names with
  | [] => ret tt
  | name :: more => saveContextState_of name ;; save_each more
  end.

(** [for (const context of this.contexts.values()) await context.close()] *)
Fixpoint close_each (l : list (string * BrowserContext)) : M PoolObject unit :=
  match l with
  | [] => ret tt
  | (name, context) :: more =>
      call_playwright (context_close pw context) ;;
      note (ContextClosed name) ;;
      close_each more
  end.

Definition close_pool : M PoolObject unit :=
  o <~ get_world ;
  save_each (map fst (contexts o)) ;;
  close_each (contexts o) ;;
  modify (set_contexts []) ;;
  o' <~ get_world ;
  match pool_browser o' with
  | Some b =>
      call_playwright (browser_close pw b) ;;
      note BrowserClosed ;;
      modify (set_pool_browser None)
  | None => ret tt
  end.

End Contexts.

(** ** actions/registry.ts

    A pattern is a regular expression, used only through
    [message.match(pattern)]: the match array, or null. *)

Section Registry.

Context {W Match Ctx : Type}.

Definition Pattern : Type := string -> option Match.

(** The Action interface; [Ctx] is what the caller of execute supplies (db,
    browserPool, config), to which execute adds the message and the match. *)
Record Action : Type := mkAction {
  action_name : string;
  action_description : string;
  patterns : list Pattern;
  action_execute : Ctx -> string -> Match -> M W ActionResult
}.

(** [this.actions] *)
Definition ActionRegistry : Type := list Action.

Definition register (action : Action) (r : ActionRegistry) : ActionRegistry :=
  r ++ [action].

(** The inner loop of findAction, over the patterns of one action. *)
Fixpoint first_pattern (ps : list Pattern) (text : string) : option Match :=
  match ps with
  | [] => None
  | pattern :: more =>
      match pattern text with
      | Some m => Some m
      | None => first_pattern more text
      end
  end.

Fixpoint findAction (r : ActionRegistry) (text : string) : option (Action * Match) :=
  match r with
  | [] => None
  | action :: more =>
      match first_pattern (patterns action) text with
      | Some m => Some (action, m)
      | None => findAction more text
      end
  end.

Definition getHelpMessage (r : ActionRegistry) : string :=
  join newline
    (["Available commands:"; EmptyString] ++
     map (fun action =>
            "*" +:+ action_name action +:+ "*: " +:+ action_description action) r).

Definition registry_execute (r : ActionRegistry) (text : string) (context : Ctx)
  : M W ActionResult :=
  match findAction r text with
  | None => ret (mkResult false (getHelpMessage r) None)
  | Some (action, m) =>
      try_catch (action_execute action context text m)
        (fun error =>
           ret (mkResult false
                  ("Error executing " +:+ action_name action +:+ ": "
                   +:+ error_message error) None))
  end.

(** No pattern of the action matches the text. *)
Definition matches_nothing (text : string) (action : Action) : Prop :=
  Forall (fun pattern : Pattern => pattern text = None) (patterns action).

End Registry.

(** ** whatsapp/messageHandler.ts: the 'message' listener *)

Section MessageHandler.

Context {js : JsString}.

(** [A]: the agent with its conversations, and the chat the replies go to. *)
Context {A : Type}.

(** [String.prototype.trim] *)
Variable trim : string -> string.

Record Message : Type := mkMessage {
  msg_from : string;
  msg_body : option string
}.

Record Endpoints : Type := mkEndpoints {
  (** [agent.clearContext(userId)] *)
  clearContext : string -> A -> outcome unit * A;
  (** [agent.handleMessage(userId, message)] *)
  agent_handleMessage : string -> string -> A -> outcome string * A;
  (** [message.reply(text)] *)
  reply : string -> A -> outcome unit * A
}.

Variable chat : Endpoints.

(** What the listener asked of the agent and of the chat, in the order the
    calls were started. *)
Inductive handler_event : Type :=
  | ContextCleared (userId : string)
  | AgentAsked (userId text : string)
  | ReplyTried (text : string).

Record HandlerWorld : Type := mkHandlerWorld {
  chat_state : A;
  handled : list handler_event
}.

Definition handler_call {B} (ev : handler_event) (f : A -> outcome B * A)
  : M HandlerWorld B :=
  fun w =>
    let (r, a) := f (chat_state w) in
    (r, mkHandlerWorld a (handled w ++ [ev])).

Definition try_reply (text : string) : M HandlerWorld unit :=
  handler_call (ReplyTried text) (reply chat text).

Definition apology : string := "Sorry, something went wrong. Please try again.".

Definition on_message (ownerPhoneNumber : string) (m : Message) : M HandlerWorld unit :=
  if negb (String.eqb (msg_from m) ownerPhoneNumber) then ret tt
  else if includes (msg_from m) "@g.us" then ret tt
  else if negb (truthy (msg_body m))
          || negb (truthy (option_map trim (msg_body m))) then ret tt
  else
    let userMessage := trim (or_else (msg_body m) EmptyString) in
    try_catch
      (if String.eqb (toLowerCase userMessage) "/reset" then
         handler_call (ContextCleared (msg_from m)) (clearContext chat (msg_from m)) ;;
         try_reply "Context cleared! Let's start fresh."
       else
         response <~ handler_call (AgentAsked (msg_from m) userMessage)
                       (agent_handleMessage chat (msg_from m) userMessage) ;
         try_reply response)
      (fun _ => try_catch (try_reply apology) (fun _ => ret tt)).

Definition is_reply (ev : handler_event) : bool :=
  match ev with ReplyTried _ => true | _ => false end.

(** The user an agent request was made for. *)
Definition served (ev : handler_event) : option string :=
  match ev with
  | ContextCleared userId | AgentAsked userId _ => Some userId
  | ReplyTried _ => None
  end.

End MessageHandler.

(** ** actions/wegmans/auth.ts *)

Section Auth.

(** [E]: the browser page and the site behind it. *)
Context {E : Type}.

Inductive auth_selector : Type :=
  | login_emailInput
  | login_passwordInput
  | login_submitButton
  | nav_accountMenu
  | list_container
  | common_errorMessage.

Definition URLS_login : string := "https://www.wegmans.com/sign-in/".
Definition URLS_shoppingList : string := "https://www.wegmans.com/shopping-list/".

Record AuthPage : Type := mkAuthPage {
  goto : string -> E -> outcome unit * E;
  (** [page.url()] *)
  page_url : E -> string;
  (** [page.$(selector)]: whether an element was found *)
  page_query : auth_selector -> E -> outcome bool * E;
  waitForSelector : auth_selector -> E -> outcome unit * E;
  page_fill : auth_selector -> string -> E -> outcome unit * E;
  page_click : auth_selector -> E -> outcome unit * E;
  waitForNavigation : E -> outcome unit * E;
  (** [errorEl.textContent()], which is only logged *)
  error_textContent : E -> outcome unit * E
}.

Record AuthCredentials : Type := mkCredentials {
  email : string;
  password : string
}.

Variable page : AuthPage.

Definition on_login_page (e : E) : bool :=
  includes (page_url page e) "sign-in" || includes (page_url page e) "login".

Definition isLoggedIn : M E bool :=
  try_catch
    (goto page URLS_shoppingList ;;
     e <~ get_world ;
     if on_login_page e then ret false
     else
       accountMenu <~ page_query page nav_accountMenu ;
       if accountMenu then ret true
       else
         listContainer <~ page_query page list_container ;
         if listContainer then ret true else ret false)
    (fun _ => ret false).

Definition login (credentials : AuthCredentials) : M E bool :=
  try_catch
    (goto page URLS_login ;;
     waitForSelector page login_emailInput ;;
     page_fill page login_emailInput (email credentials) ;;
     page_fill page login_passwordInput (password credentials) ;;
     page_click page login_submitButton ;;
     waitForNavigation page ;;
     e <~ get_world ;
     if on_login_page e then
       errorEl <~ page_query page common_errorMessage ;
       if errorEl then error_textContent page ;; ret false
       else ret false
     else ret true)
    (fun _ => ret false).

Definition auth_ensureAuthenticated (credentials : AuthCredentials) : M E bool :=
  loggedIn <~ isLoggedIn ;
  if loggedIn then ret true else login credentials.

End Auth.

(** ** Worked examples

    The strings of the examples are ASCII strings, on which
    [String.prototype.toLowerCase] is [LOWER]. *)

#[export] Instance ascii_strings : JsString := {| toLowerCase := LOWER |}.

(** ** A scripted site for worked examples

    The state of the outside is a script: what each interaction answers.
    Nothing in it changes as the handlers run. *)

Record Script : Type := mkScript {
  script_clock : Z;
  script_authenticated : bool;
  script_my_items : outcome (list Element);
  script_product_cards : outcome (option (list Element));
  script_list_items : outcome (list Element);
  script_add_succeeds : bool;
  script_remove_succeeds : bool;
  script_clear_succeeds : bool
}.

Definition scripted_site : @Site Script :=
  mkSite
    script_clock
    (fun _ => false)
    (fun e => (Returned tt, e))
    (fun e => (script_authenticated e, e))
    (fun e => (Returned tt, e))
    (fun e => (Returned tt, e))
    (fun e => (script_list_items e, e))
    (fun _ e => (script_my_items e, e))
    (fun _ e => (script_product_cards e, e))
    (fun _ _ e => (script_add_succeeds e, e))
    (fun _ _ e => (script_add_succeeds e, e))
    (fun _ e => (script_remove_succeeds e, e))
    (fun e => (script_clear_succeeds e, e)).

Definition named (name : string) : Element := mkElement (Some name) None None.

(** Past purchases hold two kinds of milk; every remote step succeeds. *)
Definition milk_script : Script :=
  mkScript 1000 true
    (Returned [named "Wegmans 2% Milk"; named "Wegmans Whole Milk"])
    (Returned None)
    (Returned [])
    true true true.

Definition fresh_world (e : Script) : @World Script := mkWorld ∅ empty_db e [].

(** The world after [add milk] against [milk_script]: a two-option menu is
    pending. *)
Definition milk_menu : PendingSelection :=
  mkPending "milk"
    [mkSearchResult "Wegmans 2% Milk" None None 0;
     mkSearchResult "Wegmans Whole Milk" None None 1]
    myItems 1000.

Definition world_with_milk_menu : @World Script :=
  mkWorld {[ "default" := milk_menu ]} empty_db milk_script [CallSearchMyItems "milk"].

(** *** list() when the fetch fails inside getListItems *)

(** The page is gone when [page.$$eval] runs; one item is in the local
    table. *)
Definition closed_page_script : Script :=
  mkScript 1000 true (Returned []) (Returned None)
    (Thrown (Error "page.$$eval: Target page, context or browser has been closed"))
    true true true.

Definition world_with_cached_milk : @World Script :=
  mkWorld ∅ (mkDB [mkGroceryItem 1 "Cached Milk" 900 false] 1) closed_page_script [].

(** *** add(item) when the remote add of an exact match reports failure *)

Definition add_fails_script : Script :=
  mkScript 1000 true (Returned [named "Milk"]) (Returned None) (Returned [])
    false true true.

(** *** Two callers *)

Definition pantry_script : Script :=
  mkScript 1000 true
    (Returned [named "Wegmans 2% Milk"; named "Wegmans Whole Milk";
               named "Wegmans Large Eggs"; named "Wegmans Brown Eggs"])
    (Returned None) (Returned []) true true true.

Definition after_first_user_adds_milk : @World Script :=
  (execute scripted_site (Add "milk") (fresh_world pantry_script)).2.

Definition after_second_user_adds_eggs : @World Script :=
  (execute scripted_site (Add "eggs") after_first_user_adds_milk).2.

(** The adversarial service of the specification: every answer, the first
    one and every continuation, requests another tool call and carries no
    text.  handleMessage asks for exactly five continuations and closes with
    "Done!". *)
Definition insisting_response : @LLMResponse unit :=
  mkResponse None (Some [mkCall "show_grocery_list" tt]).

Definition insisting_service : @GeminiService unit unit :=
  mkGemini
    (fun _ _ g => (Returned insisting_response, g))
    (fun _ _ _ g => g)
    (fun _ g => (Returned insisting_response, g)).

Definition count_tool_runs (call : @FunctionCall unit) (userId : string) (runs : nat)
  : string * nat :=
  ("Your shopping list is empty", Datatypes.S runs).

(** The catalog shows exactly one product card. *)
Definition oat_milk_script : Script :=
  mkScript 1000 true (Returned [])
    (Returned (Some [mkElement (Some "Oatly Oat Milk") (Some "$5.49") None]))
    (Returned []) true true true.

(** The remote clear reports failure; two items are in the local table. *)
Definition clear_fails_script : Script :=
  mkScript 1000 true (Returned []) (Returned None) (Returned []) true true false.

Definition world_with_two_local_items : @World Script :=
  mkWorld ∅
    (mkDB [mkGroceryItem 1 "Milk" 800 false; mkGroceryItem 2 "Eggs" 900 false] 2)
    clear_fails_script [].

(** *** A menu that has outlived its five minutes *)

(** [milk_script] read 300001 ms after [milk_menu] was stored. *)
Definition late_script : Script :=
  mkScript 301001 true
    (Returned [named "Wegmans 2% Milk"; named "Wegmans Whole Milk"])
    (Returned None)
    (Returned [])
    true true true.

Definition world_with_stale_menu : @World Script :=
  mkWorld {[ "default" := milk_menu ]} empty_db late_script [CallSearchMyItems "milk"].

(** *** The login is refused *)

Definition locked_out_script : Script :=
  mkScript 1000 false (Returned []) (Returned None) (Returned []) true true true.

(** *** The page is open, the browser state cannot be written *)

Definition unsaved_site : @Site Script :=
  mkSite
    (now scripted_site)
    (fun _ => true)
    (new_page scripted_site)
    (ensureAuthenticated scripted_site)
    (fun e => (Thrown (Error "ENOSPC: no space left on device"), e))
    (close_page scripted_site)
    (eval_list_items scripted_site)
    (eval_my_items scripted_site)
    (eval_product_cards scripted_site)
    (run_addMyItemToList scripted_site)
    (run_addSearchResultToList scripted_site)
    (run_removeItemFromList scripted_site)
    (run_clearList scripted_site).

Definition world_before_clear : @World Script :=
  mkWorld ∅
    (mkDB [mkGroceryItem 1 "Milk" 800 false; mkGroceryItem 2 "Eggs" 900 false] 2)
    milk_script [].

(** *** A browser whose pages stay open *)

(** Every new page is page 1; no page is ever found closed; the login
    answers what the script says. *)
Definition steady_driver : @PageDriver Script :=
  mkDriver
    (fun o => (Returned 1%nat, o))
    (fun _ _ => false)
    (fun _ o => (script_authenticated o, o))
    (fun _ o => (Returned tt, o)).

Definition session_world (page : option nat) (e : Script) : @World (@Session Script) :=
  mkWorld ∅ empty_db (mkSession page e) [].

(** *** A list page with three remove buttons, the second of them detached *)

Definition three_buttons : list (outcome unit * outcome unit) :=
  [(Returned tt, Returned tt);
   (Thrown (Error "elementHandle.click: Element is not attached to the DOM"), Returned tt);
   (Returned tt, Returned tt)].

Definition three_buttons_page : ListPage.ClearPage :=
  ListPage.mkClearPage (Returned false) (Returned tt) (Returned false) (Returned tt)
    (Returned tt) (Returned three_buttons).

(** *** Two conversations *)

(** A model that answers every request with the text "ok"; the chat session
    pushes the user's turn and the answer into the array it was handed. *)
Definition agreeable_model (x : unit) (history : list (@Content unit)) (text : string)
  : outcome (@Response unit) * list (@Content unit) * unit :=
  (Returned (mkSdkResponse (Some [TextPart "ok"]) (Returned "ok")),
   history ++ [mkContent user [TextPart text]; mkContent model [TextPart "ok"]],
   x).

Definition bobs_history : list (@Content unit) :=
  [mkContent user [TextPart "add milk"]; mkContent model [TextPart "Added milk"]].

Definition world_with_bobs_history : @AgentWorld unit (@Gemini unit unit) nat :=
  mkAgentWorld (mkGeminiState {[ "bob" := bobs_history ]} tt) 0%nat [].

(** *** A pool with a browser and no saved state *)

(** Playwright over the set of state files that exist: a context is hydrated
    only from a file that is there. *)
Definition playwright_with_files : @Playwright nat nat (list string) :=
  mkPlaywright
    (fun files => (Returned 7%nat, files))
    (fun _ state files =>
       match state with
       | Some path =>
           if existsb (String.eqb path) files then (Returned 2%nat, files)
           else (Thrown (Error "ENOENT: no such file or directory"), files)
       | None => (Returned 1%nat, files)
       end)
    (fun _ path files => (Returned tt, path :: files))
    (fun _ files => (Returned tt, files))
    (fun _ files => (Returned tt, files)).

Definition warm_pool : @PoolObject nat nat (list string) :=
  mkPoolObject (Some 7%nat) [] "/data/browser-state" [] [].

(** * Properties *)

Section WegmansProperties.

Context {js : JsString} {E : Type} (S : @Site E).

Lemma same_store_refl (w : @World E) : same_store w w.
Proof. by split. Qed.

Lemma same_store_trans (w1 w2 w3 : @World E) :
  same_store w1 w2 -> same_store w2 w3 -> same_store w1 w3.
Proof. intros [? ?] [? ?]; split; congruence. Qed.

Lemma quiet_interact {A} (f : E -> outcome A * E) : quiet (interact f).
Proof. intros w. unfold interact. destruct (f (site w)); simpl. by repeat split. Qed.

Lemma quiet_getPage : quiet (getPage S).
Proof.
  intros w. unfold getPage, bind, get_world, ret, throw, interact, interact_total.
  destruct (page_ready S (site w)); simpl; [by repeat split|].
  destruct (new_page S (site w)) as [[[]|e] s1]; simpl; [|by repeat split].
  destruct (ensureAuthenticated S s1) as [[] s2]; simpl; [|by repeat split].
  destruct (saveContextState S s2) as [[[]|e] s3]; simpl; by repeat split.
Qed.

Lemma quiet_closePage : quiet (closePage S).
Proof.
  intros w. unfold closePage, bind, get_world, ret, interact.
  destruct (page_ready S (site w)); simpl; [|by repeat split].
  destruct (close_page S (site w)) as [[[]|e] s1]; simpl; by repeat split.
Qed.

Lemma page_operation_total {A} (c : remote_call) (f : E -> A * E) :
  page_operation c (record c ;; interact_total f).
Proof.
  intros w. unfold bind, record, modify, interact_total; simpl.
  destruct (f (site w)) as [a s1]; simpl. eexists _, _. by repeat split.
Qed.

Lemma page_operation_addMyItemToList q i :
  page_operation (CallAddMyItemToList q i) (addMyItemToList S q i).
Proof. apply page_operation_total. Qed.

Lemma page_operation_addSearchResultToList q i :
  page_operation (CallAddSearchResultToList q i) (addSearchResultToList S q i).
Proof. apply page_operation_total. Qed.

Lemma page_operation_removeItemFromList q :
  page_operation (CallRemoveItemFromList q) (removeItemFromList S q).
Proof. apply page_operation_total. Qed.

Lemma page_operation_clearList : page_operation CallClearList (clearList S).
Proof. apply page_operation_total. Qed.

Lemma page_operation_getListItems : page_operation CallGetListItems (getListItems S).
Proof.
  intros w. unfold getListItems, bind, try_catch, record, modify, interact, ret; simpl.
  destruct (eval_list_items S (site w)) as [[els|e] s1]; simpl;
    eexists _, _; by repeat split.
Qed.

Lemma page_operation_searchMyItems q :
  page_operation (CallSearchMyItems q) (searchMyItems S q).
Proof.
  intros w. unfold searchMyItems, bind, try_catch, record, modify, interact, ret; simpl.
  destruct (eval_my_items S q (site w)) as [[els|e] s1]; simpl;
    eexists _, _; by repeat split.
Qed.

Lemma page_operation_searchProducts q :
  page_operation (CallSearchProducts q) (searchProducts S q).
Proof.
  intros w. unfold searchProducts, bind, try_catch, record, modify, interact, ret; simpl.
  destruct (eval_product_cards S q (site w)) as [[[els|]|e] s1]; simpl;
    eexists _, _; by repeat split.
Qed.

Lemma page_operation_resolution pending selectedItem :
  page_operation (resolution_call pending selectedItem) (resolution S pending selectedItem).
Proof.
  unfold resolution, resolution_call. destruct (ps_source pending);
    [apply page_operation_addMyItemToList|apply page_operation_addSearchResultToList].
Qed.

(** What [withPage] adds around an operation: the stores are kept; when it
    returns, the operation ran; when it throws, the operation ran or the page
    could not be acquired. *)
Lemma withPage_operation {A} (c : remote_call) (op : M World A) (w : World) :
  page_operation c op ->
  match withPage S op w with
  | (Returned _, w') => same_store w w' /\ calls w' = calls w ++ [c]
  | (Thrown _, w') =>
      same_store w w' /\ (calls w' = calls w \/ calls w' = calls w ++ [c])
  end.
Proof.
  intros Hop. unfold withPage, bind, try_catch, ret, throw.
  destruct (quiet_getPage w) as [Hs0 Hc0].
  destruct (getPage S w) as [[[]|e0] w0]; simpl in *; [|by split; [|left]].
  destruct (Hop w0) as (a & w1 & -> & Hs1 & Hc1).
  pose proof (quiet_interact (saveContextState S) w1) as [Hs2 Hc2].
  destruct (interact (saveContextState S) w1) as [[[]|e2] w2]; simpl in *.
  - split; [eauto using same_store_trans|congruence].
  - destruct (quiet_closePage w2) as [Hs3 Hc3].
    destruct (closePage S w2) as [[[]|e3] w3]; simpl in *;
      (split; [eauto using same_store_trans|right; congruence]).
Qed.

Lemma execute_after_cleanup (c : command) (w : World) :
  execute S c w =
  match c with
  | Pick selection => handleSelection S (Z.of_nat selection)
  | Add item => handleAdd S item
  | Search item => handleSearch S item
  | Remove item => handleRemove S item
  | ShowList => handleList S
  | ClearListCmd => handleClear S
  | Unknown => ret (failure "Unknown Wegmans command")
  end (after_cleanup S w).
Proof. reflexivity. Qed.

Lemma after_cleanup_lookup (w : World) (key : string) :
  pendingSelections (after_cleanup S w) !! key =
  match pendingSelections w !! key with
  | Some p => if expired (now S (site w)) p then None else Some p
  | None => None
  end.
Proof.
  unfold after_cleanup, cleanupPendingSelections, modify; simpl.
  destruct (pendingSelections w !! key) as [p|] eqn:Hp.
  - destruct (expired (now S (site w)) p) eqn:Hx.
    + apply map_lookup_filter_None. right. intros p' Hp' Hk. simpl in Hk. congruence.
    + apply map_lookup_filter_Some. by split.
  - apply map_lookup_filter_None. by left.
Qed.

Lemma handleSelection_no_pending (selection : Z) (w : World) :
  pendingSelections w !! "default" = None ->
  handleSelection S selection w = (Returned (failure no_pending_message), w).
Proof. intros H. unfold handleSelection, bind, get_world. by rewrite H. Qed.

Lemma handleSelection_out_of_range (n : nat) (w : World) pending :
  pendingSelections w !! "default" = Some pending ->
  ~ (1 <= n <= length (ps_results pending))%nat ->
  handleSelection S (Z.of_nat n) w
  = (Returned (failure (range_message (length (ps_results pending)))), w).
Proof.
  intros H Hn. unfold handleSelection, bind, get_world. rewrite H.
  destruct (_ || _) eqn:Hc; [done|].
  apply orb_false_elim in Hc as [H1 H2].
  apply Z.ltb_ge in H1. apply Z.leb_gt in H2. lia.
Qed.

Lemma handleSelection_in_range (n : nat) (w : World) pending :
  pendingSelections w !! "default" = Some pending ->
  (1 <= n <= length (ps_results pending))%nat ->
  exists selectedItem,
    ps_results pending !! (n - 1)%nat = Some selectedItem /\
    handleSelection S (Z.of_nat n) w =
    after_resolution S selectedItem (withPage S (resolution S pending selectedItem) w).
Proof.
  intros H Hn.
  destruct (lookup_lt_is_Some_2 (ps_results pending) (n - 1)%nat) as [item Hitem]; [lia|].
  exists item. split; [done|].
  unfold handleSelection, bind, get_world. rewrite H.
  destruct (_ || _) eqn:Hc.
  { apply orb_true_iff in Hc as [H1|H2];
      [apply Z.ltb_lt in H1|apply Z.leb_le in H2]; lia. }
  replace (Z.to_nat (Z.of_nat n - 1)) with (n - 1)%nat by lia.
  rewrite Hitem. unfold try_catch, bind, resolution, after_resolution.
  destruct (ps_source pending);
    match goal with
    | |- context [withPage S ?op w] => destruct (withPage S op w) as [[[]|e] w1]
    end; reflexivity.
Qed.

(** Case analysis on the next [withPage] call of the goal. *)
Ltac next_withPage :=
  match goal with
  | |- context [withPage ?S' ?op ?w] =>
      let a := fresh "a" in let e := fresh "error" in let w1 := fresh "w" in
      let H := fresh "Hpage" in
      destruct (withPage S' op w) as [[a|e] w1] eqn:H
  end.

Lemma catalog_steps_protocol (item : string) (w : World) :
  try_catch
    (searchResults <~ withPage S (searchProducts S item) ;
     resolve_catalog_results S item searchResults)
    (fun error => ret (failure (search_failed_message item error))) w
  = catalog_protocol S item w.
Proof.
  unfold catalog_protocol, try_catch, bind.
  next_withPage; [|reflexivity].
  destruct a as [|only [|second more]]; try reflexivity.
  unfold resolve_catalog_results, bind; simpl.
  next_withPage; [destruct a|]; reflexivity.
Qed.

Lemma handleSearch_protocol (item : string) (w : World) :
  handleSearch S item w = catalog_protocol S item w.
Proof. apply catalog_steps_protocol. Qed.

Lemma handleAdd_protocol (item : string) (w : World) :
  handleAdd S item w = add_protocol S item w.
Proof.
  unfold add_protocol.
  destruct (withPage S (searchMyItems S item) w) as [[cache|error] w1] eqn:Hcache.
  - destruct cache as [|first more].
    + rewrite <- catalog_steps_protocol.
      unfold handleAdd, try_catch, bind. rewrite Hcache. reflexivity.
    + unfold handleAdd, try_catch, bind. rewrite Hcache.
      change (0 <? length (first :: more))%nat with true. cbv iota.
      destruct (List.find (is_exact_match item) (first :: more)) as [exactMatch|];
        [|reflexivity].
      next_withPage; [destruct a|]; reflexivity.
  - unfold handleAdd, try_catch, bind. rewrite Hcache. reflexivity.
Qed.

Lemma handleRemove_cases (item : string) (w : World) :
  handleRemove S item w =
  match withPage S (removeItemFromList S item) w with
  | (Returned true, w1) =>
      (Returned (succeeded ("Removed " +:+ quoted item +:+ " from your list")),
       set_db (removeGroceryItem item (db w1)).2 w1)
  | (Returned false, w1) =>
      Failed ("Couldn't find " +:+ quoted item +:+ " in your list") w1
  | (Thrown error, w1) =>
      Failed ("Failed to remove " +:+ quoted item +:+ ": " +:+ error_message error) w1
  end.
Proof.
  unfold handleRemove, try_catch, bind. next_withPage; [destruct a|]; reflexivity.
Qed.

Lemma handleClear_cases (w : World) :
  handleClear S w =
  match withPage S (clearList S) w with
  | (Returned true, w1) =>
      (Returned (succeeded ("Cleared your shopping list ("
                              +:+ pretty (length (grocery_items (db w1)))
                              +:+ " items removed)")),
       set_db (mkDB [] (last_id (db w1))) w1)
  | (Returned false, w1) => Failed "Failed to clear the list" w1
  | (Thrown error, w1) => Failed ("Failed to clear list: " +:+ error_message error) w1
  end.
Proof.
  unfold handleClear, try_catch, bind. next_withPage; [destruct a|]; reflexivity.
Qed.

Lemma handleList_cases (w : World) :
  handleList S w =
  match withPage S (getListItems S) w with
  | (Returned [], w1) => (Returned (succeeded "Your shopping list is empty"), w1)
  | (Returned items, w1) =>
      (Returned (mkResult true
                   (list_header (length items) +:+ join newline (imap list_line items))
                   (Some (DataListItems items))), w1)
  | (Thrown error, w1) =>
      match getGroceryItems (db w1) with
      | [] => Failed ("Failed to get list: " +:+ error_message error) w1
      | cachedItems =>
          (Returned (mkResult true
                       ("(Cached) " +:+ list_header (length cachedItems)
                          +:+ join newline (imap cached_line cachedItems))
                       (Some (DataGroceryItems cachedItems))), w1)
      end
  end.
Proof.
  unfold handleList, try_catch, bind. next_withPage.
  - destruct a; reflexivity.
  - unfold get_world. destruct (getGroceryItems (db w0)); reflexivity.
Qed.

Create HintDb page_ops discriminated.

Hint Resolve page_operation_addMyItemToList page_operation_addSearchResultToList
  page_operation_removeItemFromList page_operation_clearList
  page_operation_getListItems page_operation_searchMyItems
  page_operation_searchProducts page_operation_resolution : page_ops.

Lemma withPage_same_store {A} (c : remote_call) (op : M World A) w o w' :
  page_operation c op -> withPage S op w = (o, w') -> same_store w w'.
Proof.
  intros Hop Hrun. pose proof (withPage_operation c op w Hop) as H.
  rewrite Hrun in H. destruct o; tauto.
Qed.

(** A value [withPage] returns is a value the operation returned. *)
Lemma withPage_returned {A} (op : M World A) w a w' :
  withPage S op w = (Returned a, w') -> exists w0 w1, op w0 = (Returned a, w1).
Proof.
  unfold withPage, bind, try_catch, ret, throw.
  destruct (getPage S w) as [[[]|e0] w0]; [|discriminate].
  destruct (op w0) as [[a1|e1] w1] eqn:Hop.
  - destruct (interact (saveContextState S) w1) as [[[]|e2] w2].
    + intros [= <- <-]. eauto.
    + destruct (closePage S w2) as [[[]|e3] w3]; discriminate.
  - destruct (closePage S w1) as [[[]|e3] w3]; discriminate.
Qed.

Lemma searchMyItems_first_five (q : string) (w : World) :
  exists l w', searchMyItems S q w = (Returned l, w') /\
    (length l <= 5)%nat /\
    match eval_my_items S q (site w) with
    | (Returned elements, _) =>
        l = take 5 (List.filter (name_matches q) (imap my_item_of elements))
    | (Thrown _, _) => l = []
    end.
Proof.
  unfold searchMyItems, bind, try_catch, record, modify, interact, ret; simpl.
  destruct (eval_my_items S q (site w)) as [[els|e] s1]; simpl; eexists _, _;
    (split; [reflexivity|split; [|reflexivity]]).
  - rewrite length_take. lia.
  - simpl. lia.
Qed.

Lemma searchProducts_first_five (q : string) (w : World) :
  exists l w', searchProducts S q w = (Returned l, w') /\
    (length l <= 5)%nat /\
    match eval_product_cards S q (site w) with
    | (Returned (Some elements), _) => l = imap product_of (take 5 elements)
    | (Returned None, _) => l = []
    | (Thrown _, _) => l = []
    end.
Proof.
  unfold searchProducts, bind, try_catch, record, modify, interact, ret; simpl.
  destruct (eval_product_cards S q (site w)) as [[[els|]|e] s1]; simpl; eexists _, _;
    (split; [reflexivity|split; [|reflexivity]]).
  - rewrite length_imap, length_take. lia.
  - simpl. lia.
  - simpl. lia.
Qed.

Lemma withPage_searchMyItems_short q w l w' :
  withPage S (searchMyItems S q) w = (Returned l, w') -> (length l <= 5)%nat.
Proof.
  intros (w0 & w1 & Hop)%withPage_returned.
  destruct (searchMyItems_first_five q w0) as (l' & w2 & Heq & Hlen & _). congruence.
Qed.

Lemma withPage_searchProducts_short q w l w' :
  withPage S (searchProducts S q) w = (Returned l, w') -> (length l <= 5)%nat.
Proof.
  intros (w0 & w1 & Hop)%withPage_returned.
  destruct (searchProducts_first_five q w0) as (l' & w2 & Heq & Hlen & _). congruence.
Qed.

(** [next_withPage], keeping the fact that the stores are unchanged. *)
Ltac page_step :=
  next_withPage;
  match goal with
  | H : withPage _ ?op ?w = (_, ?w') |- _ =>
      lazymatch goal with
      | _ : same_store w w' |- _ => fail
      | _ => assert (same_store w w')
               by (eapply withPage_same_store; [|exact H]; eauto with page_ops)
      end
  end.

Ltac use_stores :=
  unfold Resolved, Disambiguating, Failed, same_store in *; simpl;
  repeat match goal with H : _ /\ _ |- _ => destruct H end;
  repeat match goal with
         | H : pendingSelections _ = pendingSelections _ |- _ => rewrite H; clear H
         | H : db _ = db _ |- _ => rewrite H; clear H
         end.

Ltac replaced := eapply pending_replaced; [| |reflexivity]; simpl in *; [lia|tauto].

Lemma catalog_protocol_returns item w :
  exists r w', catalog_protocol S item w = (Returned r, w').
Proof.
  unfold catalog_protocol, Resolved, Disambiguating, Failed.
  next_withPage; [|eauto]. destruct a as [|only [|second more]]; eauto.
  next_withPage; [destruct a|]; eauto.
Qed.

Lemma add_protocol_returns item w :
  exists r w', add_protocol S item w = (Returned r, w').
Proof.
  unfold add_protocol. next_withPage; [|unfold Failed; eauto].
  destruct a as [|first more]; [apply catalog_protocol_returns|].
  unfold Resolved, Disambiguating, Failed.
  destruct (List.find _ _); [next_withPage; [destruct a|]|]; eauto.
Qed.

Lemma handleSelection_returns (n : nat) (w : World) :
  exists r w', handleSelection S (Z.of_nat n) w = (Returned r, w').
Proof.
  destruct (pendingSelections w !! "default") as [pending|] eqn:Hp.
  - destruct (decide (1 <= n <= length (ps_results pending))%nat) as [Hn|Hn].
    + destruct (handleSelection_in_range n w pending Hp Hn) as (item & _ & ->).
      unfold after_resolution.
      destruct (withPage S _ w) as [[[]|e] w1]; eauto.
    + rewrite (handleSelection_out_of_range n w pending Hp Hn). eauto.
  - rewrite (handleSelection_no_pending _ w Hp). eauto.
Qed.

Lemma execute_returns (c : command) (w : World) :
  exists r w', execute S c w = (Returned r, w').
Proof.
  rewrite execute_after_cleanup. destruct c.
  - apply handleSelection_returns.
  - rewrite handleAdd_protocol. apply add_protocol_returns.
  - rewrite handleSearch_protocol. apply catalog_protocol_returns.
  - rewrite handleRemove_cases. unfold Failed. next_withPage; [destruct a|]; eauto.
  - rewrite handleList_cases. unfold Failed. next_withPage.
    + destruct a; eauto.
    + destruct (getGroceryItems _); eauto.
  - rewrite handleClear_cases. unfold Failed. next_withPage; [destruct a|]; eauto.
  - unfold ret. eauto.
Qed.

Lemma catalog_protocol_pending_effect c item w :
  c = Add item \/ c = Search item ->
  pending_effect c (pendingSelections w) (pendingSelections (catalog_protocol S item w).2).
Proof.
  intros Hc. unfold catalog_protocol. page_step.
  - pose proof (withPage_searchProducts_short _ _ _ _ Hpage) as Hshort.
    destruct a as [|only [|second more]].
    + use_stores. by apply pending_kept.
    + page_step; [destruct a|]; use_stores;
        [by apply pending_kept|replaced|by apply pending_kept].
    + use_stores. replaced.
  - use_stores. by apply pending_kept.
Qed.

Lemma add_protocol_pending_effect item w :
  pending_effect (Add item) (pendingSelections w)
                 (pendingSelections (add_protocol S item w).2).
Proof.
  assert (Add item = Add item \/ Add item = Search item) as Hc by (by left).
  unfold add_protocol. page_step.
  - pose proof (withPage_searchMyItems_short _ _ _ _ Hpage) as Hshort.
    destruct a as [|first more].
    + destruct H as [<- _]. by apply catalog_protocol_pending_effect.
    + destruct (List.find _ _).
      * page_step; [destruct a|]; use_stores;
          [by apply pending_kept|replaced|by apply pending_kept].
      * use_stores. replaced.
  - use_stores. by apply pending_kept.
Qed.

Lemma handleSelection_pending_effect (n : nat) (w : World) :
  pending_effect (Pick n) (pendingSelections w)
                 (pendingSelections (handleSelection S (Z.of_nat n) w).2).
Proof.
  destruct (pendingSelections w !! "default") as [pending|] eqn:Hp.
  - destruct (decide (1 <= n <= length (ps_results pending))%nat) as [Hn|Hn].
    + destruct (handleSelection_in_range n w pending Hp Hn) as (item & _ & ->).
      unfold after_resolution. page_step; [destruct a|]; use_stores;
        by apply pending_consumed.
    + rewrite (handleSelection_out_of_range n w pending Hp Hn). by apply pending_kept.
  - rewrite (handleSelection_no_pending _ w Hp). by apply pending_kept.
Qed.

Lemma execute_pending_effect (c : command) (w : World) :
  pending_effect c (pendingSelections (after_cleanup S w))
                 (pendingSelections (execute S c w).2).
Proof.
  rewrite execute_after_cleanup. destruct c.
  - apply handleSelection_pending_effect.
  - rewrite handleAdd_protocol. apply add_protocol_pending_effect.
  - rewrite handleSearch_protocol. apply catalog_protocol_pending_effect. by right.
  - rewrite handleRemove_cases. page_step; [destruct a|]; use_stores; by apply pending_kept.
  - rewrite handleList_cases. page_step.
    + destruct a; use_stores; by apply pending_kept.
    + destruct (getGroceryItems _); use_stores; by apply pending_kept.
  - rewrite handleClear_cases. page_step; [destruct a|]; use_stores; by apply pending_kept.
  - by apply pending_kept.
Qed.

Lemma after_cleanup_lookup_Some (w : World) key p :
  pendingSelections (after_cleanup S w) !! key = Some p ->
  pendingSelections w !! key = Some p.
Proof.
  rewrite after_cleanup_lookup. destruct (pendingSelections w !! key) as [q|]; [|done].
  by destruct (expired _ q).
Qed.

Lemma one_key_cases (m : gmap string PendingSelection) :
  one_key m -> m = ∅ \/ exists p, m = {[ "default" := p ]}.
Proof.
  intros Hone. destruct (m !! "default") as [p|] eqn:Hp.
  - right. exists p. apply map_eq. intros key.
    destruct (decide (key = "default")) as [->|Hne].
    + by rewrite lookup_singleton_eq.
    + rewrite lookup_singleton_ne by done.
      destruct (m !! key) as [q|] eqn:Hq; [|done]. by apply Hone in Hq.
  - left. apply map_eq. intros key. rewrite lookup_empty.
    destruct (m !! key) as [q|] eqn:Hq; [|done].
    pose proof (Hone _ _ Hq) as ->. congruence.
Qed.

Lemma pending_effect_invariant c (before after : gmap string PendingSelection) :
  pending_effect c before after ->
  one_key before /\ short_menus before -> one_key after /\ short_menus after.
Proof.
  intros Heff [Hone Hshort]. destruct Heff as [->| ->|p Hlen _ ->]; [done| |].
  - split; intros key q [_ Hq]%lookup_delete_Some; eauto.
  - split; intros key q [[<- <-]|[_ Hq]]%lookup_insert_Some; eauto.
Qed.

Lemma reachable_invariant (w : World) :
  reachable S w -> one_key (pendingSelections w) /\ short_menus (pendingSelections w).
Proof.
  induction 1 as [d e log|w c _ [Hone Hshort]].
  - split; intros key p; simpl; by rewrite lookup_empty.
  - apply (pending_effect_invariant c _ _ (execute_pending_effect c w)).
    split; intros key p Hp%after_cleanup_lookup_Some; eauto.
Qed.

(** When the page cannot be acquired or the operation's bookkeeping fails,
    handleList does fall back to the local table. *)
Lemma handleList_falls_back (w : World) error w1 :
  withPage S (getListItems S) (after_cleanup S w) = (Thrown error, w1) ->
  getGroceryItems (db w) <> [] ->
  exists msg,
    execute S ShowList w
    = (Returned (mkResult true ("(Cached) " +:+ msg)
                          (Some (DataGroceryItems (getGroceryItems (db w))))), w1).
Proof.
  intros Hpage Hrows. rewrite execute_after_cleanup, handleList_cases, Hpage.
  assert (same_store (after_cleanup S w) w1) as [_ Hdb]
    by (eapply withPage_same_store; [|exact Hpage]; eauto with page_ops).
  rewrite Hdb. change (db (after_cleanup S w)) with (db w).
  destruct (getGroceryItems (db w)); [done|]. eauto.
Qed.

(** getListItems itself never throws: a failed fetch comes back as []. *)
Lemma getListItems_swallows_errors (w : World) error e1 :
  eval_list_items S (site w) = (Thrown error, e1) ->
  getListItems S w = (Returned [], set_site e1 (set_calls (calls w ++ [CallGetListItems]) w)).
Proof.
  intros H. unfold getListItems, bind, try_catch, record, modify, interact, ret; simpl.
  by rewrite H.
Qed.

(** C1 (amended): a pick made while a PendingSelection exists for the
    session key deletes that entry whenever [n] passes the range check
    [1 <= n <= candidates.length], whether the remote add then succeeds,
    reports failure or throws; a pick whose [n] is outside the range is
    turned away before anything else happens and leaves the entry in place. *)
Theorem pick_consumes_pending_when_in_range (w : World) (n : nat)
    (pending : PendingSelection) :
  pendingSelections (after_cleanup S w) !! "default" = Some pending ->
  ((1 <= n <= length (ps_results pending))%nat ->
     pendingSelections (execute S (Pick n) w).2 !! "default" = None) /\
  (~ (1 <= n <= length (ps_results pending))%nat ->
     pendingSelections (execute S (Pick n) w).2 !! "default" = Some pending).
Proof.
  intros Hp. rewrite execute_after_cleanup. split; intros Hn.
  - destruct (handleSelection_in_range n _ pending Hp Hn) as (item & _ & ->).
    unfold after_resolution. destruct (withPage S _ _) as [[[]|e] w1]; simpl;
      apply lookup_delete_eq.
  - by rewrite (handleSelection_out_of_range n _ pending Hp Hn).
Qed.

(** C2: pick(n) without a PendingSelection fails with the "no pending
    selection" message; with a PendingSelection of k candidates and n outside
    1..k it fails with a message that names the range 1..k; in both cases the
    world is left as the sweep of expired entries left it, so no remote call
    is made.  With 1 <= n <= k the one remote interaction is the add chosen
    by the stored source, for the stored query and the index stored with the
    n-th candidate. *)
Theorem pick_validates_before_resolving (w : World) (n : nat) :
  exists r w',
    execute S (Pick n) w = (Returned r, w') /\
    match pendingSelections (after_cleanup S w) !! "default" with
    | None =>
        r = failure no_pending_message /\ w' = after_cleanup S w /\ calls w' = calls w
    | Some pending =>
        let k := length (ps_results pending) in
        if decide (1 <= n <= k)%nat then
          exists selectedItem,
            ps_results pending !! (n - 1)%nat = Some selectedItem /\
            (Returned r, w') =
              after_resolution S selectedItem
                (withPage S (resolution S pending selectedItem) (after_cleanup S w)) /\
            (calls w' = calls w ++ [resolution_call pending selectedItem] \/
             (calls w' = calls w /\ success r = false))
        else
          r = failure (range_message k) /\ w' = after_cleanup S w /\ calls w' = calls w
    end.
Proof.
  rewrite execute_after_cleanup.
  destruct (pendingSelections (after_cleanup S w) !! "default") as [pending|] eqn:Hp.
  - cbv zeta. destruct (decide _) as [Hn|Hn].
    + destruct (handleSelection_in_range n _ pending Hp Hn) as (item & Hitem & ->).
      pose proof (withPage_operation (resolution_call pending item)
                    (resolution S pending item) (after_cleanup S w)
                    (page_operation_resolution pending item)) as Hrun.
      destruct (withPage S (resolution S pending item) (after_cleanup S w))
        as [[[]|e] w1] eqn:Hattempt; simpl in Hrun;
        eexists _, _; (split; [reflexivity|]); exists item;
        (split; [done|split; [by rewrite Hattempt|]]); simpl; tauto.
    + rewrite (handleSelection_out_of_range n _ pending Hp Hn). eexists _, _. by repeat split.
  - rewrite (handleSelection_no_pending _ _ Hp). eexists _, _. by repeat split.
Qed.

(** The calls log only grows, and the first call of an add is the search of
    the past purchases. *)
Lemma add_protocol_searches_cache_first (item : string) (w : World) :
  calls (add_protocol S item w).2 = calls w \/
  exists more, calls (add_protocol S item w).2 = calls w ++ CallSearchMyItems item :: more.
Proof.
  unfold add_protocol, catalog_protocol, Resolved, Disambiguating, Failed.
  pose proof (withPage_operation _ _ w (page_operation_searchMyItems item)) as H1.
  destruct (withPage S (searchMyItems S item) w) as [[cache|e1] w1]; simpl.
  - destruct H1 as [_ H1]. right. destruct cache as [|first more].
    + pose proof (withPage_operation _ _ w1 (page_operation_searchProducts item)) as H2.
      destruct (withPage S (searchProducts S item) w1) as [[found|e2] w2]; simpl.
      * destruct H2 as [_ H2]. destruct found as [|only [|second others]]; simpl.
        -- exists [CallSearchProducts item]. by rewrite H2, H1, <- app_assoc.
        -- pose proof (withPage_operation _ _ w2
                         (page_operation_addSearchResultToList item 0)) as H3.
           destruct (withPage S (addSearchResultToList S item 0) w2) as [[[]|e3] w3];
             simpl; destruct H3 as [_ H3];
             try (destruct H3 as [H3|H3]); rewrite H3, H2, H1, <- ?app_assoc; simpl; eauto.
        -- exists [CallSearchProducts item]. by rewrite H2, H1, <- app_assoc.
      * destruct H2 as [_ [H2|H2]]; rewrite H2, H1, <- ?app_assoc; simpl; eauto.
    + destruct (List.find _ _) as [exactMatch|]; simpl; [|rewrite H1; eauto].
      pose proof (withPage_operation _ _ w1
                    (page_operation_addMyItemToList item (sr_index exactMatch))) as H3.
      destruct (withPage S (addMyItemToList S item (sr_index exactMatch)) w1)
        as [[[]|e3] w3]; simpl; destruct H3 as [_ H3];
        try (destruct H3 as [H3|H3]); rewrite H3, H1, <- ?app_assoc; simpl; eauto.
  - destruct H1 as [_ [H1|H1]]; rewrite H1; eauto.
Qed.

(** C5 (amended): add(item) searches the past purchases first.  A
    case-insensitive exact name match there is added remotely at once and,
    when that remote add succeeds, persisted locally (Resolved); when that
    remote add reports failure the matches are offered instead.  One or more
    matches without an exact one store a PendingSelection with source
    [myItems] and return a menu numbered from 1.  Zero matches go on to the
    full catalog: zero results fail with the "Couldn't find" message, exactly
    one result is added at once (and offered as a one-line menu if that
    remote add reports failure), more than one store a PendingSelection with
    source [search] and return a menu numbered from 1. *)
Theorem add_follows_protocol (item : string) (w : World) :
  execute S (Add item) w = add_protocol S item (after_cleanup S w) /\
  (calls (execute S (Add item) w).2 = calls w \/
   exists more, calls (execute S (Add item) w).2 = calls w ++ CallSearchMyItems item :: more) /\
  (forall candidates i r, candidates !! i = Some r ->
     exists rest,
       imap my_items_line candidates !! i
       = Some (pretty (i + 1)%nat +:+ ". " +:+ sr_name r +:+ rest)) /\
  (forall candidates i r, candidates !! i = Some r ->
     exists rest,
       imap search_line candidates !! i
       = Some (pretty (i + 1)%nat +:+ ". " +:+ sr_name r +:+ rest)) /\
  includes (not_found_message item) "Couldn't find" = true.
Proof.
  split; [|split; [|split; [|split]]].
  - rewrite execute_after_cleanup. apply handleAdd_protocol.
  - rewrite execute_after_cleanup, handleAdd_protocol.
    apply (add_protocol_searches_cache_first item (after_cleanup S w)).
  - intros candidates i r Hr. rewrite list_lookup_imap, Hr. simpl.
    unfold my_items_line. eauto.
  - intros candidates i r Hr. rewrite list_lookup_imap, Hr. simpl.
    unfold search_line. eauto.
  - reflexivity.
Qed.

(** X30: every PendingSelection is stored under the one constant key
    "default", whoever the operation is run for (the action is handed no user
    identity).  So at every moment at most one PendingSelection exists, and
    an invocation leaves the store as the sweep left it, empties it, or - for
    a disambiguating add or search - leaves exactly the new entry in it: the
    new entry replaces the old one. *)
Theorem pending_under_one_key (w : World) :
  reachable S w ->
  one_key (pendingSelections w) /\
  (size (pendingSelections w) <= 1)%nat /\
  forall c,
    pendingSelections (execute S c w).2 = pendingSelections (after_cleanup S w) \/
    pendingSelections (execute S c w).2 = ∅ \/
    exists p, pendingSelections (execute S c w).2 = {[ "default" := p ]} /\
              (c = Add (ps_query p) \/ c = Search (ps_query p)).
Proof.
  intros Hreach. destruct (reachable_invariant w Hreach) as [Hone _].
  split; [done|split].
  - destruct (one_key_cases _ Hone) as [->|[p ->]];
      [rewrite map_size_empty|rewrite map_size_singleton]; lia.
  - intros c.
    destruct (reachable_invariant _ (reachable_execute S w c Hreach)) as [Hone' _].
    destruct (execute_pending_effect c w) as [Heq|Heq|p _ Hc Heq]; [by left|right..].
    + left. destruct (one_key_cases _ Hone') as [Hm|[p Hm]]; [done|].
      rewrite Hm in Heq. apply (f_equal (fun m => m !! "default")) in Heq.
      rewrite lookup_singleton_eq, lookup_delete_eq in Heq. done.
    + right. exists p. split; [|done].
      destruct (one_key_cases _ Hone') as [Hm|[q Hm]].
      * rewrite Hm in Heq. apply (f_equal (fun m => m !! "default")) in Heq.
        rewrite lookup_empty, lookup_insert_eq in Heq. done.
      * rewrite Hm. rewrite Hm in Heq. apply (f_equal (fun m => m !! "default")) in Heq.
        rewrite lookup_singleton_eq, lookup_insert_eq in Heq. congruence.
Qed.

(** Handed a match array, every operation of the action (add, search, pick,
    remove, list, clear, and an unrecognised command) returns a result object
    {success, message}, whatever the page, the login or the site throw inside
    [withPage]; the calls of the local database are taken to return. *)
Theorem execute_always_returns_result (c : command) (w : World) :
  exists r w', execute S c w = (Returned r, w').
Proof. apply execute_returns. Qed.

(** The only way out of [execute] by a throw is the null match: handed a null
    match after a test that reads [match[1]], it throws the TypeError once the
    expired selections are swept, with no page operation started. *)
Theorem execute_context_throws (i : invocation) (w : World) :
  match i with
  | WithMatch c => exists r w', execute_context S i w = (Returned r, w')
  | NullMatch _ =>
      execute_context S i w = (Thrown TypeError_match_null, after_cleanup S w)
  end.
Proof.
  destruct i as [c|passed]; simpl.
  - apply execute_returns.
  - unfold bind, throw, after_cleanup, cleanupPendingSelections, modify. reflexivity.
Qed.

(** C8: clear().  Without a usable page the remote clear is not attempted:
    the result is a failure and the local table is unchanged.  With a page,
    clearList is run once and the browser state is saved after it.  When the
    remote clear reports failure, the result is a failure and the local
    table is unchanged.  When it reports success and the state is saved, the
    local table is emptied and the count in the message is the number of
    rows deleted from the local table; the remote list is not read again.
    When the state cannot be saved, the result is a failure and the local
    table is unchanged, although the remote list may have been cleared. *)
Theorem clear_local_mirror (w : World) :
  exists r w',
    execute S ClearListCmd w = (Returned r, w') /\
    match getPage S (after_cleanup S w) with
    | (Thrown error, _) =>
        r = failure ("Failed to clear list: " +:+ error_message error) /\
        db w' = db w /\ calls w' = calls w
    | (Returned _, w1) =>
        calls w' = calls w ++ [CallClearList] /\
        let (cleared, e1) := run_clearList S (site w1) in
        match saveContextState S e1 with
        | (Returned _, _) =>
            if cleared then
              r = succeeded ("Cleared your shopping list ("
                               +:+ pretty (length (grocery_items (db w)))
                               +:+ " items removed)") /\
              grocery_items (db w') = []
            else
              r = failure "Failed to clear the list" /\ db w' = db w
        | (Thrown _, _) => success r = false /\ db w' = db w
        end
    end.
Proof.
  rewrite execute_after_cleanup.
  assert (db (after_cleanup S w) = db w /\ calls (after_cleanup S w) = calls w)
    as [Hdb0 Hcalls0] by done.
  revert Hdb0 Hcalls0. generalize (after_cleanup S w). intros w0 Hdb0 Hcalls0.
  unfold handleClear, withPage, try_catch, bind.
  pose proof (quiet_getPage w0) as [[_ Hdb1] Hcalls1].
  destruct (getPage S w0) as [[[]|error] w1]; simpl in Hdb1, Hcalls1.
  2:{ eexists _, _. split; [reflexivity|]. simpl. split; [done|]. split; congruence. }
  unfold clearList, record, modify, interact_total, interact, bind, get_world, ret; simpl.
  destruct (run_clearList S (site w1)) as [cleared e1]; simpl.
  destruct (saveContextState S e1) as [[[]|error] e2]; simpl.
  - destruct cleared; simpl; eexists _, _; (split; [reflexivity|]); simpl.
    + split; [congruence|]. split; [|done]. by rewrite Hdb1, Hdb0.
    + split; [congruence|]. split; [done|congruence].
  - match goal with |- context [closePage S ?w2] =>
      pose proof (quiet_closePage w2) as [[_ Hdb3] Hcalls3];
      destruct (closePage S w2) as [[[]|error'] w3] end;
      simpl in *; eexists _, _; (split; [reflexivity|]); simpl;
      (split; [congruence|]); (split; [done|congruence]).
Qed.

(** C10: searchMyItems returns the first five matching past purchases and
    searchProducts the first five product cards, never more.  So every menu
    stored by add or search has at most five candidates, and a pick that
    succeeds has 1 <= n <= 5. *)
Theorem at_most_five_candidates :
  (forall q w, exists l w',
      searchMyItems S q w = (Returned l, w') /\ (length l <= 5)%nat /\
      match eval_my_items S q (site w) with
      | (Returned elements, _) =>
          l = take 5 (List.filter (name_matches q) (imap my_item_of elements))
      | (Thrown _, _) => l = []
      end) /\
  (forall q w, exists l w',
      searchProducts S q w = (Returned l, w') /\ (length l <= 5)%nat /\
      match eval_product_cards S q (site w) with
      | (Returned (Some elements), _) => l = imap product_of (take 5 elements)
      | (Returned None, _) => l = []
      | (Thrown _, _) => l = []
      end) /\
  (forall w, reachable S w -> short_menus (pendingSelections w)) /\
  (forall w n r w',
      reachable S w -> execute S (Pick n) w = (Returned r, w') ->
      success r = true -> (1 <= n <= 5)%nat).
Proof.
  split; [exact searchMyItems_first_five|].
  split; [exact searchProducts_first_five|].
  split; [intros w Hw; by apply reachable_invariant|].
  intros w n r w' Hreach Hrun Hok.
  destruct (reachable_invariant w Hreach) as [_ Hshort].
  rewrite execute_after_cleanup in Hrun.
  destruct (pendingSelections (after_cleanup S w) !! "default") as [pending|] eqn:Hp.
  - destruct (decide (1 <= n <= length (ps_results pending))%nat) as [Hn|Hn].
    + apply after_cleanup_lookup_Some, Hshort in Hp. lia.
    + rewrite (handleSelection_out_of_range n _ pending Hp Hn) in Hrun.
      injection Hrun as <- _. discriminate.
  - rewrite (handleSelection_no_pending _ _ Hp) in Hrun.
    injection Hrun as <- _. discriminate.
Qed.

(** ** Further properties of the handlers *)

Lemma in_range_pick_deletes (w : World) (n : nat) (pending : PendingSelection) :
  pendingSelections w !! "default" = Some pending ->
  (1 <= n <= length (ps_results pending))%nat ->
  pendingSelections (handleSelection S (Z.of_nat n) w).2 !! "default" = None.
Proof.
  intros Hp Hn.
  destruct (handleSelection_in_range n w pending Hp Hn) as (item & _ & ->).
  unfold after_resolution. destruct (withPage S _ w) as [[[]|e] w1]; simpl;
    apply lookup_delete_eq.
Qed.

(** X1: the five-minute lifetime of a menu.  A pick made when
    [Date.now() - timestamp] exceeds 300000 ms finds no pending selection: it
    fails with the "no pending selection" message, makes no remote call, and
    the entry is gone.  At 300000 ms or less the sweep keeps the entry. *)
Theorem pick_after_expiry (w : World) (n : nat) (pending : PendingSelection) :
  pendingSelections w !! "default" = Some pending ->
  ((now S (site w) - ps_timestamp pending > 300000)%Z ->
     execute S (Pick n) w = (Returned (failure no_pending_message), after_cleanup S w) /\
     pendingSelections (after_cleanup S w) !! "default" = None /\
     calls (after_cleanup S w) = calls w) /\
  ((now S (site w) - ps_timestamp pending <= 300000)%Z ->
     pendingSelections (after_cleanup S w) !! "default" = Some pending).
Proof.
  intros Hp. pose proof (after_cleanup_lookup w "default") as Hsweep.
  rewrite Hp in Hsweep. unfold expired, SELECTION_TIMEOUT in Hsweep. split; intros Hage.
  - destruct (_ >? _)%Z eqn:Hcmp in Hsweep;
      [|rewrite Z.gtb_ltb in Hcmp; apply Z.ltb_ge in Hcmp; lia].
    rewrite execute_after_cleanup. by rewrite (handleSelection_no_pending _ _ Hsweep).
  - destruct (_ >? _)%Z eqn:Hcmp in Hsweep; [|done].
    rewrite Z.gtb_ltb in Hcmp. apply Z.ltb_lt in Hcmp. lia.
Qed.

(** X2: a menu serves one in-range pick.  After a pick whose number is within
    the menu, any further pick fails with the "no pending selection" message
    and makes no remote call. *)
Theorem pick_is_single_use (w : World) (n m : nat) (pending : PendingSelection) :
  pendingSelections (after_cleanup S w) !! "default" = Some pending ->
  (1 <= n <= length (ps_results pending))%nat ->
  (execute S (Pick m) (execute S (Pick n) w).2).1 = Returned (failure no_pending_message) /\
  calls (execute S (Pick m) (execute S (Pick n) w).2).2 = calls (execute S (Pick n) w).2.
Proof.
  intros Hp Hn.
  pose proof (in_range_pick_deletes _ n pending Hp Hn) as Hgone.
  rewrite <- (execute_after_cleanup (Pick n) w) in Hgone.
  set (w1 := (execute S (Pick n) w).2) in *.
  assert (pendingSelections (after_cleanup S w1) !! "default" = None) as Hswept.
  { rewrite after_cleanup_lookup. by rewrite Hgone. }
  rewrite (execute_after_cleanup (Pick m) w1).
  by rewrite (handleSelection_no_pending _ _ Hswept).
Qed.

(** X3: search(item) never consults the past purchases: the only list
    operations it starts are the catalog search for [item] and, for a single
    result, the add of catalog result 0. *)
Theorem search_skips_past_purchases (item : string) (w : World) :
  exists more,
    calls (execute S (Search item) w).2 = calls w ++ more /\
    (more = [] \/ more = [CallSearchProducts item] \/
     more = [CallSearchProducts item; CallAddSearchResultToList item 0]).
Proof.
  rewrite execute_after_cleanup, handleSearch_protocol.
  change (calls w) with (calls (after_cleanup S w)).
  generalize (after_cleanup S w). clear w. intros w.
  unfold catalog_protocol, Resolved, Disambiguating, Failed.
  pose proof (withPage_operation _ _ w (page_operation_searchProducts item)) as H1.
  destruct (withPage S (searchProducts S item) w) as [[found|e1] w1]; simpl.
  - destruct H1 as [_ H1]. destruct found as [|only [|second others]]; simpl.
    + exists [CallSearchProducts item]. auto.
    + pose proof (withPage_operation _ _ w1
                    (page_operation_addSearchResultToList item 0)) as H2.
      destruct (withPage S (addSearchResultToList S item 0) w1) as [[[]|e2] w2];
        simpl; destruct H2 as [_ H2]; try (destruct H2 as [H2|H2]);
        rewrite H2, H1, <- ?app_assoc; simpl; eauto.
    + exists [CallSearchProducts item]. auto.
  - destruct H1 as [_ [H1|H1]]; rewrite H1.
    + exists []. rewrite app_nil_r. auto.
    + eauto.
Qed.

Lemma catalog_protocol_table (c : command) (item : string) (w : World) :
  match c with Pick _ | Add _ | Search _ => True | _ => False end ->
  table_effect c (db w) (db (catalog_protocol S item w).2) /\
  forall r, (catalog_protocol S item w).1 = Returned r -> success r = false ->
            db (catalog_protocol S item w).2 = db w.
Proof.
  intros Hc. unfold catalog_protocol. page_step.
  - destruct a as [|only [|second more]].
    + use_stores. split; [by apply table_kept|done].
    + page_step; [destruct a|]; use_stores.
      * split; [by eapply table_row_added|]. by intros r [= <-].
      * split; [by apply table_kept|done].
      * split; [by apply table_kept|done].
    + use_stores. split; [by apply table_kept|done].
  - use_stores. split; [by apply table_kept|done].
Qed.

Lemma add_protocol_table (item : string) (w : World) :
  table_effect (Add item) (db w) (db (add_protocol S item w).2) /\
  forall r, (add_protocol S item w).1 = Returned r -> success r = false ->
            db (add_protocol S item w).2 = db w.
Proof.
  unfold add_protocol. page_step.
  - destruct a as [|first more].
    + destruct H as [_ <-]. by apply catalog_protocol_table.
    + destruct (List.find _ _).
      * page_step; [destruct a|]; use_stores.
        -- split; [by eapply table_row_added|]. by intros r [= <-].
        -- split; [by apply table_kept|done].
        -- split; [by apply table_kept|done].
      * use_stores. split; [by apply table_kept|done].
  - use_stores. split; [by apply table_kept|done].
Qed.

Lemma handleSelection_table (n : nat) (w : World) :
  table_effect (Pick n) (db w) (db (handleSelection S (Z.of_nat n) w).2) /\
  forall r, (handleSelection S (Z.of_nat n) w).1 = Returned r -> success r = false ->
            db (handleSelection S (Z.of_nat n) w).2 = db w.
Proof.
  destruct (pendingSelections w !! "default") as [pending|] eqn:Hp.
  - destruct (decide (1 <= n <= length (ps_results pending))%nat) as [Hn|Hn].
    + destruct (handleSelection_in_range n w pending Hp Hn) as (item & _ & ->).
      unfold after_resolution. page_step; [destruct a|]; use_stores.
      * split; [by eapply table_row_added|]. by intros r [= <-].
      * split; [by apply table_kept|done].
      * split; [by apply table_kept|done].
    + rewrite (handleSelection_out_of_range n w pending Hp Hn).
      split; [by apply table_kept|done].
  - rewrite (handleSelection_no_pending _ w Hp). split; [by apply table_kept|done].
Qed.

(** X4: what a command can do to the local table.  pick, add and search
    leave it alone or append one row; remove leaves it alone or deletes the
    rows of that name; clear leaves it alone or empties it; list and an
    unknown command leave it alone.  A command whose result has
    [success = false] never changes the local table. *)
Theorem local_table_effect (c : command) (w : World) :
  exists r w',
    execute S c w = (Returned r, w') /\
    table_effect c (db w) (db w') /\
    (success r = false -> db w' = db w).
Proof.
  destruct (execute_returns c w) as (r & w' & Hrun). exists r, w'. split; [done|].
  assert (w' = (execute S c w).2) as -> by (by rewrite Hrun).
  assert (Returned r = (execute S c w).1) as Hr by (by rewrite Hrun). clear Hrun.
  rewrite execute_after_cleanup in *. change (db w) with (db (after_cleanup S w)).
  revert Hr. generalize (after_cleanup S w). clear w. intros w Hr.
  destruct c.
  - destruct (handleSelection_table selection w) as [H1 H2]. split; [done|]. eauto.
  - rewrite handleAdd_protocol in *.
    destruct (add_protocol_table item w) as [H1 H2]. split; [done|]. eauto.
  - rewrite handleSearch_protocol in *.
    destruct (catalog_protocol_table (Search item) item w I) as [H1 H2].
    split; [done|]. eauto.
  - rewrite handleRemove_cases in *. page_step; [destruct a|]; use_stores.
    + split; [by eapply table_rows_removed|]. by injection Hr as ->.
    + split; [by apply table_kept|done].
    + split; [by apply table_kept|done].
  - rewrite handleList_cases in *. page_step.
    + destruct a; use_stores; (split; [by apply table_kept|done]).
    + destruct (getGroceryItems _); use_stores; (split; [by apply table_kept|done]).
  - rewrite handleClear_cases in *. page_step; [destruct a|]; use_stores.
    + split; [by apply table_cleared|]. by injection Hr as ->.
    + split; [by apply table_kept|done].
    + split; [by apply table_kept|done].
  - split; [by apply table_kept|done].
Qed.

(** X5: a menu survives the commands in between.  remove, list, clear and an
    unknown command leave the pending selections exactly as the expiry sweep
    left them, whatever the page does. *)
Theorem other_commands_keep_pending (c : command) (w : World) :
  match c with
  | Remove _ | ShowList | ClearListCmd | Unknown =>
      pendingSelections (execute S c w).2 = pendingSelections (after_cleanup S w)
  | Pick _ | Add _ | Search _ => True
  end.
Proof.
  destruct c; try exact I; rewrite execute_after_cleanup.
  - rewrite handleRemove_cases. page_step; [destruct a|]; by use_stores.
  - rewrite handleList_cases. page_step.
    + destruct a; by use_stores.
    + destruct (getGroceryItems _); by use_stores.
  - rewrite handleClear_cases. page_step; [destruct a|]; by use_stores.
  - done.
Qed.

(** X6: the call on which the login fails runs no operation.  When no page
    is open and ensureAuthenticated reports failure on the new page, this
    call of withPage throws "Failed to authenticate with Wegmans" before its
    operation is started, and add answers with that message.  (The new page
    stays in [this.page]: what later calls do with it is X8.) *)
Theorem withPage_requires_authentication {A} (operation : M World A) (w : World) e1 e2 :
  page_ready S (site w) = false ->
  new_page S (site w) = (Returned tt, e1) ->
  ensureAuthenticated S e1 = (false, e2) ->
  withPage S operation w
  = (Thrown (Error "Failed to authenticate with Wegmans"), set_site e2 w) /\
  forall item,
    execute S (Add item) w
    = (Returned (failure ("Failed to search for " +:+ quoted item
                            +:+ ": Failed to authenticate with Wegmans")),
       set_site e2 (after_cleanup S w)).
Proof.
  intros Hready Hnew Hauth.
  assert (forall B (op : M World B) w0, site w0 = site w ->
            withPage S op w0
            = (Thrown (Error "Failed to authenticate with Wegmans"), set_site e2 w0)) as Hfail.
  { intros B op w0 Hsite.
    unfold withPage, getPage, bind, get_world, interact, interact_total, throw; simpl.
    rewrite Hsite, Hready; simpl. rewrite ?Hsite, Hnew; simpl. by rewrite Hauth. }
  split; [by apply Hfail|].
  intros item. rewrite execute_after_cleanup, handleAdd_protocol. unfold add_protocol.
  rewrite Hfail by done. reflexivity.
Qed.

(** X7: clear() when the browser state cannot be saved.  The page is open,
    the remote clear runs and reports success, but saveContextState then
    throws: withPage throws, so clear() answers with a failure and the local
    table keeps its rows although the remote list was cleared. *)
Theorem clear_fails_when_state_cannot_be_saved (w : World) e1 err e2 :
  page_ready S (site w) = true ->
  run_clearList S (site w) = (true, e1) ->
  saveContextState S e1 = (Thrown err, e2) ->
  exists r w',
    execute S ClearListCmd w = (Returned r, w') /\
    success r = false /\
    db w' = db w /\
    calls w' = calls w ++ [CallClearList].
Proof.
  intros Hready Hclear Hsave.
  rewrite execute_after_cleanup, handleClear_cases.
  change (db w) with (db (after_cleanup S w)).
  change (calls w) with (calls (after_cleanup S w)).
  assert (site (after_cleanup S w) = site w) as Hsite by done.
  revert Hsite. generalize (after_cleanup S w). intros w0 Hsite.
  unfold withPage, getPage, clearList, closePage, bind, try_catch, get_world, record,
    modify, interact, interact_total, ret, throw; simpl.
  rewrite Hsite, Hready; simpl. rewrite ?Hsite, Hclear; simpl. rewrite Hsave; simpl.
  destruct (page_ready S e2); simpl.
  - destruct (close_page S e2) as [[[]|e3] e4]; simpl; eexists _, _; by repeat split.
  - eexists _, _; by repeat split.
Qed.

End WegmansProperties.

(** ** Worked examples on the scripted site *)

(** Scenario 1 of the specification: [add milk] with two inexact matches in
    the past purchases offers a two-line menu and stores it. *)
Example add_milk_offers_menu :
  execute scripted_site (Add "milk") (fresh_world milk_script)
  = (Returned (succeeded (my_items_menu (ps_results milk_menu))), world_with_milk_menu).
Proof. vm_compute. reflexivity. Qed.

(** Scenario 2: [pick 2] then adds the second candidate through the
    past-purchases path, persists it and deletes the pending entry. *)
Example pick_two_adds_whole_milk :
  (execute scripted_site (Pick 2) world_with_milk_menu).1
  = Returned (succeeded ("Added " +:+ quoted "Wegmans Whole Milk" +:+ " to your list"))
  /\ pendingSelections (execute scripted_site (Pick 2) world_with_milk_menu).2 = ∅
  /\ map gi_name (grocery_items (db (execute scripted_site (Pick 2) world_with_milk_menu).2))
     = ["Wegmans Whole Milk"]
  /\ calls (execute scripted_site (Pick 2) world_with_milk_menu).2
     = [CallSearchMyItems "milk"; CallAddMyItemToList "milk" 1].
Proof. repeat split; vm_compute; reflexivity. Qed.

(** Scenario 3: nothing in the past purchases and nothing in the catalog
    matches; the add fails with the "Couldn't find" message. *)
Example add_unknown_item_fails :
  (execute scripted_site (Add "zzznonexistent") (fresh_world milk_script)).1
  = Returned (failure ("Couldn't find " +:+ quoted "zzznonexistent"
                         +:+ " on Wegmans. Try a different search term."))
  /\ pendingSelections
       (execute scripted_site (Add "zzznonexistent") (fresh_world milk_script)).2 = ∅.
Proof. split; vm_compute; reflexivity. Qed.

(** Scenario 4: a search with exactly one catalog result is resolved at once
    and stores no pending selection. *)
Example search_single_result_resolves :
  (execute scripted_site (Search "oat milk") (fresh_world oat_milk_script)).1
  = Returned (succeeded ("Added " +:+ quoted "Oatly Oat Milk" +:+ " to your list"))
  /\ pendingSelections
       (execute scripted_site (Search "oat milk") (fresh_world oat_milk_script)).2 = ∅
  /\ calls (execute scripted_site (Search "oat milk") (fresh_world oat_milk_script)).2
     = [CallSearchProducts "oat milk"; CallAddSearchResultToList "oat milk" 0].
Proof. repeat split; vm_compute; reflexivity. Qed.

(** Scenario 5: the remote clear reports failure; the result is a failure
    and the local table is untouched. *)
Example clear_failure_keeps_local_items :
  (execute scripted_site ClearListCmd world_with_two_local_items).1
  = Returned (failure "Failed to clear the list")
  /\ db (execute scripted_site ClearListCmd world_with_two_local_items).2
     = db world_with_two_local_items.
Proof. split; vm_compute; reflexivity. Qed.

(** C1, the claim as stated fails: [pick 99] against a two-option menu is
    refused and the entry is still there afterwards, so that a second pick
    uses it. *)
Lemma pick_out_of_range_keeps_pending :
  pendingSelections world_with_milk_menu !! "default" = Some milk_menu /\
  (execute scripted_site (Pick 99) world_with_milk_menu).1
  = Returned (failure "Please pick a number between 1 and 2") /\
  pendingSelections (execute scripted_site (Pick 99) world_with_milk_menu).2 !! "default"
  = Some milk_menu /\
  (execute scripted_site (Pick 2)
     (execute scripted_site (Pick 99) world_with_milk_menu).2).1
  = Returned (succeeded ("Added " +:+ quoted "Wegmans Whole Milk" +:+ " to your list")).
Proof. repeat split; vm_compute; reflexivity. Qed.

(** The amended C1 on the milk menu: [pick 2] consumes the entry, [pick 99]
    leaves it. *)
Lemma pick_consumes_pending_when_in_range_witness :
  (pendingSelections (execute scripted_site (Pick 2) world_with_milk_menu).2 !! "default"
   = None) /\
  (pendingSelections (execute scripted_site (Pick 99) world_with_milk_menu).2 !! "default"
   = Some milk_menu).
Proof.
  split.
  - apply (pick_consumes_pending_when_in_range scripted_site world_with_milk_menu 2 milk_menu);
      [vm_compute; reflexivity|simpl; lia].
  - apply (pick_consumes_pending_when_in_range scripted_site world_with_milk_menu 99 milk_menu);
      [vm_compute; reflexivity|simpl; lia].
Defined.

(** C4, the failing input: the fetch of the live list throws inside
    getListItems, which turns the error into an empty list; handleList then
    reports an empty shopping list, not labelled as cached and without the
    item the local table holds. *)
Lemma list_fetch_failure_reported_as_empty :
  map gi_name (getGroceryItems (db world_with_cached_milk)) = ["Cached Milk"] /\
  (execute scripted_site ShowList world_with_cached_milk).1
  = Returned (mkResult true "Your shopping list is empty" None).
Proof. split; vm_compute; reflexivity. Qed.

(** C5, the claim as stated fails: the past purchases hold an exact match
    for "milk" (ignoring case), the remote add reports failure; the invocation
    does not resolve, nothing is persisted, and it ends in a menu with a
    PendingSelection of source [myItems]. *)
Lemma exact_match_not_resolved_when_add_fails :
  (execute scripted_site (Add "milk") (fresh_world add_fails_script)).1
  = Returned (succeeded (my_items_menu [mkSearchResult "Milk" None None 0])) /\
  pendingSelections (execute scripted_site (Add "milk") (fresh_world add_fails_script)).2
    !! "default"
  = Some (mkPending "milk" [mkSearchResult "Milk" None None 0] myItems 1000) /\
  grocery_items (db (execute scripted_site (Add "milk") (fresh_world add_fails_script)).2)
  = [] /\
  calls (execute scripted_site (Add "milk") (fresh_world add_fails_script)).2
  = [CallSearchMyItems "milk"; CallAddMyItemToList "milk" 0].
Proof. repeat split; vm_compute; reflexivity. Qed.

(** C7, the failing input: HansAgent.executeFunction handles
    add_to_grocery_list with an empty item.  The message is "add ", which
    passes [/^add\s+/i] and does not match [/^add\s+(.+)$/i]; [execute] is
    handed the null match, sweeps the expired menu and throws the TypeError
    instead of returning a result.  No page operation is started. *)
Lemma null_match_escapes_execute :
  (execute_context scripted_site (NullMatch add_test) world_with_stale_menu).1
  = Thrown (Error "Cannot read properties of null (reading '1')") /\
  pendingSelections
    (execute_context scripted_site (NullMatch add_test) world_with_stale_menu).2
  = ∅ /\
  calls (execute_context scripted_site (NullMatch add_test) world_with_stale_menu).2
  = calls world_with_stale_menu.
Proof. repeat split; vm_compute; reflexivity. Qed.

(** C8, the claim as stated fails: the page is open, the remote clear runs
    and reports success, and saving the browser state then throws.  clear()
    answers with a failure and the two local rows stay, while the remote list
    is empty. *)
Lemma remote_clear_succeeds_mirror_kept :
  run_clearList unsaved_site (site world_before_clear) = (true, milk_script) /\
  (execute unsaved_site ClearListCmd world_before_clear).1
  = Returned (failure "Failed to clear list: ENOSPC: no space left on device") /\
  calls (execute unsaved_site ClearListCmd world_before_clear).2 = [CallClearList] /\
  map gi_name
      (grocery_items (db (execute unsaved_site ClearListCmd world_before_clear).2))
  = ["Milk"; "Eggs"].
Proof. repeat split; vm_compute; reflexivity. Qed.

(** C6, the failing input: one user's [add milk] and another user's
    [add eggs] both end in a menu.  The Map is commented "Store pending
    selections per user session", but the two entries do not live under
    disjoint keys: both are written under "default", the second replaces the
    first, and the first user's [pick 1] adds eggs. *)
Lemma two_users_share_the_default_key :
  ps_query <$> pendingSelections after_first_user_adds_milk !! "default" = Some "milk" /\
  ps_query <$> pendingSelections after_second_user_adds_eggs !! "default" = Some "eggs" /\
  size (pendingSelections after_second_user_adds_eggs) = 1%nat /\
  map gi_name
      (grocery_items (db (execute scripted_site (Pick 1) after_second_user_adds_eggs).2))
  = ["Wegmans Large Eggs"].
Proof. repeat split; vm_compute; reflexivity. Qed.

(** X30 on the world reached by one [add milk]. *)
Lemma pending_under_one_key_witness :
  one_key (pendingSelections (execute scripted_site (Add "milk") (fresh_world pantry_script)).2)
  /\ (size (pendingSelections
              (execute scripted_site (Add "milk") (fresh_world pantry_script)).2) <= 1)%nat.
Proof.
  destruct (pending_under_one_key scripted_site
              (execute scripted_site (Add "milk") (fresh_world pantry_script)).2)
    as (Hone & Hsize & _).
  - apply reachable_execute. apply reachable_start.
  - split; [exact Hone|exact Hsize].
Defined.

Section AgentProperties.

Context {Args G T : Type}.
Variable gemini : @GeminiService Args G.
Variable executeFunction : @FunctionCall Args -> string -> T -> string * T.

Lemma continuation_count_app (l1 l2 : list (@service_call Args)) :
  continuation_count (l1 ++ l2) = (continuation_count l1 + continuation_count l2)%nat.
Proof. unfold continuation_count. by rewrite List.filter_app, length_app. Qed.

Lemma last_answer_app (l1 l2 : list (@service_call Args)) :
  last_answer (l1 ++ l2) =
  match last_answer l2 with
  | Some a => Some a
  | None => last_answer l1
  end.
Proof.
  induction l1 as [|c l1 IH]; simpl.
  - by destruct (last_answer l2).
  - rewrite IH. by destruct (last_answer l2).
Qed.

(** Running the requested tools returns, and talks to the service only to
    hand over results. *)
Lemma execute_calls_log (requested : list FunctionCall) (userId : string)
    (w : @AgentWorld Args G T) :
  exists w' events,
    execute_calls gemini executeFunction requested userId w = (Returned tt, w') /\
    service_calls w' = service_calls w ++ events /\
    continuation_count events = 0%nat /\
    last_answer events = None.
Proof.
  revert w. induction requested as [|call more IH]; intros w; simpl.
  - exists w, []. unfold ret. by rewrite app_nil_r.
  - unfold bind, run_tool, tell_result, modify.
    destruct (executeFunction call userId (tools w)) as [result t] eqn:Hrun; simpl.
    match goal with |- context [execute_calls _ _ more userId ?w1] =>
      destruct (IH w1) as (w' & events & -> & Hlog & Hcount & Hlast) end.
    simpl in Hlog. eexists w', (_ :: events). split; [done|].
    rewrite Hlog, <- app_assoc. simpl. by rewrite Hlast.
Qed.

(** The while loop: it makes at most [remaining] continuation requests, and
    ends with the last answer it got (or with the response it started from,
    if it asked nothing). *)
Lemma function_call_loop_log (remaining : nat) (userId : string)
    (response : LLMResponse) (w : @AgentWorld Args G T) :
  exists events,
    service_calls (function_call_loop gemini executeFunction remaining userId response w).2
    = service_calls w ++ events /\
    (continuation_count events <= remaining)%nat /\
    (function_call_loop gemini executeFunction remaining userId response w).1
    = match last_answer events with
      | Some answer => answer
      | None => Returned response
      end.
Proof.
  revert response w. induction remaining as [|fewer IH]; intros response w.
  - exists []. rewrite app_nil_r. split; [done|split; [cbn; lia|done]].
  - cbn [function_call_loop].
    destruct (requested_calls response) as [|call more] eqn:Hreq.
    + exists []. rewrite app_nil_r. split; [done|split; [cbn; lia|done]].
    + unfold bind.
      destruct (execute_calls_log (call :: more) userId w)
        as (w1 & events1 & -> & Hlog1 & Hcount1 & Hlast1).
      unfold ask_continue.
      destruct (continueWithFunctionResults gemini userId (service w1))
        as [[next|error] g] eqn:Hnext.
      * match goal with |- context [function_call_loop _ _ fewer userId next ?w2] =>
          destruct (IH next w2) as (events2 & Hlog2 & Hcount2 & Hresult2) end.
        simpl in Hlog2.
        exists (events1 ++ [ContinueWithFunctionResults userId (Returned next)] ++ events2).
        split; [|split].
        -- rewrite Hlog2, Hlog1, <- !app_assoc. done.
        -- rewrite !continuation_count_app, Hcount1.
           change (continuation_count [ContinueWithFunctionResults userId (Returned next)])
             with 1%nat. lia.
        -- rewrite Hresult2, !last_answer_app. simpl. by destruct (last_answer events2).
      * simpl. exists (events1 ++ [ContinueWithFunctionResults userId (Thrown error)]).
        split; [|split].
        -- by rewrite Hlog1, <- app_assoc.
        -- rewrite continuation_count_app, Hcount1. cbn. lia.
        -- by rewrite last_answer_app.
Qed.

(** C3: for every inbound message and every behaviour of the conversation
    service, handleMessage returns after one chat request and at most five
    continuation requests.  Its reply is the text of the last answer it got
    when that text is present and "Done!" otherwise; if the service threw
    instead of answering, the reply is the apology of the catch clause. *)
Theorem handleMessage_bounded (userId message : string) (w : @AgentWorld Args G T) :
  exists first events last,
    service_calls (handleMessage gemini executeFunction userId message w).2
    = service_calls w ++ Chat userId message first :: events /\
    (continuation_count (Chat userId message first :: events) <= 5)%nat /\
    last_answer (Chat userId message first :: events) = Some last /\
    (handleMessage gemini executeFunction userId message w).1
    = match last with
      | Returned response => or_else (text response) "Done!"
      | Thrown error => fallback_reply error
      end.
Proof.
  unfold handleMessage, bind, ask_chat.
  destruct (chat gemini userId message (service w)) as [[response|error] g] eqn:Hchat.
  - match goal with |- context [function_call_loop _ _ maxIterations userId response ?w1] =>
      destruct (function_call_loop_log maxIterations userId response w1)
        as (events & Hlog & Hcount & Hresult);
      destruct (function_call_loop gemini executeFunction maxIterations userId response w1)
        as [o w2] end.
    simpl in *. subst o.
    exists (Returned response), events,
      (match last_answer events with Some a => a | None => Returned response end).
    split; [|split; [|split]].
    + destruct (last_answer events) as [[?|?]|]; simpl; rewrite Hlog, <- app_assoc;
        reflexivity.
    + change (Chat userId message (Returned response) :: events)
        with ([Chat userId message (Returned response)] ++ events).
      rewrite continuation_count_app.
      change (continuation_count [Chat userId message (Returned response)]) with 0%nat.
      change maxIterations with 5%nat in Hcount. lia.
    + by destruct (last_answer events).
    + by destruct (last_answer events) as [[?|?]|].
  - simpl. exists (Thrown error), [], (Thrown error).
    split; [done|split; [cbn; lia|split; done]].
Qed.

Lemma execute_calls_reports (requested : list FunctionCall) (userId : string)
    (w : @AgentWorld Args G T) :
  exists w' results,
    execute_calls gemini executeFunction requested userId w = (Returned tt, w') /\
    length results = length requested /\
    service_calls w' = service_calls w ++ reports userId requested results.
Proof.
  revert w. induction requested as [|call more IH]; intros w; simpl.
  - exists w, []. unfold ret. by rewrite app_nil_r.
  - unfold bind, run_tool, tell_result, modify.
    destruct (executeFunction call userId (tools w)) as [result t] eqn:Hrun; simpl.
    match goal with |- context [execute_calls _ _ more userId ?w1] =>
      destruct (IH w1) as (w' & results & -> & Hlen & Hlog) end.
    simpl in Hlog. exists w', (result :: results). split; [done|].
    split; [simpl; lia|]. rewrite Hlog, <- app_assoc. done.
Qed.

Lemma function_call_loop_rounds (remaining : nat) (userId : string)
    (response : LLMResponse) (w : @AgentWorld Args G T) :
  exists events,
    service_calls (function_call_loop gemini executeFunction remaining userId response w).2
    = service_calls w ++ events /\
    tool_rounds userId remaining response events.
Proof.
  revert response w. induction remaining as [|fewer IH]; intros response w.
  - exists []. rewrite app_nil_r. split; [done|]. constructor. by left.
  - cbn [function_call_loop].
    destruct (requested_calls response) as [|call more] eqn:Hreq.
    + exists []. rewrite app_nil_r. split; [done|]. constructor. by right.
    + unfold bind.
      destruct (execute_calls_reports (call :: more) userId w)
        as (w1 & results & -> & Hlen & Hlog).
      unfold ask_continue.
      destruct (continueWithFunctionResults gemini userId (service w1))
        as [[next|error] g] eqn:Hnext.
      * match goal with |- context [function_call_loop _ _ fewer userId next ?w2] =>
          destruct (IH next w2) as (rest & Hlog2 & Hrounds) end.
        simpl in Hlog2.
        exists (reports userId (requested_calls response) results
                  ++ ContinueWithFunctionResults userId (Returned next) :: rest).
        split.
        -- rewrite Hlog2, Hlog, Hreq, <- !app_assoc. reflexivity.
        -- apply rounds_next; rewrite ?Hreq; done.
      * simpl.
        exists (reports userId (requested_calls response) results
                  ++ [ContinueWithFunctionResults userId (Thrown error)]).
        split.
        -- rewrite Hlog, Hreq, <- app_assoc. reflexivity.
        -- apply rounds_thrown; rewrite ?Hreq; done.
Qed.

(** X19: the shape of a conversation.  handleMessage first sends the chat
    request; if that throws it asks nothing more.  Otherwise, round by round
    and for at most five rounds, it reports one result for every function call
    of the last answer, in the order of the answer and under the call's name,
    and then asks for one continuation; it stops at the first answer without
    function calls or the first request that throws.  Every request carries
    the user id handleMessage was called with. *)
Theorem handleMessage_rounds (userId message : string) (w : @AgentWorld Args G T) :
  exists first events,
    service_calls (handleMessage gemini executeFunction userId message w).2
    = service_calls w ++ Chat userId message first :: events /\
    match first with
    | Returned response => tool_rounds userId 5 response events
    | Thrown _ => events = []
    end.
Proof.
  unfold handleMessage, bind, ask_chat.
  destruct (chat gemini userId message (service w)) as [[response|error] g] eqn:Hchat.
  - match goal with |- context [function_call_loop _ _ maxIterations userId response ?w1] =>
      destruct (function_call_loop_rounds maxIterations userId response w1)
        as (events & Hlog & Hrounds);
      destruct (function_call_loop gemini executeFunction maxIterations userId response w1)
        as [o w2] end.
    simpl in Hlog. exists (Returned response), events. split; [|done].
    destruct o; simpl; by rewrite Hlog, <- app_assoc.
  - simpl. by exists (Thrown error), [].
Qed.

End AgentProperties.

(** Against the insisting service handleMessage asks for exactly five
    continuations, runs the requested tool five times and closes with "Done!". *)
Example handleMessage_stops_an_insisting_service :
  let '(reply, w') :=
    handleMessage insisting_service count_tool_runs "user123" "show list"
                  (mkAgentWorld tt 0%nat []) in
  reply = "Done!" /\ continuation_count (service_calls w') = 5%nat /\ tools w' = 5%nat.
Proof. vm_compute. repeat split; reflexivity. Qed.

Section PoolProperties.

Context {Browser : Type}.
Variable isConnected : Browser -> bool.

Lemma run_app (s1 s2 : list event) (l : @Loop Browser) :
  run isConnected (s1 ++ s2) l = run isConnected s2 (run isConnected s1 l).
Proof. unfold run. apply foldl_app. Qed.

(** While a launch is in flight, every further caller is handed its promise. *)
Lemma run_enters_in_flight (k p : nat) (l : @Loop Browser) :
  live_browser isConnected (pool l) = None ->
  initPromise (pool l) = Some p ->
  run isConnected (replicate k Enter) l = mkLoop (pool l) (callers l ++ replicate k (Follows p)).
Proof.
  revert l. induction k as [|k IH]; intros l Hlive Hinit; simpl.
  - rewrite app_nil_r. by destruct l.
  - unfold run in *. simpl. unfold getBrowser_enter at 1. rewrite Hlive, Hinit.
    rewrite IH by done. simpl. by rewrite <- app_assoc.
Qed.

(** The state a cold start ends in. *)
Lemma cold_start_final (l : @Loop Browser) (n m : nat) (o : outcome Browser) :
  cold isConnected l ->
  run isConnected (cold_start_schedule l n m o) l
  = mkLoop
      (mkPool (match o with Returned b => Some b | Thrown _ => browser (pool l) end)
              None
              (launched (pool l) ++ [Settled o]))
      (callers l ++ Resumed o :: replicate (n + m) (Follows (launches l))).
Proof.
  intros [Hlive Hinit]. unfold cold_start_schedule, launches.
  set (p := length (launched (pool l))).
  change (replicate (Datatypes.S n) Enter) with ([Enter] ++ replicate n (@Enter Browser)).
  rewrite <- !app_assoc, !run_app.
  assert (run isConnected [Enter] l
          = mkLoop (mkPool (browser (pool l)) (Some p) (launched (pool l) ++ [Pending]))
                   (callers l ++ [Awaits p])) as ->.
  { unfold run; simpl. unfold getBrowser_enter. by rewrite Hlive, Hinit. }
  rewrite (run_enters_in_flight n p) by done. simpl pool. simpl callers.
  assert (forall cs,
    run isConnected [Launch_settles p o]
        (mkLoop (mkPool (browser (pool l)) (Some p) (launched (pool l) ++ [Pending])) cs)
    = mkLoop (mkPool (browser (pool l)) (Some p) (launched (pool l) ++ [Settled o])) cs)
    as ->.
  { intros cs. unfold run; simpl.
    rewrite lookup_app_r by (unfold p; lia).
    replace (p - length (launched (pool l)))%nat with 0%nat by (unfold p; lia). simpl.
    rewrite insert_app_r_alt by (unfold p; lia).
    replace (p - length (launched (pool l)))%nat with 0%nat by (unfold p; lia). done. }
  rewrite (run_enters_in_flight m p) by done. simpl pool. simpl callers.
  unfold run; simpl.
  rewrite <- !app_assoc. simpl.
  rewrite lookup_app_r by lia. rewrite Nat.sub_diag. simpl.
  rewrite lookup_app_r by (unfold p; lia).
  replace (p - length (launched (pool l)))%nat with 0%nat by (unfold p; lia). simpl.
  destruct o as [b|e]; simpl;
    rewrite insert_app_r_alt by lia; rewrite Nat.sub_diag; simpl;
    by rewrite <- replicate_add.
Qed.

(** C9: from a state with no live browser and no launch in flight, any
    number of getBrowser calls that arrive before the first caller is resumed
    (n + 1 while the launch is in flight, m more once it has settled) cause
    exactly one chromium.launch, and every one of them receives what that
    launch produced: the same browser when it succeeded. *)
Theorem cold_start_launches_once (l : @Loop Browser) (n m : nat) (o : outcome Browser) :
  cold isConnected l ->
  let l' := run isConnected (cold_start_schedule l n m o) l in
  launches l' = (launches l + 1)%nat /\
  length (callers l') = (length (callers l) + (n + 1 + m))%nat /\
  forall i c, (length (callers l) <= i)%nat -> callers l' !! i = Some c ->
              received l' c = Some o.
Proof.
  intros Hcold l'. unfold l'. rewrite (cold_start_final l n m o Hcold).
  unfold launches; simpl. split; [|split].
  - rewrite length_app. simpl. lia.
  - rewrite length_app. simpl. rewrite length_replicate. lia.
  - intros i c Hi Hc. rewrite lookup_app_r in Hc by done.
    destruct (i - length (callers l))%nat as [|j]; simpl in Hc.
    + by injection Hc as <-.
    + apply lookup_replicate in Hc as [-> _]. simpl.
      rewrite lookup_app_r by lia. by rewrite Nat.sub_diag.
Qed.

(** X20: what follows a cold start.  After a launch that failed nothing is
    cached: the pool is cold again and the next getBrowser call launches
    anew.  After a launch that succeeded, the next call returns that browser
    without launching as long as it is connected, and launches anew once it
    is not. *)
Theorem after_cold_start (l : @Loop Browser) (n m : nat) (o : outcome Browser) :
  cold isConnected l ->
  match o with
  | Thrown _ =>
      cold isConnected (run isConnected (cold_start_schedule l n m o) l) /\
      launches (step isConnected Enter (run isConnected (cold_start_schedule l n m o) l))
      = (launches l + 2)%nat
  | Returned b =>
      (isConnected b = true ->
         getBrowser_enter isConnected
           (pool (run isConnected (cold_start_schedule l n m o) l))
         = (HasBrowser b, pool (run isConnected (cold_start_schedule l n m o) l))) /\
      (isConnected b = false ->
         launches (step isConnected Enter (run isConnected (cold_start_schedule l n m o) l))
         = (launches l + 2)%nat)
  end.
Proof.
  intros Hcold. rewrite (cold_start_final l n m o Hcold). destruct Hcold as [Hlive Hinit].
  destruct o as [b|e]; unfold cold, launches, step, getBrowser_enter, live_browser; simpl.
  - split; intros Hb; rewrite Hb; simpl; [done|].
    rewrite !length_app. simpl. lia.
  - split; [done|]. unfold live_browser in Hlive. rewrite Hlive. simpl.
    rewrite !length_app. simpl. lia.
Qed.

End PoolProperties.

(** C9 on an empty pool: three calls while the launch is in flight, one more
    after it settled; one launch, and all four receive browser 7. *)
Lemma cold_start_launches_once_witness :
  let l' := run (fun _ : nat => true) (cold_start_schedule (mkLoop (mkPool None None []) []) 2 1
                                          (Returned 7%nat))
                (mkLoop (mkPool None None []) []) in
  launches l' = 1%nat /\ length (callers l') = 4%nat /\
  forall i c, (0 <= i)%nat -> callers l' !! i = Some c -> received l' c = Some (Returned 7%nat).
Proof.
  apply (cold_start_launches_once (fun _ : nat => true) (mkLoop (mkPool None None []) []) 2 1
           (Returned 7%nat)).
  split; reflexivity.
Defined.

(** ** The page field of WegmansBrowser *)

Section SessionProperties.

Context {O : Type}.
Variable driver : @PageDriver O.
Variable rest : @Site O.

Local Notation "'site_'" := (session_site driver rest).

(** X8: a page that failed the login is kept and reused.  With no usable
    page, getPage creates one, assigns it to [this.page], and throws when
    ensureAuthenticated reports failure; withPage calls getPage outside its
    try block, so nothing closes that page.  As long as it stays open, the
    next getPage returns it at once, without another login attempt, and
    withPage starts the operation on it. *)
Theorem failed_login_page_is_reused (w : @World (@Session O)) (p : nat) (o1 o2 : O) :
  session_page_ready driver (site w) = false ->
  create_page driver (outside (site w)) = (Returned p, o1) ->
  authenticate driver p o1 = (false, o2) ->
  isClosed driver p o2 = false ->
  getPage site_ w
  = (Thrown (Error "Failed to authenticate with Wegmans"),
     set_site (mkSession (Some p) o2) w) /\
  getPage site_ (set_site (mkSession (Some p) o2) w)
  = (Returned tt, set_site (mkSession (Some p) o2) w) /\
  forall A c (operation : M World A),
    page_operation c operation ->
    calls (withPage site_ operation (set_site (mkSession (Some p) o2) w)).2
    = calls w ++ [c].
Proof.
  intros Hready Hcreate Hauth Hopen.
  assert (getPage site_ (set_site (mkSession (Some p) o2) w)
          = (Returned tt, set_site (mkSession (Some p) o2) w)) as Hsecond.
  { unfold getPage, bind, get_world, ret; simpl.
    unfold session_page_ready; simpl. by rewrite Hopen. }
  split; [|split; [done|]].
  - unfold getPage, bind, get_world, interact, interact_total, throw; simpl.
    rewrite Hready; simpl. unfold session_new_page. rewrite Hcreate; simpl.
    unfold session_ensureAuthenticated, on_outside; simpl. by rewrite Hauth.
  - intros A c operation Hop. unfold withPage, bind, try_catch, ret, throw.
    rewrite Hsecond.
    destruct (Hop (set_site (mkSession (Some p) o2) w)) as (a & w1 & -> & _ & Hcalls).
    simpl in Hcalls.
    pose proof (quiet_interact (saveContextState site_) w1) as [_ Hc2].
    destruct (interact (saveContextState site_) w1) as [[[]|e2] w2]; simpl in *;
      [congruence|].
    pose proof (quiet_closePage site_ w2) as [_ Hc3].
    destruct (closePage site_ w2) as [[[]|e3] w3]; simpl in *; congruence.
Qed.

(** X9: what becomes of a page on which an operation failed.  When the
    operation throws on an open page, withPage calls closePage before it
    rethrows.  If the page is still open and [page.close()] returns,
    [this.page] is reset and the operation's error is rethrown: the next
    getPage finds no usable page.  If [page.close()] throws, it is that error
    which withPage throws, and [this.page] keeps the page: while it stays
    open, the next getPage returns it.  If the page is no longer open,
    nothing is closed and the operation's error is rethrown. *)
Theorem failed_operation_discards_page {A} (operation : M World A)
    (w w1 : @World (@Session O)) (p : nat) (error : js_error) :
  this_page (site w) = Some p ->
  isClosed driver p (outside (site w)) = false ->
  operation w = (Thrown error, w1) ->
  match this_page (site w1) with
  | Some p1 =>
      if isClosed driver p1 (outside (site w1)) then
        withPage site_ operation w = (Thrown error, w1) /\
        page_ready site_ (site w1) = false
      else
        match close driver p1 (outside (site w1)) with
        | (Returned _, o') =>
            withPage site_ operation w = (Thrown error, set_site (mkSession None o') w1) /\
            page_ready site_ (mkSession None o') = false
        | (Thrown error', o') =>
            withPage site_ operation w
            = (Thrown error', set_site (mkSession (Some p1) o') w1) /\
            (isClosed driver p1 o' = false ->
             getPage site_ (set_site (mkSession (Some p1) o') w1)
             = (Returned tt, set_site (mkSession (Some p1) o') w1))
        end
  | None =>
      withPage site_ operation w = (Thrown error, w1) /\
      page_ready site_ (site w1) = false
  end.
Proof.
  intros Hpage Hopen Hop.
  assert (withPage site_ operation w
          = (closePage site_ ;; throw error) w1) as Hcatch.
  { unfold withPage, getPage, bind, try_catch, get_world, ret; simpl.
    unfold session_page_ready. rewrite Hpage, Hopen; simpl.
    rewrite Hop. reflexivity. }
  rewrite Hcatch. unfold closePage, bind, get_world, interact, ret, throw; simpl.
  unfold session_page_ready, session_close_page.
  destruct (this_page (site w1)) as [p1|] eqn:Hpage1; simpl.
  - destruct (isClosed driver p1 (outside (site w1))) eqn:Hopen1; simpl.
    + split; reflexivity.
    + rewrite ?Hpage1.
      destruct (close driver p1 (outside (site w1))) as [[[]|error'] o']; simpl.
      * split; reflexivity.
      * split; [reflexivity|]. intros Hstill.
        unfold getPage, bind, get_world, ret; simpl.
        unfold session_page_ready; simpl. by rewrite Hstill.
  - split; reflexivity.
Qed.

End SessionProperties.

(** ** The grocery_items table *)

Lemma filter_length_lt {A} (f : A -> bool) (l : list A) :
  (length (List.filter f l) <= length l)%nat /\
  ((length (List.filter f l) < length l)%nat <-> exists x, In x l /\ f x = false).
Proof.
  induction l as [|a l [IHle IHlt]]; simpl.
  - split; [lia|]. split; [lia|]. by intros (x & [] & _).
  - destruct (f a) eqn:Hfa; simpl.
    + split; [lia|]. rewrite <- Nat.succ_lt_mono, IHlt. split.
      * intros (x & Hx & Hfx). eauto.
      * intros (x & [->|Hx] & Hfx); [congruence|eauto].
    + split; [lia|]. split; [eauto|lia].
Qed.

(** X10: removeGroceryItem deletes every row whose name equals the argument
    when letter case is ignored, and no other row; it returns true exactly
    when there was such a row.  A row whose name merely contains the argument
    stays. *)
Theorem removeGroceryItem_deletes_equal_names (name : string) (d : DB) :
  ((removeGroceryItem name d).1 = true <->
     exists row, In row (grocery_items d) /\
                 LOWER (gi_name row) = LOWER name) /\
  (forall row, In row (grocery_items (removeGroceryItem name d).2) <->
     In row (grocery_items d) /\ LOWER (gi_name row) <> LOWER name) /\
  last_id (removeGroceryItem name d).2 = last_id d.
Proof.
  unfold removeGroceryItem; simpl.
  destruct (filter_length_lt (fun row => negb (same_name_ci name row)) (grocery_items d))
    as [Hle Hlt].
  split; [|split; [|done]].
  - rewrite Nat.ltb_lt. split.
    + intros Hpos. destruct (proj1 Hlt) as (row & Hin & Hrow); [lia|].
      exists row. split; [done|]. apply negb_false_iff in Hrow.
      by apply String.eqb_eq in Hrow.
    + intros (row & Hin & Hrow).
      assert (length (List.filter (fun row => negb (same_name_ci name row))
                        (grocery_items d)) < length (grocery_items d))%nat; [|lia].
      apply Hlt. exists row. split; [done|]. apply negb_false_iff.
      by apply String.eqb_eq.
  - intros row. rewrite filter_In. unfold same_name_ci.
    rewrite negb_true_iff. split; intros [Hin Hrow]; (split; [done|]).
    + intros Heq. apply String.eqb_eq in Heq. congruence.
    + apply String.eqb_neq. done.
Qed.

Lemma insert_desc_perm (x : GroceryItem) (l : list GroceryItem) :
  Permutation (insert_desc x l) (x :: l).
Proof.
  induction l as [|y l IH]; simpl; [done|].
  destruct (_ <? _)%Z; [done|]. rewrite IH. apply perm_swap.
Qed.

Lemma insert_desc_sorted (x : GroceryItem) (l : list GroceryItem) :
  StronglySorted not_older l -> StronglySorted not_older (insert_desc x l).
Proof.
  induction 1 as [|y l Hsorted IH Hall]; simpl.
  - repeat constructor.
  - destruct (gi_addedAt y <? gi_addedAt x)%Z eqn:Hcmp.
    + apply Z.ltb_lt in Hcmp. constructor; [by constructor|].
      constructor; [unfold not_older; lia|].
      eapply Forall_impl; [exact Hall|]. unfold not_older. intros z Hz. simpl in *. lia.
    + apply Z.ltb_ge in Hcmp. constructor; [done|].
      rewrite (insert_desc_perm x l). constructor; [done|exact Hall].
Qed.

Lemma order_by_added_at_desc_snoc (l : list GroceryItem) (x : GroceryItem) :
  order_by_added_at_desc (l ++ [x]) = insert_desc x (order_by_added_at_desc l).
Proof. unfold order_by_added_at_desc. by rewrite foldl_app. Qed.

Lemma filter_none {A} (f : A -> bool) (l : list A) :
  (forall x, In x l -> f x = false) -> List.filter f l = [].
Proof.
  induction l as [|a l IH]; simpl; intros Hall; [reflexivity|].
  rewrite (Hall a) by (left; reflexivity). apply IH. intros x Hx. apply Hall. by right.
Qed.

Lemma insert_desc_behind_its_second (t : Z) (x : GroceryItem) (l : list GroceryItem) :
  StronglySorted not_older l ->
  List.filter (added_at t) (insert_desc x l)
  = List.filter (added_at t) l ++ (if added_at t x then [x] else []).
Proof.
  induction 1 as [|y l Hsorted IH Hall]; simpl.
  - destruct (added_at t x); reflexivity.
  - destruct (gi_addedAt y <? gi_addedAt x)%Z eqn:Hcmp; simpl.
    + apply Z.ltb_lt in Hcmp.
      destruct (added_at t x) eqn:Hx; [|by rewrite app_nil_r].
      unfold added_at in Hx. apply Z.eqb_eq in Hx.
      assert (List.filter (added_at t) (y :: l) = []) as Hnone.
      { apply filter_none. intros z [<-|Hz]; unfold added_at.
        - apply Z.eqb_neq. lia.
        - rewrite Forall_forall in Hall. apply list_elem_of_In, Hall in Hz.
          unfold not_older in Hz. apply Z.eqb_neq. lia. }
      simpl in Hnone. rewrite Hnone. reflexivity.
    + rewrite IH. destruct (added_at t y); reflexivity.
Qed.

(** X11: getGroceryItems returns every row of the table exactly once, no row
    before a row with a later added_at, and the rows of one second in the
    order in which they were added. *)
Theorem getGroceryItems_sorted_permutation (d : DB) :
  Permutation (getGroceryItems d) (grocery_items d) /\
  StronglySorted not_older (getGroceryItems d) /\
  forall t, List.filter (added_at t) (getGroceryItems d)
            = List.filter (added_at t) (grocery_items d).
Proof.
  unfold getGroceryItems.
  induction (grocery_items d) as [|x l (IHperm & IHsorted & IHties)] using rev_ind.
  - split; [done|]. split; [constructor|done].
  - rewrite order_by_added_at_desc_snoc. split; [|split].
    + rewrite insert_desc_perm, IHperm. apply Permutation_cons_append.
    + by apply insert_desc_sorted.
    + intros t. rewrite insert_desc_behind_its_second by done.
      rewrite IHties, List.filter_app. reflexivity.
Qed.

Lemma db_after_snoc (ops : list db_op) (op : db_op) :
  db_after (ops ++ [op]) = db_step (db_after ops) op.
Proof. unfold db_after. by rewrite foldl_app. Qed.

Lemma issued_ids_count (ops : list db_op) : forall d : DB,
  issued_ids d ops
  = List.map (fun k => (last_id d + Z.of_nat k)%Z) (seq 1 (adds ops)) /\
  last_id (foldl db_step d ops) = (last_id d + Z.of_nat (adds ops))%Z.
Proof.
  unfold adds. induction ops as [|op ops IH]; intros d; simpl.
  - split; [reflexivity|lia].
  - destruct (IH (db_step d op)) as [IHids IHlast].
    destruct op as [name t|name|]; simpl in *.
    + rewrite IHids, IHlast. split; [|lia]. f_equal.
      rewrite <- (List.seq_shift _ 1), List.map_map. apply List.map_ext. intros k. lia.
    + rewrite IHids, IHlast. done.
    + rewrite IHids, IHlast. done.
Qed.

Lemma rows_were_issued (ops : list db_op) :
  NoDup (List.map gi_id (grocery_items (db_after ops))) /\
  Forall (fun row => (1 <= gi_id row <= last_id (db_after ops))%Z)
         (grocery_items (db_after ops)) /\
  (0 <= last_id (db_after ops))%Z.
Proof.
  induction ops as [|op ops (IHn & IHr & IHp)] using rev_ind.
  - repeat split; [constructor|constructor|done].
  - rewrite db_after_snoc. destruct op as [n t'| n|]; simpl.
    + split; [|split; [|lia]].
      * rewrite List.map_app. simpl. apply NoDup_app. split; [done|]. split.
        -- intros x Hx [<-|[]]%list_elem_of_In. apply list_elem_of_In in Hx.
           apply in_map_iff in Hx as (row & Hid & Hrow%list_elem_of_In).
           rewrite Forall_forall in IHr. apply IHr in Hrow. lia.
        -- apply NoDup_singleton.
      * apply Forall_app. split.
        -- eapply Forall_impl; [exact IHr|]. simpl. intros row ?. lia.
        -- repeat constructor; simpl; lia.
    + split; [|split; [|done]].
      * clear IHr. induction (grocery_items (db_after ops)) as [|row rows IH]; simpl;
          [constructor|].
        apply NoDup_cons in IHn as [Hnotin Hrest].
        destruct (negb _); simpl; [|by apply IH].
        apply NoDup_cons. split; [|by apply IH].
        intros Hin. apply Hnotin. apply list_elem_of_In in Hin.
        apply in_map_iff in Hin as (row' & Hid & [Hrow' _]%filter_In).
        apply list_elem_of_In, in_map_iff. eauto.
      * rewrite Forall_forall in *. intros row Hrow%list_elem_of_In.
        apply filter_In in Hrow as [Hrow%list_elem_of_In _]. by apply IHr.
    + repeat split; [constructor|constructor|done].
Qed.

(** X12: row ids are never reused.  In any run of add, remove and clear on a
    new database the k-th add returns the id k, whatever was removed or
    cleared before it: the ids issued in the run are 1, 2, 3, ... without a
    repetition, and the numbering goes on after a clear.  The counter holds
    the number of adds so far, and the ids of the rows in the table are
    pairwise different ids out of 1..counter. *)
Theorem grocery_ids_are_fresh (ops : list db_op) :
  issued_ids empty_db ops = List.map Z.of_nat (seq 1 (adds ops)) /\
  NoDup (issued_ids empty_db ops) /\
  last_id (db_after ops) = Z.of_nat (adds ops) /\
  NoDup (List.map gi_id (grocery_items (db_after ops))) /\
  Forall (fun row => (1 <= gi_id row <= Z.of_nat (adds ops))%Z)
         (grocery_items (db_after ops)).
Proof.
  destruct (issued_ids_count ops empty_db) as [Hids Hlast]. simpl in Hids, Hlast.
  destruct (rows_were_issued ops) as (Hnodup & Hrange & _).
  assert (issued_ids empty_db ops = List.map Z.of_nat (seq 1 (adds ops))) as Heq.
  { rewrite Hids. apply List.map_ext. intros k. lia. }
  unfold db_after in *. rewrite Hlast in Hrange.
  split; [exact Heq|]. split; [|split; [exact Hlast|split; [exact Hnodup|exact Hrange]]].
  rewrite Heq. apply (NoDup_fmap_2 Z.of_nat). apply NoDup_seq.
Qed.

(** ** list.ts: the operations that click *)

Module ListPageProperties.
Import ListPage.

Section OnThePage.

Context {js : JsString}.

Lemma remove_from_first_match (itemName : string) (rows : list ListRow) (idx : nat) :
  (length (remove_from itemName idx rows).2 <= 1)%nat /\
  ((remove_from itemName idx rows).1 = Returned true ->
     exists k row,
       (remove_from itemName idx rows).2 = [(idx + k)%nat] /\
       rows !! k = Some row /\ removable itemName row /\
       forall j row', (j < k)%nat -> rows !! j = Some row' -> passed_over itemName row') /\
  ((forall row, In row rows -> passed_over itemName row) ->
     remove_from itemName idx rows = (Returned false, [])).
Proof.
  revert idx. induction rows as [|row rows IH]; intros idx; simpl.
  - split; [lia|]. split; [discriminate|done].
  - destruct (IH (Datatypes.S idx)) as (IHlen & IHtrue & IHnone).
    assert (passed_over itemName row ->
      ((remove_from itemName (Datatypes.S idx) rows).1 = Returned true ->
       exists k row0,
         (remove_from itemName (Datatypes.S idx) rows).2 = [(idx + k)%nat] /\
         (row :: rows) !! k = Some row0 /\ removable itemName row0 /\
         forall j row', (j < k)%nat -> (row :: rows) !! j = Some row' ->
                        passed_over itemName row')) as Hnext.
    { intros Hpassed Hok. destruct (IHtrue Hok) as (k & row0 & Hc & Hk & Hrem & Hbefore).
      exists (Datatypes.S k), row0. split; [rewrite Hc; f_equal; lia|].
      split; [done|]. split; [done|].
      intros [|j] row' Hj Hrow'; simpl in Hrow'; [by injection Hrow' as <-|].
      apply (Hbefore j); [lia|done]. }
    assert (
      (forall row0, row = row0 \/ In row0 rows -> passed_over itemName row0) ->
      remove_from itemName (Datatypes.S idx) rows = (Returned false, [])) as Hrest.
    { intros Hall. apply IHnone. eauto. }
    destruct (row_has_name row) as [[]|e] eqn:Hname; simpl.
    + destruct (row_text row) as [text|e] eqn:Htext; simpl.
      * destruct (text_matches itemName text) eqn:Hmatch.
        -- destruct (row_has_remove row) as [[]|e] eqn:Hremove; simpl.
           ++ assert (~ passed_over itemName row) as Hnot.
              { intros [?|(? & t & Ht & [Hm|?])]; congruence. }
              destruct (row_click_remove row) as [[]|e]; simpl;
                [destruct (row_wait row) as [[]|e]; simpl|].
              ** split; [lia|]. split.
                 --- intros _. exists 0%nat, row. rewrite Nat.add_0_r.
                     repeat split; eauto. intros j row' Hj. lia.
                 --- intros Hall. destruct Hnot. eauto.
              ** split; [lia|]. split; [discriminate|].
                 intros Hall. destruct Hnot. eauto.
              ** split; [lia|]. split; [discriminate|].
                 intros Hall. destruct Hnot. eauto.
           ++ split; [done|]. split; [|by apply Hrest].
              apply Hnext. right. split; [done|]. exists text. split; [done|]. by right.
           ++ split; [lia|]. split; [discriminate|].
              intros Hall. destruct (Hall row (or_introl eq_refl)) as [?|(? & t & Ht & [Hm|?])];
                congruence.
        -- split; [done|]. split; [|by apply Hrest].
           apply Hnext. right. split; [done|]. exists text. split; [done|]. by left.
      * split; [lia|]. split; [discriminate|].
        intros Hall. destruct (Hall row (or_introl eq_refl)) as [?|(? & t & Ht & [Hm|?])];
          congruence.
    + split; [done|]. split; [|by apply Hrest].
      apply Hnext. by left.
    + split; [lia|]. split; [discriminate|].
      intros Hall. destruct (Hall row (or_introl eq_refl)) as [?|(? & t & Ht & [Hm|?])];
        congruence.
Qed.

(** X13: removeItemFromList clicks at most one remove button, and when it
    returns true it clicked the button of the first row (in page order) that
    has a name element, whose text contains the item name when letter case is
    ignored, and that has a remove button; every row before it was passed
    over.  When every row is passed over it returns false and clicks
    nothing. *)
Theorem removeItemFromList_first_match (items : outcome (list ListRow)) (itemName : string) :
  (length (removeItemFromList items itemName).2 <= 1)%nat /\
  ((removeItemFromList items itemName).1 = true ->
     exists rows i row,
       items = Returned rows /\
       (removeItemFromList items itemName).2 = [i] /\
       rows !! i = Some row /\ removable itemName row /\
       forall j row', (j < i)%nat -> rows !! j = Some row' -> passed_over itemName row') /\
  (forall rows, items = Returned rows ->
     (forall row, In row rows -> passed_over itemName row) ->
     removeItemFromList items itemName = (false, [])).
Proof.
  unfold removeItemFromList. destruct items as [rows|e]; simpl.
  - destruct (remove_from_first_match itemName rows 0) as (Hlen & Htrue & Hnone).
    destruct (remove_from itemName 0 rows) as [r clicked] eqn:Hrun; simpl in *.
    split; [done|]. split.
    + intros Hok. destruct r as [[]|e]; try discriminate.
      destruct (Htrue eq_refl) as (k & row & Hc & Hk & Hrem & Hbefore).
      exists rows, k, row. split; [done|]. split; [done|]. split; [done|]. by split.
    + intros rows' [= <-] Hall. by injection (Hnone Hall) as -> ->.
  - split; [lia|]. split; [discriminate|]. discriminate.
Qed.

(** X14: which add button is clicked.  addSearchResultToList and
    addMyItemToList return false without clicking anything when the index is
    not below the number of elements on the page.  When addMyItemToList
    returns true it clicked the add button found inside the item at that
    index.  When addSearchResultToList returns true it clicked either the add
    button found inside the card at that index, or, after opening that card,
    the first add button of the whole page: this one is not looked up inside
    the card, and nothing keeps it from being the button of another card. *)
Theorem add_by_index (resultIndex : nat) :
  (forall cards, (length cards <= resultIndex)%nat ->
     addSearchResultToList (Returned cards) resultIndex = (false, [])) /\
  (forall items, (length items <= resultIndex)%nat ->
     addMyItemToList (Returned items) resultIndex = (false, [])) /\
  (forall cards, (addSearchResultToList cards resultIndex).1 = true ->
     (addSearchResultToList cards resultIndex).2 = [AddOnCard resultIndex] \/
     exists l card found,
       cards = Returned l /\ l !! resultIndex = Some card /\
       card_has_add card = Returned false /\
       page_add card = Returned (Some found) /\
       (addSearchResultToList cards resultIndex).2
       = [OpenCard resultIndex; AddOnPage found]) /\
  (forall l card found,
     l !! resultIndex = Some card ->
     card_has_add card = Returned false ->
     card_open card = Returned tt -> card_open_wait card = Returned tt ->
     page_add card = Returned (Some found) ->
     page_click_add card = Returned tt -> card_wait card = Returned tt ->
     addSearchResultToList (Returned l) resultIndex
     = (true, [OpenCard resultIndex; AddOnPage found])) /\
  (forall items, (addMyItemToList items resultIndex).1 = true ->
     (addMyItemToList items resultIndex).2 = [resultIndex]).
Proof.
  split; [|split; [|split; [|split]]].
  - intros cards Hlen. unfold addSearchResultToList, add_card.
    by rewrite (lookup_ge_None_2 cards resultIndex Hlen).
  - intros items Hlen. unfold addMyItemToList, add_item.
    by rewrite (lookup_ge_None_2 items resultIndex Hlen).
  - intros [cards|e]; simpl; [|discriminate]. unfold add_card.
    destruct (cards !! resultIndex) as [card|] eqn:Hcard; simpl; [|discriminate].
    destruct (card_has_add card) as [[]|?] eqn:Hhas; simpl; [| |discriminate].
    + destruct (card_click_add card) as [[]|?]; simpl; [|discriminate].
      destruct (card_wait card) as [[]|?]; simpl; [auto|discriminate].
    + destruct (card_open card) as [[]|?]; simpl; [|discriminate].
      destruct (card_open_wait card) as [[]|?]; simpl; [|discriminate].
      destruct (page_add card) as [[found|]|?] eqn:Hpage; simpl; [|discriminate..].
      destruct (page_click_add card) as [[]|?]; simpl; [|discriminate].
      destruct (card_wait card) as [[]|?]; simpl; [|discriminate].
      intros _. right. exists cards, card, found. done.
  - intros l card found Hcard Hhas Hopen Hwait Hpage Hclick Hdone.
    unfold addSearchResultToList, add_card.
    by rewrite Hcard, Hhas, Hopen, Hwait, Hpage, Hclick, Hdone.
  - intros [items|e]; simpl; [|discriminate]. unfold add_item.
    destruct (items !! resultIndex) as [item|]; simpl; [|discriminate].
    destruct (item_has_add item) as [[]|?]; simpl; [|discriminate..].
    destruct (item_click_add item) as [[]|?]; simpl; [|discriminate].
    destruct (item_wait item) as [[]|?]; simpl; [auto|discriminate].
Qed.

Lemma click_each_prefix (buttons : list (outcome unit * outcome unit)) (idx : nat) :
  exists k,
    (k <= length buttons)%nat /\
    (click_each idx buttons).2 = map RemoveButton (seq idx k) /\
    ((exists u, (click_each idx buttons).1 = Returned u) <->
       Forall (fun b => exists u v, b = (Returned u, Returned v)) buttons) /\
    ((exists u, (click_each idx buttons).1 = Returned u) -> k = length buttons).
Proof.
  revert idx. induction buttons as [|[clicked waited] more IH]; intros idx; simpl.
  - exists 0%nat. repeat split; eauto.
  - destruct clicked as [u|e]; simpl.
    + destruct waited as [v|e]; simpl.
      * destruct (IH (Datatypes.S idx)) as (k & Hk & Hclicks & Hall & Hfull).
        destruct (click_each (Datatypes.S idx) more) as [r l]; simpl in *.
        exists (Datatypes.S k). split; [lia|]. split; [by rewrite Hclicks|]. split.
        -- rewrite Hall. split.
           ++ intros H. constructor; eauto.
           ++ intros H. by apply Forall_cons in H as [_ H].
        -- intros H. f_equal. by apply Hfull.
      * exists 1%nat. split; [lia|]. split; [done|]. split.
        -- split; [by intros [u' ?]|].
           intros H. apply Forall_cons in H as [(u' & v' & H) _]. congruence.
        -- by intros [u' ?].
    + exists 0%nat. split; [lia|]. split; [done|]. split.
      * split; [by intros [u' ?]|].
        intros H. apply Forall_cons in H as [(u' & v' & H) _]. congruence.
      * by intros [u' ?].
Qed.


End OnThePage.

End ListPageProperties.

(** ** GeminiService: the conversation history *)

Section GeminiProperties.

Context {Args X : Type}.
Variable sendMessage :
  X -> list (@Content Args) -> string -> outcome (@Response Args) * list (@Content Args) * X.

Local Notation "'chat_'" := (gemini_chat sendMessage).
Local Notation "'continue_'" := (gemini_continueWithFunctionResults sendMessage).
Local Notation "'service_'" := (gemini_service sendMessage).

Lemma last_40_suffix (history : list (@Content Args)) :
  (length (last_40 history) <= 40)%nat /\
  exists older, history = older ++ last_40 history.
Proof.
  unfold last_40. destruct (40 <? length history)%nat eqn:Hlong.
  - apply Nat.ltb_lt in Hlong. split.
    + rewrite length_drop. lia.
    + exists (take (length history - 40) history). by rewrite take_drop.
  - apply Nat.ltb_ge in Hlong. split; [done|]. by exists [].
Qed.

Lemma history_of_insert (g : gmap string (list (@Content Args))) (x : X) userId history :
  history_of (mkGeminiState (<[userId := history]> g) x) userId = history.
Proof. unfold history_of; simpl. by rewrite lookup_insert_eq. Qed.

(** What chat stores when it gets as far as [conversationHistory.set]. *)
Lemma chat_stores (userId message : string) (g : @Gemini Args X)
    (response : @Response Args) (array : list (@Content Args)) (x : X) :
  sendMessage (backend g) (last_40 (history_of g userId)) message
  = (Returned response, array, x) ->
  exists reply,
    (length reply <= 1)%nat /\
    history_of (chat_ userId message g).2 userId
    = array ++ mkContent user [TextPart message] :: reply.
Proof.
  intros Hsend. unfold gemini_chat. rewrite Hsend.
  destruct (List.filter kept_part _) as [|part more].
  - exists []. split; [simpl; lia|].
    destruct (response_text response); simpl; by rewrite history_of_insert.
  - eexists [_]. split; [simpl; lia|].
    destruct (response_text response); simpl; rewrite history_of_insert;
      by rewrite <- app_assoc.
Qed.

(** The array is the Map's and was left as it was: the Map is as it was. *)
Lemma after_sendMessage_untouched (g : @Gemini Args X) (userId : string) (slices : bool)
    (x : X) :
  conversationHistory
    (after_sendMessage g userId slices
       (if slices then last_40 (history_of g userId) else history_of g userId) x)
  = conversationHistory g.
Proof.
  unfold after_sendMessage, stored_array_handed, history_of, last_40; simpl.
  destruct (conversationHistory g !! userId) as [history|] eqn:Hstored; [|done].
  destruct slices; simpl.
  - destruct (40 <? length history)%nat; simpl; [done|]. by apply insert_id.
  - by apply insert_id.
Qed.

(** X16: how chat caps the history kept per user.  chat hands the SDK the 40
    most recent entries of the stored history.  When it returns, the stored
    history is what the SDK left in that array, then the user's message,
    then at most one model turn.  With an SDK that only pushes, and at most k
    entries, that makes at most 42 + k entries; and with one that pushes the
    user's turn itself, as the chat session of the dependency does, the
    user's message is stored twice. *)
Theorem chat_caps_history (userId message : string) (g : @Gemini Args X) :
  (length (last_40 (history_of g userId)) <= 40)%nat /\
  (exists older, history_of g userId = older ++ last_40 (history_of g userId)) /\
  forall r g', chat_ userId message g = (Returned r, g') ->
    exists response array x reply,
      sendMessage (backend g) (last_40 (history_of g userId)) message
      = (Returned response, array, x) /\
      (length reply <= 1)%nat /\
      history_of g' userId = array ++ mkContent user [TextPart message] :: reply /\
      (forall k, sdk_pushes_at_most sendMessage k ->
         (length (history_of g' userId) <= 42 + k)%nat) /\
      (sdk_records_the_user_turn sendMessage ->
         exists more,
           history_of g' userId
           = last_40 (history_of g userId)
               ++ mkContent user [TextPart message] :: more
               ++ mkContent user [TextPart message] :: reply).
Proof.
  destruct (last_40_suffix (history_of g userId)) as [Hlen Hsuffix].
  split; [done|]. split; [done|].
  intros r g' Hchat.
  destruct (sendMessage (backend g) (last_40 (history_of g userId)) message)
    as [[[response|e] array] x] eqn:Hsend.
  2:{ unfold gemini_chat in Hchat. rewrite Hsend in Hchat. discriminate. }
  destruct (chat_stores userId message g response array x Hsend) as (reply & Hreply & Hstored).
  rewrite Hchat in Hstored. simpl in Hstored.
  exists response, array, x, reply. split; [done|]. split; [done|]. split; [done|]. split.
  - intros k Hpushes. destruct (Hpushes _ _ _ _ _ _ Hsend) as (pushed & -> & Hk).
    rewrite Hstored, !length_app. simpl. lia.
  - intros Hrecords. destruct (Hrecords _ _ _ _ _ _ Hsend) as (more & ->).
    exists more. rewrite Hstored. by rewrite <- app_assoc.
Qed.

(** X17: what a failed request does to the history.  The SDK works on the
    array it was handed, so when a request fails the history of the user is
    what the SDK left in that array, provided the array is the one the Map
    holds (there is an entry and chat did not slice it); otherwise the Map
    is as it was.  So it is for a continueWithFunctionResults whose
    [response.text()] throws.  In each of these cases the Map is unchanged
    if the SDK left the array as it got it.  A chat whose request succeeded
    but whose [response.text()] throws has already stored the turn. *)
Theorem failed_requests_and_history (userId message : string) (g : @Gemini Args X) :
  (forall e g', continue_ userId g = (Thrown e, g') ->
     exists o array x,
       sendMessage (backend g) (history_of g userId) EmptyString = (o, array, x) /\
       g' = after_sendMessage g userId false array x /\
       (array = history_of g userId -> conversationHistory g' = conversationHistory g)) /\
  (forall e array x,
     sendMessage (backend g) (last_40 (history_of g userId)) message = (Thrown e, array, x) ->
     chat_ userId message g = (Thrown e, after_sendMessage g userId true array x) /\
     (array = last_40 (history_of g userId) ->
      conversationHistory (after_sendMessage g userId true array x) = conversationHistory g)) /\
  (forall response array x e,
     sendMessage (backend g) (last_40 (history_of g userId)) message
     = (Returned response, array, x) ->
     response_text response = Thrown e ->
     exists g' reply,
       chat_ userId message g = (Thrown e, g') /\
       history_of g' userId = array ++ mkContent user [TextPart message] :: reply).
Proof.
  split; [|split].
  - intros e g'. unfold gemini_continueWithFunctionResults.
    destruct (sendMessage _ _ _) as [[[response|e'] array] x] eqn:Hsend.
    + destruct (response_text response) as [t|e''].
      * destruct (candidate_parts response); discriminate.
      * intros [= _ <-]. exists (Returned response), array, x.
        split; [done|]. split; [done|]. intros ->.
        apply (after_sendMessage_untouched g userId false).
    + intros [= _ <-]. exists (Thrown e'), array, x.
      split; [done|]. split; [done|]. intros ->.
      apply (after_sendMessage_untouched g userId false).
  - intros e array x Hsend. split.
    + unfold gemini_chat. by rewrite Hsend.
    + intros ->. apply (after_sendMessage_untouched g userId true).
  - intros response array x e Hsend Htext.
    destruct (chat_stores userId message g response array x Hsend) as (reply & _ & Hstored).
    unfold gemini_chat in *. rewrite Hsend, Htext in *. simpl in Hstored.
    eexists _, reply. split; [reflexivity|]. exact Hstored.
Qed.

Section WithTools.

Context {T : Type}.
Variable executeFunction : @FunctionCall Args -> string -> T -> string * T.

Lemma execute_calls_other_user (requested : list FunctionCall) (userId other : string)
    (w : @AgentWorld Args (@Gemini Args X) T) :
  userId <> other ->
  conversationHistory (service (execute_calls service_ executeFunction requested userId w).2)
    !! other
  = conversationHistory (service w) !! other.
Proof.
  intros Hne. revert w. induction requested as [|call more IH]; intros w; simpl; [done|].
  unfold bind, run_tool, tell_result, modify.
  destruct (executeFunction call userId (tools w)) as [result t]; simpl.
  rewrite IH. simpl. by rewrite lookup_insert_ne.
Qed.

Lemma after_sendMessage_other (userId other : string) (g : @Gemini Args X) (slices : bool) :
  userId <> other ->
  forall array x,
    conversationHistory (after_sendMessage g userId slices array x) !! other
    = conversationHistory g !! other.
Proof.
  intros Hne array x. unfold after_sendMessage; simpl.
  destruct (stored_array_handed g userId slices); [by rewrite lookup_insert_ne|done].
Qed.

Lemma continue_other_user (userId other : string) (g : @Gemini Args X) :
  userId <> other ->
  conversationHistory (continue_ userId g).2 !! other = conversationHistory g !! other.
Proof.
  intros Hne. pose proof (after_sendMessage_other userId other g false Hne) as Hleft.
  unfold gemini_continueWithFunctionResults.
  destruct (sendMessage _ _ _) as [[[response|e'] array] x]; [|exact (Hleft array x)].
  destruct (response_text response) as [t|e'']; [|exact (Hleft array x)].
  destruct (candidate_parts response); simpl; [by rewrite lookup_insert_ne|exact (Hleft array x)].
Qed.

Lemma chat_other_user (userId other message : string) (g : @Gemini Args X) :
  userId <> other ->
  conversationHistory (chat_ userId message g).2 !! other = conversationHistory g !! other.
Proof.
  intros Hne. pose proof (after_sendMessage_other userId other g true Hne) as Hleft.
  unfold gemini_chat.
  destruct (sendMessage _ _ _) as [[[response|e'] array] x]; [|exact (Hleft array x)].
  destruct (response_text response) as [t|e'']; simpl; by rewrite lookup_insert_ne.
Qed.

Lemma function_call_loop_other_user (remaining : nat) (userId other : string)
    (response : LLMResponse) (w : @AgentWorld Args (@Gemini Args X) T) :
  userId <> other ->
  conversationHistory
    (service (function_call_loop service_ executeFunction remaining userId response w).2)
    !! other
  = conversationHistory (service w) !! other.
Proof.
  intros Hne. revert response w.
  induction remaining as [|fewer IH]; intros response w; [done|].
  cbn [function_call_loop].
  destruct (requested_calls response) as [|call more]; [done|].
  unfold bind.
  pose proof (execute_calls_other_user (call :: more) userId other w Hne) as Hcalls.
  destruct (execute_calls_log service_ executeFunction (call :: more) userId w)
    as (w1 & events & Hrun & _).
  rewrite Hrun in *. simpl in Hcalls. unfold ask_continue.
  pose proof (continue_other_user userId other (service w1) Hne) as Hcont.
  simpl in *.
  destruct (gemini_continueWithFunctionResults sendMessage userId (service w1))
    as [[next|e] g]; simpl in *.
  - rewrite IH. simpl. congruence.
  - congruence.
Qed.

(** X18: conversations are kept apart.  Handling a message for one user -
    the chat request, every tool round and every continuation - leaves the
    stored history of every other user as it was. *)
Theorem handleMessage_keeps_other_histories (userId other message : string)
    (w : @AgentWorld Args (@Gemini Args X) T) :
  userId <> other ->
  conversationHistory (service (handleMessage service_ executeFunction userId message w).2)
    !! other
  = conversationHistory (service w) !! other.
Proof.
  intros Hne. unfold handleMessage, bind, ask_chat.
  pose proof (chat_other_user userId other message (service w) Hne) as Hchat.
  change (chat service_) with (gemini_chat sendMessage).
  destruct (gemini_chat sendMessage userId message (service w)) as [[response|e] g];
    [|done].
  match goal with |- context [function_call_loop _ _ ?n userId response ?w1] =>
    pose proof (function_call_loop_other_user n userId other response w1 Hne) as Hloop;
    destruct (function_call_loop service_ executeFunction n userId response w1)
      as [[final|e] w2] end; simpl in *; congruence.
Qed.

End WithTools.

End GeminiProperties.

(** * browser/pool.ts: contexts *)

Section ContextsProperties.

Context {Browser BrowserContext P : Type}.
Variable isConnected : Browser -> bool.
Variable pw : @Playwright Browser BrowserContext P.

Local Notation "'getContext_'" := (getContext isConnected pw).
Local Notation "'close_pool_'" := (close_pool pw).
Local Notation "'closeContext_'" := (closeContext pw).

Lemma contexts_get_set (name other : string) (c : BrowserContext) l :
  contexts_get other (contexts_set name c l) =
  if String.eqb name other then Some c else contexts_get other l.
Proof.
  induction l as [|[key c'] l IH]; simpl.
  - reflexivity.
  - destruct (String.eqb key name) eqn:Hkey; simpl.
    + apply String.eqb_eq in Hkey as ->.
      destruct (String.eqb name other); reflexivity.
    + rewrite IH.
      destruct (String.eqb key other) eqn:Hother; [|reflexivity].
      apply String.eqb_eq in Hother as ->.
      rewrite String.eqb_sym, Hkey. reflexivity.
Qed.

Lemma contexts_get_delete (name other : string) (l : list (string * BrowserContext)) :
  contexts_get other (contexts_delete name l) =
  if String.eqb name other then None else contexts_get other l.
Proof.
  induction l as [|[key c'] l IH]; simpl.
  - destruct (String.eqb name other); reflexivity.
  - destruct (String.eqb key name) eqn:Hkey; simpl.
    + apply String.eqb_eq in Hkey as ->. rewrite IH.
      destruct (String.eqb name other); reflexivity.
    + rewrite IH.
      destruct (String.eqb key other) eqn:Hother; [|reflexivity].
      apply String.eqb_eq in Hother as ->.
      rewrite String.eqb_sym, Hkey. reflexivity.
Qed.

Lemma getBrowser_contexts (o : PoolObject) :
  contexts (getBrowser isConnected pw o).2 = contexts o.
Proof.
  unfold getBrowser, bind, get_world.
  destruct (live_browser _ _); [reflexivity|].
  unfold call_playwright. destruct (launch pw (playwright o)) as [[b|e] p]; reflexivity.
Qed.

(** X21: a context handed out under a name is the one every later request for
    that name gets, until it is closed; the contexts under other names stay
    as they were; a request that throws registers nothing. *)
Theorem getContext_registers (name : string) (o : PoolObject) :
  match getContext_ name o with
  | (Returned c, o') =>
      (forall other,
         contexts_get other (contexts o') =
         if String.eqb name other then Some c else contexts_get other (contexts o))
      /\ getContext_ name o' = (Returned c, o')
  | (Thrown _, o') => contexts o' = contexts o
  end.
Proof.
  unfold getContext at 1. unfold bind at 1, get_world at 1.
  destruct (contexts_get name (contexts o)) as [existing|] eqn:Hget.
  - unfold ret. split.
    + intros other. destruct (String.eqb name other) eqn:Hn; [|reflexivity].
      apply String.eqb_eq in Hn as <-. exact Hget.
    + unfold getContext, bind, get_world. rewrite Hget. reflexivity.
  - unfold bind at 1.
    pose proof (getBrowser_contexts o) as Hb.
    destruct (getBrowser isConnected pw o) as [[b|e] o1]; simpl in Hb; [|exact Hb].
    unfold bind at 1, try_catch, bind at 1, call_playwright.
    destruct (newContext pw b (Some (storagePath o name)) (playwright o1)) as [[c|e] p1].
    + simpl. split.
      * intros other. rewrite contexts_get_set, Hb. reflexivity.
      * unfold getContext, bind, get_world. simpl.
        rewrite contexts_get_set, String.eqb_refl. reflexivity.
    + unfold bind, call_playwright. simpl.
      destruct (newContext pw b None p1) as [[c|e'] p2]; simpl; [|exact Hb].
      split.
      * intros other. rewrite contexts_get_set, Hb. reflexivity.
      * unfold getContext, bind, get_world. simpl.
        rewrite contexts_get_set, String.eqb_refl. reflexivity.
Qed.

(** X22: a saved state that cannot be loaded is not an error: with a connected
    browser and no context under the name, a failing [newContext] with the
    state file is followed by one without it, whose context is registered
    and returned. *)
Theorem getContext_without_saved_state
    (name : string) (o : PoolObject) (b : Browser) (e : js_error)
    (c : BrowserContext) (p1 p2 : P)
    (Habsent : contexts_get name (contexts o) = None)
    (Hbrowser : pool_browser o = Some b)
    (Hconnected : isConnected b = true)
    (Hstate : newContext pw b (Some (statePath o +:+ "/" +:+ name)) (playwright o)
              = (Thrown e, p1))
    (Hfresh : newContext pw b None p1 = (Returned c, p2)) :
  getContext_ name o =
  (Returned c,
   mkPoolObject (Some b) (contexts o ++ [(name, c)]) (statePath o) p2
                (happened o ++ [ContextCreated name false])).
Proof.
  assert (Hset : forall l, contexts_get name l = None ->
                           contexts_set name c l = l ++ [(name, c)]).
  { induction l as [|[key c'] l IH]; simpl; [reflexivity|].
    destruct (String.eqb key name); [discriminate|].
    intros Hl. rewrite IH by exact Hl. reflexivity. }
  unfold getContext, bind at 1, get_world at 1. rewrite Habsent.
  unfold bind at 1, getBrowser, bind at 1, get_world, live_browser. simpl.
  rewrite Hbrowser, Hconnected. unfold ret.
  unfold bind at 1, try_catch, bind at 1, call_playwright, storagePath.
  rewrite Hstate. unfold bind, call_playwright. simpl. rewrite Hfresh. simpl.
  unfold bind, modify, ret, set_contexts. simpl.
  rewrite Hset by exact Habsent. rewrite Hbrowser. reflexivity.
Qed.

Lemma contexts_get_In (name : string) (l : list (string * BrowserContext)) :
  In name (map fst l) -> exists c, contexts_get name l = Some c.
Proof.
  induction l as [|[key c'] l IH]; simpl; [tauto|].
  intros [-> | Hin].
  - rewrite String.eqb_refl. eauto.
  - destruct (String.eqb key name); eauto.
Qed.

(** Saving the states of some of the registered names: the saved ones are a
    prefix, and all of them when nothing threw; only the Playwright state and
    the log change. *)
Lemma save_each_log (names : list string) : forall o,
  (forall name, In name names -> In name (map fst (contexts o))) ->
  exists saved,
    happened (save_each pw names o).2 = happened o ++ map StateSaved saved
    /\ saved `prefix_of` names
    /\ contexts (save_each pw names o).2 = contexts o
    /\ pool_browser (save_each pw names o).2 = pool_browser o
    /\ ((save_each pw names o).1 = Returned tt -> saved = names).
Proof.
  induction names as [|name names IH]; intros o Hin.
  - exists []. simpl. rewrite app_nil_r. repeat split; reflexivity.
  - destruct (contexts_get_In name (contexts o)) as [c Hc].
    { apply Hin. left. reflexivity. }
    assert (Hstep : save_each pw (name :: names) o =
                    match storageState pw c (storagePath o name) (playwright o) with
                    | (Returned _, p) =>
                        save_each pw names
                          (mkPoolObject (pool_browser o) (contexts o) (statePath o) p
                                        (happened o ++ [StateSaved name]))
                    | (Thrown e, p) => (Thrown e, with_playwright p o)
                    end).
    { cbn [save_each]. unfold saveContextState_of, bind, get_world.
      cbv beta iota. rewrite Hc. unfold call_playwright.
      destruct (storageState pw c (storagePath o name) (playwright o)) as [[[]|e] p];
        reflexivity. }
    rewrite Hstep. clear Hstep.
    destruct (storageState pw c (storagePath o name) (playwright o)) as [[[]|e] p].
    + set (o1 := mkPoolObject _ _ _ _ _).
      destruct (IH o1) as (saved & Hlog & Hpre & Hctx & Hbr & Hall).
      { intros n Hn. apply Hin. right. exact Hn. }
      exists (name :: saved). rewrite Hlog, Hctx, Hbr. subst o1. simpl.
      rewrite <- app_assoc. simpl. repeat split; try reflexivity.
      * apply prefix_cons. exact Hpre.
      * intros Hret. rewrite Hall by exact Hret. reflexivity.
    + simpl. exists []. rewrite app_nil_r. repeat split; try reflexivity.
      * apply prefix_nil.
      * discriminate.
Qed.

Lemma close_each_log (l : list (string * BrowserContext)) : forall o,
  exists closed,
    happened (close_each pw l o).2 = happened o ++ map ContextClosed closed
    /\ closed `prefix_of` map fst l
    /\ contexts (close_each pw l o).2 = contexts o
    /\ pool_browser (close_each pw l o).2 = pool_browser o
    /\ ((close_each pw l o).1 = Returned tt -> closed = map fst l).
Proof.
  induction l as [|[name c] l IH]; intros o.
  - exists []. simpl. rewrite app_nil_r. repeat split; reflexivity.
  - assert (Hstep : close_each pw ((name, c) :: l) o =
                    match context_close pw c (playwright o) with
                    | (Returned _, p) =>
                        close_each pw l
                          (mkPoolObject (pool_browser o) (contexts o) (statePath o) p
                                        (happened o ++ [ContextClosed name]))
                    | (Thrown e, p) => (Thrown e, with_playwright p o)
                    end).
    { cbn [close_each]. unfold bind, call_playwright.
      destruct (context_close pw c (playwright o)) as [[[]|e] p]; reflexivity. }
    rewrite Hstep. clear Hstep.
    destruct (context_close pw c (playwright o)) as [[[]|e] p].
    + set (o1 := mkPoolObject _ _ _ _ _).
      destruct (IH o1) as (closed & Hlog & Hpre & Hctx & Hbr & Hall).
      exists (name :: closed). rewrite Hlog, Hctx, Hbr. subst o1. simpl.
      rewrite <- app_assoc. simpl. repeat split; try reflexivity.
      * apply prefix_cons. exact Hpre.
      * intros Hret. rewrite Hall by exact Hret. reflexivity.
    + simpl. exists []. rewrite app_nil_r. repeat split; try reflexivity.
      * apply prefix_nil.
      * discriminate.
Qed.

(** X23: shutting the pool down saves before it closes: what close does is to
    save the states of a prefix of the registered names, then close a prefix
    of the contexts, then possibly the browser; a context is closed only
    after every state was saved, the browser only after every context was
    closed; and if close returns, everything was saved and closed, the Map
    is empty and [browser] is null.  So a save that throws leaves every
    context and the browser open. *)
Theorem close_saves_before_closing (o : PoolObject) :
  let names := map fst (contexts o) in
  exists (saved closed : list string) (quit : bool),
    happened (close_pool_ o).2 =
      happened o ++ map StateSaved saved ++ map ContextClosed closed
                 ++ (if quit then [BrowserClosed] else [])
    /\ saved `prefix_of` names
    /\ closed `prefix_of` names
    /\ (closed <> [] \/ quit = true -> saved = names)
    /\ (quit = true -> closed = names)
    /\ ((close_pool_ o).1 = Returned tt ->
        saved = names /\ closed = names
        /\ contexts (close_pool_ o).2 = [] /\ pool_browser (close_pool_ o).2 = None).
Proof.
  intros names.
  destruct (save_each_log (map fst (contexts o)) o) as (saved & Hs & Hsp & Hsc & Hsb & Hsall).
  { intros name Hin. exact Hin. }
  remember (close_pool pw o) as r eqn:Hr.
  unfold close_pool, bind, get_world in Hr. cbv beta iota in Hr.
  destruct (save_each pw (map fst (contexts o)) o) as [[[]|e] o1]; simpl in Hs, Hsc, Hsb, Hsall.
  2:{ subst r. exists saved, [], false. simpl. rewrite app_nil_r.
      repeat split; try assumption; try discriminate.
      - apply prefix_nil.
      - intros [H|H]; [congruence|discriminate]. }
  specialize (Hsall eq_refl).
  destruct (close_each_log (contexts o) o1) as (closed & Hc & Hcp & Hcc & Hcb & Hcall).
  destruct (close_each pw (contexts o) o1) as [[[]|e] o2]; simpl in Hc, Hcc, Hcb, Hcall.
  2:{ subst r. exists saved, closed, false. simpl. rewrite Hc, Hs, <- app_assoc, app_nil_r.
      repeat split; try assumption; try discriminate.
      intros _. exact Hsall. }
  specialize (Hcall eq_refl).
  unfold modify in Hr. simpl in Hr.
  destruct (pool_browser o2) as [b|] eqn:Hb2.
  - unfold call_playwright in Hr.
    destruct (browser_close pw b (playwright (set_contexts [] o2))) as [[[]|e] p]; subst r; simpl.
    + exists saved, closed, true. rewrite Hc, Hs, <- !app_assoc.
      repeat split; try assumption; try reflexivity; intros _; assumption.
    + exists saved, closed, false. rewrite Hc, Hs, <- !app_assoc, app_nil_r.
      repeat split; try assumption; try discriminate.
      intros _. exact Hsall.
  - subst r. simpl. exists saved, closed, false. rewrite Hc, Hs, <- !app_assoc, app_nil_r.
    repeat split; try assumption; try discriminate; try reflexivity.
    intros _. exact Hsall.
Qed.


End ContextsProperties.

(** * actions/registry.ts *)

Section RegistryProperties.

Context {W Match Ctx : Type}.

Local Notation "'Action_'" := (@Action W Match Ctx).

Lemma first_pattern_None (ps : list (@Pattern Match)) (text : string) :
  first_pattern ps text = None <-> Forall (fun pattern => pattern text = None) ps.
Proof.
  induction ps as [|p ps IH]; simpl.
  - split; [constructor|reflexivity].
  - destruct (p text) eqn:Hp.
    + split; [discriminate|]. intros H. inversion H. congruence.
    + rewrite IH. split; [intros H; constructor; assumption|intros H; inversion H; assumption].
Qed.

(** X25: findAction answers with the first registered action that has a matching
    pattern, and with the match of the first such pattern of that action;
    it answers null exactly when no pattern of any action matches. *)
Theorem findAction_first_match (r : list Action_) (text : string) :
  match findAction r text with
  | Some (action, m) =>
      exists before after ps pattern ps',
        r = before ++ action :: after
        /\ Forall (matches_nothing text) before
        /\ patterns action = ps ++ pattern :: ps'
        /\ Forall (fun p : Pattern => p text = None) ps
        /\ pattern text = Some m
  | None => Forall (matches_nothing text) r
  end.
Proof.
  assert (Hfirst : forall (ps : list (@Pattern Match)) m,
             first_pattern ps text = Some m ->
             exists before pattern after,
               ps = before ++ pattern :: after
               /\ Forall (fun p : Pattern => p text = None) before
               /\ pattern text = Some m).
  { induction ps as [|p ps IH]; simpl; intros m Hm; [discriminate|].
    destruct (p text) eqn:Hp.
    - injection Hm as <-. exists [], p, ps. repeat split; [constructor|exact Hp].
    - destruct (IH m Hm) as (before & pattern & after & -> & Hnone & Hsome).
      exists (p :: before), pattern, after.
      repeat split; [constructor; assumption|exact Hsome]. }
  induction r as [|a r IH]; simpl.
  - constructor.
  - destruct (first_pattern (patterns a) text) as [m|] eqn:Hm.
    + destruct (Hfirst _ _ Hm) as (ps & pattern & ps' & Hps & Hnone & Hsome).
      exists [], r, ps, pattern, ps'. repeat split; try assumption. constructor.
    + apply first_pattern_None in Hm.
      destruct (findAction r text) as [[action m]|].
      * destruct IH as (before & after & ps & pattern & ps' & -> & Hb & Hps & Hnone & Hsome).
        exists (a :: before), after, ps, pattern, ps'.
        repeat split; try assumption. constructor; assumption.
      * constructor; assumption.
Qed.

(** X26: registration order is priority: an action registered later never takes
    over a message that an action registered earlier matches, and gets
    exactly the messages none of them matches. *)
Theorem register_keeps_dispatch (r : list Action_) (action : Action_) (text : string) :
  findAction (register action r) text =
  match findAction r text with
  | Some found => Some found
  | None =>
      match first_pattern (patterns action) text with
      | Some m => Some (action, m)
      | None => None
      end
  end.
Proof.
  unfold register. induction r as [|a r IH]; simpl.
  - destruct (first_pattern (patterns action) text); reflexivity.
  - destruct (first_pattern (patterns a) text); [reflexivity|exact IH].
Qed.

(** X27: execute of the registry never throws, whatever the actions do; a
    successful result is always the result the first matching action
    returned, and the state is the one that action left.  *)
Theorem registry_execute_never_throws
    (r : list Action_) (text : string) (context : Ctx) (w : W) :
  exists result,
    (registry_execute r text context w).1 = Returned result
    /\ (success result = true ->
        exists action m,
          findAction r text = Some (action, m)
          /\ action_execute action context text m w
             = (Returned result, (registry_execute r text context w).2)).
Proof.
  unfold registry_execute.
  destruct (findAction r text) as [[action m]|].
  - unfold try_catch.
    destruct (action_execute action context text m w) as [[result|e] w'] eqn:Hrun; simpl.
    + exists result. split; [reflexivity|]. intros _. exists action, m. split; [reflexivity|exact Hrun].
    + eexists. split; [reflexivity|]. simpl. discriminate.
  - simpl. eexists. split; [reflexivity|]. simpl. discriminate.
Qed.

End RegistryProperties.

(** * whatsapp/messageHandler.ts *)

Section MessageHandlerProperties.

Context {js : JsString} {A : Type}.
Variable trim : string -> string.
Variable chat : @Endpoints A.

Local Notation "'on_message_'" := (on_message trim chat).

(** X28: the listener never throws.  A message that is not from the owner changes
    nothing: no agent request, no reply.  For any message the listener makes
    at most one request to the agent, always on behalf of the owner, and
    tries at most two replies; a second reply is always the apology and is
    tried only after something threw. *)
Theorem listener_serves_owner_only (owner : string) (m : Message) (w : HandlerWorld) :
  (on_message_ owner m w).1 = Returned tt
  /\ (msg_from m <> owner -> (on_message_ owner m w).2 = w)
  /\ exists new,
       handled (on_message_ owner m w).2 = handled w ++ new
       /\ length (omap served new) <= 1
       /\ Forall (fun userId => userId = owner) (omap served new)
       /\ (length (List.filter is_reply new) <= 2)%nat
       /\ (forall first second,
             List.filter is_reply new = [first; second] -> second = ReplyTried apology).
Proof.
  assert (Hshape : forall log new : list handler_event,
            log = handled w ++ new ->
            length (omap served new) <= 1 ->
            Forall (fun userId => userId = owner) (omap served new) ->
            (length (List.filter is_reply new) <= 2)%nat ->
            (forall first second,
               List.filter is_reply new = [first; second] ->
               second = ReplyTried apology) ->
            exists new,
              log = handled w ++ new
              /\ length (omap served new) <= 1
              /\ Forall (fun userId => userId = owner) (omap served new)
              /\ (length (List.filter is_reply new) <= 2)%nat
              /\ (forall first second,
                    List.filter is_reply new = [first; second] ->
                    second = ReplyTried apology)).
  { intros log new. eauto 10. }
  assert (Hquiet : exists new,
              handled w = handled w ++ new
              /\ length (omap served new) <= 1
              /\ Forall (fun userId => userId = owner) (omap served new)
              /\ (length (List.filter is_reply new) <= 2)%nat
              /\ (forall first second,
                    List.filter is_reply new = [first; second] ->
                    second = ReplyTried apology)).
  { apply (Hshape (handled w) []); simpl; try lia; try constructor.
    - rewrite app_nil_r. reflexivity.
    - discriminate. }
  unfold on_message.
  destruct (String.eqb (msg_from m) owner) eqn:Howner; simpl.
  2:{ repeat split. exact Hquiet. }
  apply String.eqb_eq in Howner.
  split; [|split; [intros Hne; contradiction|]].
  - destruct (includes (msg_from m) "@g.us"); [reflexivity|].
    destruct (negb (truthy (msg_body m)) || negb (truthy (option_map trim (msg_body m))));
      [reflexivity|].
    unfold try_catch, try_reply, handler_call, bind.
    destruct (String.eqb (toLowerCase _) "/reset"); simpl.
    + destruct (clearContext chat (msg_from m) (chat_state w)) as [[[]|e] a]; simpl.
      * destruct (reply chat _ a) as [[[]|e] a']; simpl; [reflexivity|].
        destruct (reply chat apology a') as [[[]|e'] a'']; reflexivity.
      * destruct (reply chat apology a) as [[[]|e'] a'']; reflexivity.
    + destruct (agent_handleMessage chat (msg_from m) _ (chat_state w)) as [[response|e] a]; simpl.
      * destruct (reply chat response a) as [[[]|e] a']; simpl; [reflexivity|].
        destruct (reply chat apology a') as [[[]|e'] a'']; reflexivity.
      * destruct (reply chat apology a) as [[[]|e'] a'']; reflexivity.
  - destruct (includes (msg_from m) "@g.us"); [exact Hquiet|].
    destruct (negb (truthy (msg_body m)) || negb (truthy (option_map trim (msg_body m))));
      [exact Hquiet|].
    unfold try_catch, try_reply, handler_call, bind.
    destruct (String.eqb (toLowerCase _) "/reset"); simpl.
    + destruct (clearContext chat (msg_from m) (chat_state w)) as [[[]|e] a]; simpl.
      * destruct (reply chat _ a) as [[[]|e] a']; simpl.
        { eapply Hshape; [rewrite <- app_assoc; reflexivity|simpl; lia| |simpl; lia|discriminate].
          repeat constructor. exact Howner. }
        destruct (reply chat apology a') as [[[]|e'] a'']; simpl;
          (eapply Hshape;
           [rewrite <- !app_assoc; reflexivity|simpl; lia| |simpl; lia|simpl; congruence];
           repeat constructor; exact Howner).
      * destruct (reply chat apology a) as [[[]|e'] a'']; simpl;
          (eapply Hshape;
           [rewrite <- !app_assoc; reflexivity|simpl; lia| |simpl; lia|discriminate];
           repeat constructor; exact Howner).
    + destruct (agent_handleMessage chat (msg_from m) _ (chat_state w)) as [[response|e] a]; simpl.
      * destruct (reply chat response a) as [[[]|e] a']; simpl.
        { eapply Hshape; [rewrite <- app_assoc; reflexivity|simpl; lia| |simpl; lia|discriminate].
          repeat constructor. exact Howner. }
        destruct (reply chat apology a') as [[[]|e'] a'']; simpl;
          (eapply Hshape;
           [rewrite <- !app_assoc; reflexivity|simpl; lia| |simpl; lia|simpl; congruence];
           repeat constructor; exact Howner).
      * destruct (reply chat apology a) as [[[]|e'] a'']; simpl;
          (eapply Hshape;
           [rewrite <- !app_assoc; reflexivity|simpl; lia| |simpl; lia|discriminate];
           repeat constructor; exact Howner).
Qed.

End MessageHandlerProperties.

(** * actions/wegmans/auth.ts *)

Section AuthProperties.

Context {E : Type}.
Variable page : @AuthPage E.
Variable credentials : AuthCredentials.

Lemma isLoggedIn_returns (e : E) : exists b, (isLoggedIn page e).1 = Returned b.
Proof.
  unfold isLoggedIn, try_catch, bind, get_world, ret.
  destruct (goto page URLS_shoppingList e) as [[[]|?] e1]; simpl; [|eauto].
  destruct (on_login_page page e1); simpl; [eauto|].
  destruct (page_query page nav_accountMenu e1) as [[[]|?] e2]; simpl; eauto.
  destruct (page_query page list_container e2) as [[[]|?] e3]; simpl; eauto.
Qed.

Lemma login_returns (e : E) :
  exists b, (login page credentials e).1 = Returned b
            /\ (b = true -> on_login_page page (login page credentials e).2 = false).
Proof.
  unfold login, try_catch, bind, get_world, ret.
  destruct (goto page URLS_login e) as [[[]|?] e1]; simpl;
    [|eexists; split; [reflexivity|discriminate]].
  destruct (waitForSelector page login_emailInput e1) as [[[]|?] e2]; simpl;
    [|eexists; split; [reflexivity|discriminate]].
  destruct (page_fill page login_emailInput (email credentials) e2) as [[[]|?] e3]; simpl;
    [|eexists; split; [reflexivity|discriminate]].
  destruct (page_fill page login_passwordInput (password credentials) e3) as [[[]|?] e4]; simpl;
    [|eexists; split; [reflexivity|discriminate]].
  destruct (page_click page login_submitButton e4) as [[[]|?] e5]; simpl;
    [|eexists; split; [reflexivity|discriminate]].
  destruct (waitForNavigation page e5) as [[[]|?] e6]; simpl;
    [|eexists; split; [reflexivity|discriminate]].
  destruct (on_login_page page e6) eqn:Hurl; simpl.
  - destruct (page_query page common_errorMessage e6) as [[[]|?] e7]; simpl;
      try (eexists; split; [reflexivity|discriminate]).
    destruct (error_textContent page e7) as [[[]|?] e8]; simpl;
      eexists; (split; [reflexivity|discriminate]).
  - exists true. split; [reflexivity|]. intros _. exact Hurl.
Qed.

(** X29: ensureAuthenticated never throws, whatever the page does: every failure
    of a page step is turned into the answer false.  When the first check
    finds the session logged in, nothing more is done on the page (the
    credentials are not typed); and the answer true means that this check
    succeeded or that the login ended on a page whose URL contains neither
    'sign-in' nor 'login'. *)
Theorem ensureAuthenticated_never_throws (e : E) :
  let r := auth_ensureAuthenticated page credentials e in
  exists b,
    r.1 = Returned b
    /\ ((isLoggedIn page e).1 = Returned true -> r = (Returned true, (isLoggedIn page e).2))
    /\ (b = true ->
        (isLoggedIn page e).1 = Returned true \/ on_login_page page r.2 = false).
Proof.
  unfold auth_ensureAuthenticated, bind.
  destruct (isLoggedIn_returns e) as [b Hb].
  destruct (isLoggedIn page e) as [probe e1]. simpl in Hb. subst probe.
  destruct b; simpl.
  - exists true. repeat split. intros _. left. reflexivity.
  - destruct (login_returns e1) as (b & Hlogin & Hurl).
    exists b. split; [exact Hlogin|]. split; [discriminate|].
    intros Htrue. right. apply Hurl. exact Htrue.
Qed.

End AuthProperties.

(** * The further properties on the scripted examples *)

(** X1 on the milk menu read 300001 ms after it was stored. *)
Lemma pick_after_expiry_witness :
  execute scripted_site (Pick 1) world_with_stale_menu
  = (Returned (failure no_pending_message), after_cleanup scripted_site world_with_stale_menu)
  /\ pendingSelections (after_cleanup scripted_site world_with_stale_menu) !! "default" = None
  /\ calls (after_cleanup scripted_site world_with_stale_menu) = calls world_with_stale_menu.
Proof.
  destruct (pick_after_expiry scripted_site world_with_stale_menu 1 milk_menu) as [Hlate _].
  - vm_compute; reflexivity.
  - apply Hlate. vm_compute. reflexivity.
Defined.

(** X2 on the milk menu: after [pick 2], [pick 1] finds nothing to pick from. *)
Lemma pick_is_single_use_witness :
  (execute scripted_site (Pick 1)
     (execute scripted_site (Pick 2) world_with_milk_menu).2).1
  = Returned (failure no_pending_message)
  /\ calls (execute scripted_site (Pick 1)
              (execute scripted_site (Pick 2) world_with_milk_menu).2).2
     = calls (execute scripted_site (Pick 2) world_with_milk_menu).2.
Proof.
  apply (pick_is_single_use scripted_site world_with_milk_menu 2 1 milk_menu);
    [vm_compute; reflexivity|simpl; lia].
Defined.

(** X6 when the login is refused: the list is not fetched, and add answers
    with the authentication failure. *)
Lemma withPage_requires_authentication_witness :
  withPage scripted_site (getListItems scripted_site) (fresh_world locked_out_script)
  = (Thrown (Error "Failed to authenticate with Wegmans"),
     set_site locked_out_script (fresh_world locked_out_script))
  /\ forall item,
       execute scripted_site (Add item) (fresh_world locked_out_script)
       = (Returned (failure ("Failed to search for " +:+ quoted item
                               +:+ ": Failed to authenticate with Wegmans")),
          set_site locked_out_script
            (after_cleanup scripted_site (fresh_world locked_out_script))).
Proof.
  apply (withPage_requires_authentication scripted_site (getListItems scripted_site)
           (fresh_world locked_out_script) locked_out_script locked_out_script);
    reflexivity.
Defined.

(** X7 with a full disk: the remote list is cleared, clear() fails, and the
    two local rows stay. *)
Lemma clear_fails_when_state_cannot_be_saved_witness :
  exists r w',
    execute unsaved_site ClearListCmd world_before_clear = (Returned r, w')
    /\ success r = false
    /\ db w' = db world_before_clear
    /\ calls w' = calls world_before_clear ++ [CallClearList].
Proof.
  apply (clear_fails_when_state_cannot_be_saved unsaved_site world_before_clear
           milk_script (Error "ENOSPC: no space left on device") milk_script);
    reflexivity.
Defined.

(** X8 with a refused login on a page that stays open. *)
Lemma failed_login_page_is_reused_witness :
  getPage (session_site steady_driver scripted_site) (session_world None locked_out_script)
  = (Thrown (Error "Failed to authenticate with Wegmans"),
     set_site (mkSession (Some 1%nat) locked_out_script)
       (session_world None locked_out_script))
  /\ getPage (session_site steady_driver scripted_site)
       (set_site (mkSession (Some 1%nat) locked_out_script)
          (session_world None locked_out_script))
     = (Returned tt,
        set_site (mkSession (Some 1%nat) locked_out_script)
          (session_world None locked_out_script))
  /\ forall A c (operation : M World A),
       page_operation c operation ->
       calls (withPage (session_site steady_driver scripted_site) operation
                (set_site (mkSession (Some 1%nat) locked_out_script)
                   (session_world None locked_out_script))).2
       = calls (session_world None locked_out_script) ++ [c].
Proof.
  apply (failed_login_page_is_reused steady_driver scripted_site
           (session_world None locked_out_script) 1 locked_out_script locked_out_script);
    reflexivity.
Defined.

(** X9 with an operation that throws on the open page 1. *)
Lemma failed_operation_discards_page_witness :
  withPage (session_site steady_driver scripted_site)
    (throw (Error "Target closed") : M World bool)
    (session_world (Some 1%nat) milk_script)
  = (Thrown (Error "Target closed"),
     set_site (mkSession None milk_script) (session_world (Some 1%nat) milk_script))
  /\ page_ready (session_site steady_driver scripted_site) (mkSession None milk_script)
     = false.
Proof.
  apply (failed_operation_discards_page steady_driver scripted_site
           (throw (Error "Target closed") : M World bool)
           (session_world (Some 1%nat) milk_script)
           (session_world (Some 1%nat) milk_script)
           1 (Error "Target closed"));
    reflexivity.
Defined.


(** X18: a message of alice leaves the history of bob in place. *)
Lemma handleMessage_keeps_other_histories_witness :
  conversationHistory
    (service (handleMessage (gemini_service agreeable_model) count_tool_runs
                "alice" "show my list" world_with_bobs_history).2) !! "bob"
  = conversationHistory (service world_with_bobs_history) !! "bob".
Proof.
  apply (handleMessage_keeps_other_histories agreeable_model count_tool_runs
           "alice" "bob" "show my list" world_with_bobs_history).
  discriminate.
Defined.

(** X20 on an empty pool whose launch fails: the pool is cold again and the
    next call launches a second time. *)
Lemma after_cold_start_witness :
  let l' := run (fun _ : nat => true)
                (cold_start_schedule (mkLoop (mkPool None None []) []) 2 1
                   (Thrown (Error "browserType.launch: Executable not found")))
                (mkLoop (mkPool None None []) []) in
  cold (fun _ : nat => true) l'
  /\ launches (step (fun _ : nat => true) Enter l') = 2%nat.
Proof.
  apply (after_cold_start (fun _ : nat => true) (mkLoop (mkPool None None []) []) 2 1
           (Thrown (Error "browserType.launch: Executable not found"))).
  split; reflexivity.
Defined.

(** X22 on a pool with a browser and no state file: the context is created
    fresh. *)
Lemma getContext_without_saved_state_witness :
  getContext (fun _ : nat => true) playwright_with_files "wegmans" warm_pool
  = (Returned 1%nat,
     mkPoolObject (Some 7%nat) [("wegmans", 1%nat)] "/data/browser-state" []
       [ContextCreated "wegmans" false]).
Proof.
  apply (getContext_without_saved_state (fun _ : nat => true) playwright_with_files
           "wegmans" warm_pool 7%nat (Error "ENOENT: no such file or directory")
           1%nat [] []);
    reflexivity.
Defined.

(** The chat session of [agreeable_model] pushes both turns into the array
    it is handed, and chat pushes them again: the first message of a user is
    stored twice. *)
Lemma chat_stores_the_turn_twice :
  sdk_pushes_at_most agreeable_model 2 /\
  sdk_records_the_user_turn agreeable_model /\
  history_of (gemini_chat agreeable_model "alice" "hi" (mkGeminiState ∅ tt)).2 "alice"
  = [mkContent user [TextPart "hi"]; mkContent model [TextPart "ok"];
     mkContent user [TextPart "hi"]; mkContent model [TextPart "ok"]].
Proof.
  split; [|split].
  - intros x history text o array x' [= <- <- <-]. eexists. split; [reflexivity|]. simpl. lia.
  - intros x history text response array x' [= <- <- <-]. eexists. reflexivity.
  - vm_compute. reflexivity.
Qed.
